(** * read-bridge: the background translation task service

  A shallow embedding of [src/utils/db.ts] (the translation cache on top of
  an IndexedDB table) and of [src/services/TranslationTaskService.ts] (the
  single-task controller with its asynchronous execution loop), followed by
  the properties of the specification that were checked against them; then
  the sentence collection and the chapter assembly of the book translation
  manager ([src/unnamed/part_000]), and further properties of the three. *)

From Stdlib Require Import ZArith Lia Bool.
From Stdlib Require Import Floats.SpecFloat.
From stdpp Require Import base list gmap strings.

Local Open Scope Z_scope.

(* ===================================================================== *)
(** ** JavaScript values *)
(* ===================================================================== *)

(** A JavaScript string is a sequence of UTF-16 code units; [charCodeAt]
  reads one of them. *)
Abbreviation jsstring := (list Z).

Module Js.

(** Code units of a literal made of ASCII characters. *)
Definition lit (s : String.string) : jsstring :=
  (λ a, Z.of_N (Ascii.N_of_ascii a)) <$> String.list_ascii_of_string s.

(** A string is falsy exactly when it is empty. *)
Definition truthy (s : jsstring) : bool :=
  match s with [] => false | _ => true end.

(** [ToInt32]: wrap an integer into the signed 32-bit range. *)
Definition toInt32 (z : Z) : Z := (z + 2 ^ 31) mod 2 ^ 32 - 2 ^ 31.

(** [a << n] on numbers. *)
Definition shl (a n : Z) : Z := toInt32 (Z.shiftl (toInt32 a) (n mod 32)).

(** [a & b] on numbers. *)
Definition band (a b : Z) : Z := Z.land (toInt32 a) (toInt32 b).

(** [Array.prototype.slice(start, end)] with its relative indices: a
    negative index counts from the end, and both are clamped to the
    array. *)
Definition rel_index (len k : Z) : Z :=
  if k <? 0 then Z.max (len + k) 0 else Z.min k len.

Definition slice {A} (l : list A) (start stop : Z) : list A :=
  let len := Z.of_nat (length l) in
  let k := rel_index len start in
  let e := rel_index len stop in
  take (Z.to_nat (e - k)) (drop (Z.to_nat k) l).

(** [slice(start)]: the end defaults to the length. *)
Definition slice_from {A} (l : list A) (start : Z) : list A :=
  slice l start (Z.of_nat (length l)).

(** *** Numbers

    A JavaScript number is an IEEE 754 binary64 value.  Counters and
    lengths stay integers far below 2^53 and are kept in [Z]; the one place
    where the service divides, the progress percentage, is evaluated on
    binary64 as specified by the standard library's [SpecFloat]. *)
Abbreviation number := spec_float.

Definition prec : Z := 53.
Definition emax : Z := 1024.

Definition of_Z (z : Z) : number := binary_normalize prec emax z 0 false.
Definition fdiv : number → number → number := SFdiv prec emax.
Definition fmul : number → number → number := SFmul prec emax.

(** [Math.round]: the nearest integer, a tie going towards +∞; a result
    of zero keeps the sign of the argument. *)
Definition Math_round (x : number) : number :=
  match x with
  | S754_finite s m e =>
      if 0 <=? e then x
      else
        let v := if s then Z.neg m else Z.pos m in
        let r := (2 * v + 2 ^ (- e)) `div` 2 ^ (- e + 1) in
        if r =? 0 then S754_zero s else of_Z r
  | _ => x
  end.

Definition is_neg_zero (x : number) : bool :=
  match x with S754_zero true => true | _ => false end.

(** [Math.min] and [Math.max] of two numbers: NaN is contagious and -0 is
    below +0. *)
Definition Math_min (a b : number) : number :=
  match a, b with
  | S754_nan, _ | _, S754_nan => S754_nan
  | _, _ =>
      match SFcompare a b with
      | Some Lt => a
      | Some Gt => b
      | _ => if is_neg_zero a then a else b
      end
  end.

Definition Math_max (a b : number) : number :=
  match a, b with
  | S754_nan, _ | _, S754_nan => S754_nan
  | _, _ =>
      match SFcompare a b with
      | Some Lt => b
      | Some Gt => a
      | _ => if is_neg_zero a then b else a
      end
  end.

End Js.

(* ===================================================================== *)
(** ** src/utils/db.ts *)
(* ===================================================================== *)

Module Db.

Record TranslationRecord := {
  id : Z;
  bookId : jsstring;
  sentenceHash : jsstring;
  originalText : jsstring;
  translatedText : jsstring;
  sourceLanguage : option jsstring;
  targetLanguage : option jsstring;
  createdAt : Z;
  updatedAt : Z
}.

(** The [translations] table: its rows in primary-key order, and the
    auto-increment counter of [++id]. *)
Record Table := {
  rows : list TranslationRecord;
  autoIncrement : Z
}.

Definition empty : Table := {| rows := []; autoIncrement := 1 |}.

(** [generateSentenceHash]: one round of the loop body,
    [hash = ((hash << 5) - hash) + char; hash = hash & hash]. *)
Definition hash_step (hash char : Z) : Z :=
  let hash := (Js.shl hash 5 - hash) + char in
  Js.band hash hash.

Definition hash32 (text : jsstring) : Z := foldl hash_step 0 text.

(** [Number.prototype.toString(36)] on a non-negative integer. *)
Definition digit36 (d : Z) : Z := if d <? 10 then 48 + d else 87 + d.

Fixpoint toString36_go (fuel : nat) (n : Z) (acc : jsstring) : jsstring :=
  let acc := digit36 (n mod 36) :: acc in
  match fuel with
  | O => acc
  | S fuel => if n `div` 36 =? 0 then acc else toString36_go fuel (n `div` 36) acc
  end.

Definition toString36 (n : Z) : jsstring :=
  toString36_go (Z.to_nat (Z.log2 n)) n [].

Definition generateSentenceHash (text : jsstring) : jsstring :=
  toString36 (Z.abs (hash32 text)).

(** Whether an IndexedDB request goes through; a failing one makes Dexie
    throw inside the [try] of the function that issued it. *)
Inductive Storage := StorageOk | StorageError.

(** [where(['bookId','sentenceHash']).equals([b, h]).first()]: the row of
    lowest primary key under the compound index. *)
Definition first_by_compound (t : Table) (b h : jsstring)
    : option TranslationRecord :=
  head (filter (λ r, bookId r = b ∧ sentenceHash r = h) (rows t)).

Definition getTranslation (io : Storage) (t : Table)
    (bookId sentenceText : jsstring) : option TranslationRecord :=
  match io with
  | StorageError => None
  | StorageOk => first_by_compound t bookId (generateSentenceHash sentenceText)
  end.

(** [db.translations.update(key, changes)] of [saveTranslation]. *)
Definition update_row (key : Z) (translated : jsstring)
    (src tgt : option jsstring) (now : Z) (r : TranslationRecord)
    : TranslationRecord :=
  if decide (id r = key) then
    {| id := id r; bookId := bookId r; sentenceHash := sentenceHash r;
       originalText := originalText r; translatedText := translated;
       sourceLanguage := src; targetLanguage := tgt;
       createdAt := createdAt r; updatedAt := now |}
  else r.

(** [saveTranslation]: the table afterwards and the returned id. *)
Definition saveTranslation (io : Storage) (now : Z) (t : Table)
    (bookId originalText translatedText : jsstring)
    (sourceLanguage targetLanguage : option jsstring) : Table * option Z :=
  match io with
  | StorageError => (t, None)
  | StorageOk =>
      let sentenceHash := generateSentenceHash originalText in
      match first_by_compound t bookId sentenceHash with
      | Some existing =>
          ({| rows := update_row (id existing) translatedText
                        sourceLanguage targetLanguage now <$> rows t;
              autoIncrement := autoIncrement t |},
           Some (id existing))
      | None =>
          let key := autoIncrement t in
          ({| rows := rows t ++
                [ {| id := key; bookId := bookId; sentenceHash := sentenceHash;
                     originalText := originalText;
                     translatedText := translatedText;
                     sourceLanguage := sourceLanguage;
                     targetLanguage := targetLanguage;
                     createdAt := now; updatedAt := now |} ];
              autoIncrement := key + 1 |},
           Some key)
      end
  end.

(** The rows [getBatchTranslations] collects:
    [where('bookId').equals(bookId).and(r => hashes.includes(r.sentenceHash))]. *)
Definition batch_records (t : Table) (b : jsstring) (sentences : list jsstring)
    : list TranslationRecord :=
  let hashes := generateSentenceHash <$> sentences in
  filter (λ r, bookId r = b ∧ sentenceHash r ∈ hashes) (rows t).

(** [translationMap.set(record.originalText, record.translatedText)] over
    the collected rows, in order. *)
Definition to_translation_map (records : list TranslationRecord)
    : gmap jsstring jsstring :=
  foldl (λ m r, <[originalText r := translatedText r]> m) ∅ records.

Definition getBatchTranslations (io : Storage) (t : Table)
    (bookId : jsstring) (sentences : list jsstring) : gmap jsstring jsstring :=
  match io with
  | StorageError => ∅
  | StorageOk => to_translation_map (batch_records t bookId sentences)
  end.

Definition deleteBookTranslations (io : Storage) (t : Table) (b : jsstring)
    : Table :=
  match io with
  | StorageError => t
  | StorageOk =>
      {| rows := filter (λ r, bookId r ≠ b) (rows t);
         autoIncrement := autoIncrement t |}
  end.

Definition clearAllTranslations (io : Storage) (t : Table) : Table :=
  match io with
  | StorageError => t
  | StorageOk => {| rows := []; autoIncrement := autoIncrement t |}
  end.

(** [getTranslationStats]: [(totalTranslations, totalBooks)]. *)
Definition getTranslationStats (io : Storage) (t : Table) : Z * Z :=
  match io with
  | StorageError => (0, 0)
  | StorageOk =>
      (Z.of_nat (length (rows t)),
       Z.of_nat (length (remove_dups (bookId <$> rows t))))
  end.

End Db.

(* ===================================================================== *)
(** ** src/services/TranslationTaskService.ts *)
(* ===================================================================== *)

Module Service.
Import Js.

Record Sentence := {
  text : jsstring;
  chapterIndex : Z;
  sentenceIndex : Z
}.

Inductive Status := running | paused | completed | error.

#[export] Instance Status_eq_dec : EqDecision Status.
Proof. solve_decision. Defined.

(** [interface TranslationTask]; [error_message] is its field [error]. *)
Record TranslationTask := {
  bookId : jsstring;
  bookTitle : jsstring;
  sentences : list Sentence;
  batchSize : Z;
  totalSentences : Z;
  completedSentences : Z;
  progress : number;
  status : Status;
  startTime : Z;
  endTime : option Z;
  error_message : option jsstring
}.

Definition set_sentences (v : list Sentence) (t : TranslationTask) :=
  {| bookId := bookId t; bookTitle := bookTitle t; sentences := v;
     batchSize := batchSize t; totalSentences := totalSentences t;
     completedSentences := completedSentences t; progress := progress t;
     status := status t; startTime := startTime t; endTime := endTime t;
     error_message := error_message t |}.

Definition set_completedSentences (v : Z) (t : TranslationTask) :=
  {| bookId := bookId t; bookTitle := bookTitle t; sentences := sentences t;
     batchSize := batchSize t; totalSentences := totalSentences t;
     completedSentences := v; progress := progress t;
     status := status t; startTime := startTime t; endTime := endTime t;
     error_message := error_message t |}.

Definition set_progress (v : number) (t : TranslationTask) :=
  {| bookId := bookId t; bookTitle := bookTitle t; sentences := sentences t;
     batchSize := batchSize t; totalSentences := totalSentences t;
     completedSentences := completedSentences t; progress := v;
     status := status t; startTime := startTime t; endTime := endTime t;
     error_message := error_message t |}.

Definition set_status (v : Status) (t : TranslationTask) :=
  {| bookId := bookId t; bookTitle := bookTitle t; sentences := sentences t;
     batchSize := batchSize t; totalSentences := totalSentences t;
     completedSentences := completedSentences t; progress := progress t;
     status := v; startTime := startTime t; endTime := endTime t;
     error_message := error_message t |}.

Definition set_endTime (v : option Z) (t : TranslationTask) :=
  {| bookId := bookId t; bookTitle := bookTitle t; sentences := sentences t;
     batchSize := batchSize t; totalSentences := totalSentences t;
     completedSentences := completedSentences t; progress := progress t;
     status := status t; startTime := startTime t; endTime := v;
     error_message := error_message t |}.

Definition set_error (v : option jsstring) (t : TranslationTask) :=
  {| bookId := bookId t; bookTitle := bookTitle t; sentences := sentences t;
     batchSize := batchSize t; totalSentences := totalSentences t;
     completedSentences := completedSentences t; progress := progress t;
     status := status t; startTime := startTime t; endTime := endTime t;
     error_message := v |}.

(** The pop-ups of antd's [message], by call site. *)
Inductive Toast :=
| error_no_model
| success_all_cached
| info_started (need cached : Z)
| success_completed
| error_failed (msg : jsstring)
| info_paused
| info_resumed
| info_stopped.

(** The calls of [client.completions]: the batch prompt, whose user message
    numbers the texts of the window, or the prompt for one sentence. *)
Inductive Request :=
| ReqBatch (batch : list Sentence)
| ReqSingle (sentence : Sentence).

(** What the asynchronous code shares: the fields of the service
    ([currentTask]; [abortController], null or the [aborted] flag of the
    controller's signal), what [notify] has handed to the listeners (the
    task as it was at that moment), and the world around it: pop-ups, the
    calls made to the translator, the table, whether
    [useLLMStore.getState().chatModel] is set, and [Date.now()]. *)
Record State := {
  currentTask : option TranslationTask;
  abortController : option bool;
  notified : list (option TranslationTask);
  toasts : list Toast;
  requests : list Request;
  table : Db.Table;
  chatModel : bool;
  now : Z
}.

Definition set_currentTask (v : option TranslationTask) (s : State) :=
  {| currentTask := v; abortController := abortController s;
     notified := notified s; toasts := toasts s; requests := requests s;
     table := table s; chatModel := chatModel s; now := now s |}.

Definition set_abortController (v : option bool) (s : State) :=
  {| currentTask := currentTask s; abortController := v;
     notified := notified s; toasts := toasts s; requests := requests s;
     table := table s; chatModel := chatModel s; now := now s |}.

Definition set_notified (v : list (option TranslationTask)) (s : State) :=
  {| currentTask := currentTask s; abortController := abortController s;
     notified := v; toasts := toasts s; requests := requests s;
     table := table s; chatModel := chatModel s; now := now s |}.

Definition set_toasts (v : list Toast) (s : State) :=
  {| currentTask := currentTask s; abortController := abortController s;
     notified := notified s; toasts := v; requests := requests s;
     table := table s; chatModel := chatModel s; now := now s |}.

Definition set_requests (v : list Request) (s : State) :=
  {| currentTask := currentTask s; abortController := abortController s;
     notified := notified s; toasts := toasts s; requests := v;
     table := table s; chatModel := chatModel s; now := now s |}.

Definition set_table (v : Db.Table) (s : State) :=
  {| currentTask := currentTask s; abortController := abortController s;
     notified := notified s; toasts := toasts s; requests := requests s;
     table := v; chatModel := chatModel s; now := now s |}.

Definition set_chatModel (v : bool) (s : State) :=
  {| currentTask := currentTask s; abortController := abortController s;
     notified := notified s; toasts := toasts s; requests := requests s;
     table := table s; chatModel := v; now := now s |}.

Definition set_now (v : Z) (s : State) :=
  {| currentTask := currentTask s; abortController := abortController s;
     notified := notified s; toasts := toasts s; requests := requests s;
     table := table s; chatModel := chatModel s; now := v |}.

Definition toast (m : Toast) (s : State) : State :=
  set_toasts (toasts s ++ [m]) s.

Definition call_completions (r : Request) (s : State) : State :=
  set_requests (requests s ++ [r]) s.

(** [notify]: every listener receives [this.currentTask]. *)
Definition notify (s : State) : State :=
  set_notified (notified s ++ [currentTask s]) s.

Definition getCurrentTask (s : State) : option TranslationTask :=
  currentTask s.

(** [subscribe]: the new listener is called once with the current task. *)
Definition subscribe (s : State) : option TranslationTask := currentTask s.

(** The percentage written at [start] and after each window:
    [Math.min(100, Math.round((completed / total) * 100))]. *)
Definition progress_expr (completed total : Z) : number :=
  Math_min (of_Z 100) (Math_round (fmul (fdiv (of_Z completed) (of_Z total)) (of_Z 100))).

(** *** translateBatch: reading the reply *)

Definition is_digit (c : Z) : bool := (48 <=? c) && (c <=? 57).

(** The line terminators, which [.] does not match. *)
Definition is_line_terminator (c : Z) : bool :=
  bool_decide (c ∈ [10; 13; 8232; 8233]).

(** What [\s] matches and [trim] removes. *)
Definition is_space (c : Z) : bool :=
  bool_decide (c ∈ [9; 10; 11; 12; 13; 32; 160; 5760; 8232; 8233; 8239;
                    8287; 12288; 65279])
  || ((8192 <=? c) && (c <=? 8202)).

Fixpoint take_while {A} (p : A → bool) (l : list A) : list A :=
  match l with
  | x :: l' => if p x then x :: take_while p l' else []
  | [] => []
  end.

Fixpoint drop_while {A} (p : A → bool) (l : list A) : list A :=
  match l with
  | x :: l' => if p x then drop_while p l' else l
  | [] => []
  end.

Definition trim (s : jsstring) : jsstring :=
  reverse (drop_while is_space (reverse (drop_while is_space s))).

(** [response.split('\n')]. *)
Fixpoint split_lines (s : jsstring) : list jsstring :=
  match s with
  | [] => [[]]
  | c :: s' =>
      if c =? 10 then [] :: split_lines s'
      else match split_lines s' with
           | line :: lines => (c :: line) :: lines
           | [] => [[c]]
           end
  end.

(** [parseInt] of a run of decimal digits. *)
Definition parseInt (digits : jsstring) : Z :=
  foldl (λ acc d, 10 * acc + (d - 48)) 0 digits.

(** [line.match(/^\[(\d+)\]\s*(.+)/)]: the two groups.  After the
    bracketed digits, [\s*] takes the whole run of white space; [(.+)] is
    then the text up to the next line terminator.  When nothing follows the
    white space the matcher backtracks, and the second group is the last
    character of the run that is not a line terminator, if there is
    one. *)
Definition match_line (line : jsstring) : option (jsstring * jsstring) :=
  match line with
  | 91 :: after =>
      let digits := take_while is_digit after in
      match digits, drop_while is_digit after with
      | _ :: _, 93 :: after =>
          let spaces := take_while is_space after in
          match drop_while is_space after with
          | [] =>
              match filter (λ c, is_line_terminator c = false) spaces with
              | [] => None
              | c :: cs => Some (digits, [List.last cs c])
              end
          | tail =>
              Some (digits, take_while (λ c, negb (is_line_terminator c)) tail)
          end
      | _, _ => None
      end
  | _ => None
  end.

(** The [lines.forEach] that fills [translationMap]. *)
Definition read_line (n : nat) (translationMap : gmap Z jsstring)
    (line : jsstring) : gmap Z jsstring :=
  match match_line line with
  | Some (digits, captured) =>
      let index := parseInt digits - 1 in
      let translation := trim captured in
      if (0 <=? index) && (index <? Z.of_nat n)
      then <[index := translation]> translationMap
      else translationMap
  | None => translationMap
  end.

(** The [sentences.forEach] that fills [translations]. *)
Definition collect (translationMap : gmap Z jsstring)
    (translations : gmap jsstring jsstring) (entry : nat * Sentence)
    : gmap jsstring jsstring :=
  match translationMap !! Z.of_nat entry.1 with
  | Some translation =>
      if truthy translation
      then <[text entry.2 := translation]> translations
      else translations
  | None => translations
  end.

(** What [translateBatch] returns for a reply that arrived. *)
Definition translations_of (batch : list Sentence) (response : jsstring)
    : gmap jsstring jsstring :=
  if truthy response then
    let translationMap :=
      foldl (read_line (length batch)) ∅ (split_lines response) in
    foldl (collect translationMap) ∅ (imap pair batch)
  else ∅.

(** *** The asynchronous activations

    [startTranslation] and [executeTranslation] are [async]: each runs
    until its next [await], and goes on when the promise it waits for is
    settled.  An activation is kept as its local variables together with
    the [await] it is suspended at.  Between two such moments the code of
    one activation runs alone; the synchronous methods ([pauseTranslation],
    [stopTranslation], ...) and the other activations run in between. *)

Inductive Reply :=
| Fulfilled (value : jsstring)
| Rejected.

(** Where [executeTranslation] is suspended: in [translateBatch] at
    [client.completions] (line 81); at [saveTranslationToDB] of the batch
    path (line 201), with the sentences still to visit and the write that
    is under way; at the single call of the fallback (line 232); at its
    [saveTranslationToDB] (line 235); at the delay (line 251). *)
Inductive Await :=
| AwaitBatch
| AwaitSave (translations : gmap jsstring jsstring)
    (original translation : jsstring) (rest : list Sentence)
| AwaitSingle (sentence : Sentence) (rest : list Sentence)
| AwaitSingleSave (original translation : jsstring) (rest : list Sentence)
| AwaitDelay.

(** The locals of [executeTranslation]. *)
Record Loop := {
  l_bookId : jsstring;
  l_sentences : list Sentence;
  l_batchSize : Z;
  l_totalSentences : Z;
  l_completed : Z;
  l_translatedInThisSession : Z;
  l_i : Z;
  l_batch : list Sentence;
  l_await : Await
}.

Definition set_await (a : Await) (l : Loop) : Loop :=
  {| l_bookId := l_bookId l; l_sentences := l_sentences l;
     l_batchSize := l_batchSize l; l_totalSentences := l_totalSentences l;
     l_completed := l_completed l;
     l_translatedInThisSession := l_translatedInThisSession l;
     l_i := l_i l; l_batch := l_batch l; l_await := a |}.

(** The arguments of a [startTranslation] suspended at
    [await getBatchTranslations(bookId, texts)]. *)
Record Start := {
  a_bookId : jsstring;
  a_bookTitle : jsstring;
  a_allSentences : list Sentence;
  a_batchSize : Z
}.

Inductive Proc :=
| Starting (a : Start)
| Executing (l : Loop)
| Ended.

(** [this.abortController?.signal.aborted || this.currentTask.status !==
    'running']: true, false, or a TypeError when the flag is not set and
    there is no task to read the status of. *)
Inductive Check := Proceed | Break | Throw.

Definition abort_check (s : State) : Check :=
  match abortController s with
  | Some true => Break
  | _ =>
      match currentTask s with
      | None => Throw
      | Some t => if decide (status t = running) then Proceed else Break
      end
  end.

(** The message of the TypeError an access through a null [currentTask]
    raises; its wording is the engine's. *)
Definition type_error : jsstring := lit "TypeError"%string.

(** The outer [catch] (lines 264-273). *)
Definition outer_catch (msg : jsstring) (s : State) : State :=
  match currentTask s with
  | Some t =>
      notify (toast (error_failed msg)
        (set_currentTask
           (Some (set_error (Some msg)
                    (set_endTime (Some (now s)) (set_status error t)))) s))
  | None => s
  end.

(** After the [for] (lines 254-263). *)
Definition after_loop (totalSentences : Z) (s : State) : State :=
  match currentTask s with
  | None => outer_catch type_error s
  | Some t =>
      if decide (status t = running) then
        notify (toast success_completed
          (set_currentTask
             (Some (set_completedSentences totalSentences
                      (set_progress (of_Z 100)
                         (set_endTime (Some (now s))
                            (set_status completed t))))) s))
      else s
  end.

(** One turn of the [for] with [i] as given, up to the [await] inside
    [translateBatch] (lines 185-195 and 60-81). *)
Definition iteration (i : Z) (l : Loop) (s : State) : State * Proc :=
  let len := Z.of_nat (length (l_sentences l)) in
  if i <? len then
    match abort_check s with
    | Throw => (outer_catch type_error s, Ended)
    | Break => (after_loop (l_totalSentences l) s, Ended)
    | Proceed =>
        let batch := slice (l_sentences l) i (Z.min (i + l_batchSize l) len) in
        (call_completions (ReqBatch batch) s,
         Executing
           {| l_bookId := l_bookId l; l_sentences := l_sentences l;
              l_batchSize := l_batchSize l;
              l_totalSentences := l_totalSentences l;
              l_completed := l_completed l;
              l_translatedInThisSession := l_translatedInThisSession l;
              l_i := i; l_batch := batch; l_await := AwaitBatch |})
    end
  else (after_loop (l_totalSentences l) s, Ended).

(** [translatedInThisSession += batch.length; completed += batch.length]. *)
Definition count_window (l : Loop) : Loop :=
  let n := Z.of_nat (length (l_batch l)) in
  {| l_bookId := l_bookId l; l_sentences := l_sentences l;
     l_batchSize := l_batchSize l; l_totalSentences := l_totalSentences l;
     l_completed := l_completed l + n;
     l_translatedInThisSession := l_translatedInThisSession l + n;
     l_i := l_i l; l_batch := l_batch l; l_await := l_await l |}.

(** The writes to the task and the [notify] that close a window (lines
    207-210 and 244-247), for a task that is there. *)
Definition publish (l : Loop) (t : TranslationTask) (s : State) : State :=
  notify
    (set_currentTask
       (Some (set_progress (progress_expr (l_completed l) (l_totalSentences l))
                (set_completedSentences (l_completed l) t))) s).

(** The end of the fallback (lines 242-247); without a task, line 244
    throws out of the inner [catch]. *)
Definition fallback_done (l : Loop) (s : State) : State * Proc :=
  let l := count_window l in
  match currentTask s with
  | Some t => (publish l t s, Executing (set_await AwaitDelay l))
  | None => (outer_catch type_error s, Ended)
  end.

(** The [for] of the fallback (lines 215-240) from the sentences [rest]
    on, up to its next [await]. *)
Definition fallback (rest : list Sentence) (l : Loop) (s : State)
    : State * Proc :=
  match rest with
  | [] => fallback_done l s
  | sentence :: rest =>
      match abort_check s with
      | Throw => (outer_catch type_error s, Ended)
      | Break => fallback_done l s
      | Proceed =>
          (call_completions (ReqSingle sentence) s,
           Executing (set_await (AwaitSingle sentence rest) l))
      end
  end.

(** The end of the batch path (lines 205-210); without a task, line 207
    throws into the inner [catch], after the two counters were raised. *)
Definition batch_done (l : Loop) (s : State) : State * Proc :=
  let l := count_window l in
  match currentTask s with
  | Some t => (publish l t s, Executing (set_await AwaitDelay l))
  | None => fallback (l_batch l) l s
  end.

(** [translation && translation !== sentence.text]. *)
Definition worth_saving (translation original : jsstring) : bool :=
  truthy translation && bool_decide (translation ≠ original).

(** The [for] that saves the batch (lines 198-203) from the sentences
    [rest] on, up to its next [await]. *)
Fixpoint save_batch (translations : gmap jsstring jsstring)
    (rest : list Sentence) (l : Loop) (s : State) : State * Proc :=
  match rest with
  | [] => batch_done l s
  | sentence :: rest =>
      match translations !! text sentence with
      | Some translation =>
          if worth_saving translation (text sentence) then
            (s, Executing (set_await
                  (AwaitSave translations (text sentence) translation rest) l))
          else save_batch translations rest l s
      | None => save_batch translations rest l s
      end
  end.

(** [saveTranslationToDB(bookId, text, translation)] once it is done. *)
Definition saved (outcome : Reply) (b original translation : jsstring)
    (s : State) : State :=
  let io := match outcome with
            | Fulfilled _ => Db.StorageOk
            | Rejected => Db.StorageError
            end in
  set_table
    (Db.saveTranslation io (now s) (table s) b original translation None None).1
    s.

(** [executeTranslation] goes on after the promise it awaits is settled. *)
Definition resume_loop (l : Loop) (r : Reply) (s : State) : State * Proc :=
  match l_await l with
  | AwaitBatch =>
      match r with
      | Fulfilled response =>
          save_batch (translations_of (l_batch l) response) (l_batch l) l s
      | Rejected => fallback (l_batch l) l s
      end
  | AwaitSave translations original translation rest =>
      save_batch translations rest l (saved r (l_bookId l) original translation s)
  | AwaitSingle sentence rest =>
      match r with
      | Fulfilled translation =>
          if worth_saving translation (text sentence) then
            (s, Executing (set_await
                  (AwaitSingleSave (text sentence) translation rest) l))
          else fallback rest l s
      | Rejected => fallback rest l s
      end
  | AwaitSingleSave original translation rest =>
      fallback rest l (saved r (l_bookId l) original translation s)
  | AwaitDelay => iteration (l_i l + l_batchSize l) l s
  end.

(** [executeTranslation] from its call to its first [await] (lines
    173-185).  [createLLMClient] is taken to hand out a client. *)
Definition executeTranslation (s : State) : State * Proc :=
  match currentTask s with
  | Some t =>
      if decide (status t = running) then
        iteration 0
          {| l_bookId := bookId t; l_sentences := sentences t;
             l_batchSize := batchSize t;
             l_totalSentences := totalSentences t;
             l_completed := completedSentences t;
             l_translatedInThisSession := 0;
             l_i := 0; l_batch := []; l_await := AwaitDelay |} s
      else (s, Ended)
  | None => (s, Ended)
  end.

(** *** The methods of the service *)

(** [this.abortController?.abort()]. *)
Definition abort (s : State) : State :=
  set_abortController ((λ _, true) <$> abortController s) s.

(** [stopTranslation].  The status and end time it writes first go to the
    task object it then lets go of; only listeners that kept the object
    could see them. *)
Definition stopTranslation (s : State) : State :=
  match currentTask s with
  | Some t => toast info_stopped (notify (set_currentTask None (abort s)))
  | None => s
  end.

Definition pauseTranslation (s : State) : State :=
  match currentTask s with
  | Some t =>
      if decide (status t = running) then
        toast info_paused
          (notify (abort (set_currentTask (Some (set_status paused t)) s)))
      else s
  | None => s
  end.

(** [resumeTranslation], with the activation of [executeTranslation] it
    launches, if any. *)
Definition resumeTranslation (s : State) : State * list Proc :=
  match currentTask s with
  | Some t =>
      if decide (status t = paused) then
        let initialCached :=
          totalSentences t - Z.of_nat (length (sentences t)) in
        let translatedFromNeedList := completedSentences t - initialCached in
        let remainingSentences :=
          slice_from (sentences t) translatedFromNeedList in
        let s :=
          toast info_resumed
            (notify
               (set_abortController (Some false)
                  (set_currentTask
                     (Some (set_status running
                              (set_sentences remainingSentences t))) s))) in
        let '(s, p) := executeTranslation s in
        (s, [p])
      else (s, [])
  | None => (s, [])
  end.

Definition clearCompletedTask (s : State) : State :=
  match currentTask s with
  | Some t =>
      if decide (status t = completed)
      then notify (set_currentTask None s)
      else s
  | None => s
  end.

(** [startTranslation] up to [await getBatchTranslations] (lines 122-135).
    The [await] on the result of [stopTranslation], which is not a
    promise, is not kept as a point of suspension. *)
Definition startTranslation (a : Start) (s : State) : State * list Proc :=
  let s :=
    match currentTask s with
    | Some t => if decide (status t = running) then stopTranslation s else s
    | None => s
    end in
  if chatModel s then (s, [Starting a])
  else (toast error_no_model s, []).

(** [startTranslation] from the result of [getBatchTranslations] on (lines
    135-169), with the activation of [executeTranslation] it launches. *)
Definition resume_start (a : Start) (r : Reply) (s : State)
    : State * list Proc :=
  let io := match r with
            | Fulfilled _ => Db.StorageOk
            | Rejected => Db.StorageError
            end in
  let texts := text <$> a_allSentences a in
  let cachedTranslations :=
    Db.getBatchTranslations io (table s) (a_bookId a) texts in
  let needTranslation :=
    filter (λ x, cachedTranslations !! text x = None) (a_allSentences a) in
  match needTranslation with
  | [] => (toast success_all_cached s, [])
  | _ =>
      let total := Z.of_nat (length (a_allSentences a)) in
      let alreadyCached := total - Z.of_nat (length needTranslation) in
      let initialProgress := progress_expr alreadyCached total in
      let task :=
        {| bookId := a_bookId a; bookTitle := a_bookTitle a;
           sentences := needTranslation; batchSize := a_batchSize a;
           totalSentences := total; completedSentences := alreadyCached;
           progress := initialProgress; status := running;
           startTime := now s; endTime := None; error_message := None |} in
      let s :=
        toast (info_started (Z.of_nat (length needTranslation)) alreadyCached)
          (notify
             (set_abortController (Some false)
                (set_currentTask (Some task) s))) in
      let '(s, p) := executeTranslation s in
      (s, [p])
  end.

(** *** The whole: the shared state and the activations *)

Record System := {
  shared : State;
  procs : list Proc
}.

(** What can happen next: a method is called, the promise that the
    activation [pid] awaits is settled, the clock moves, the model setting
    changes. *)
Inductive Event :=
| call_start (a : Start)
| call_pause
| call_resume
| call_stop
| call_clearCompleted
| settle (pid : nat) (r : Reply)
| tick (time : Z)
| configure (model : bool).

Definition step (sys : System) (ev : Event) : System :=
  let s := shared sys in
  match ev with
  | call_start a =>
      let '(s, spawned) := startTranslation a s in
      {| shared := s; procs := procs sys ++ spawned |}
  | call_pause => {| shared := pauseTranslation s; procs := procs sys |}
  | call_resume =>
      let '(s, spawned) := resumeTranslation s in
      {| shared := s; procs := procs sys ++ spawned |}
  | call_stop => {| shared := stopTranslation s; procs := procs sys |}
  | call_clearCompleted =>
      {| shared := clearCompletedTask s; procs := procs sys |}
  | settle pid r =>
      match procs sys !! pid with
      | Some (Executing l) =>
          let '(s, p) := resume_loop l r s in
          {| shared := s; procs := <[pid := p]> (procs sys) |}
      | Some (Starting a) =>
          let '(s, spawned) := resume_start a r s in
          {| shared := s; procs := <[pid := Ended]> (procs sys) ++ spawned |}
      | _ => sys
      end
  | tick time => {| shared := set_now time s; procs := procs sys |}
  | configure model => {| shared := set_chatModel model s; procs := procs sys |}
  end.

Definition run (sys : System) (evs : list Event) : System :=
  foldl step sys evs.

(** The service as the module creates it, over a given table. *)
Definition initial (t : Db.Table) (model : bool) : System :=
  {| shared := {| currentTask := None; abortController := None;
                  notified := []; toasts := []; requests := [];
                  table := t; chatModel := model; now := 0 |};
     procs := [] |}.

End Service.

(* ===================================================================== *)
(** ** The prompt of a batch, and the book translation manager *)
(* ===================================================================== *)

Module Prompt.
Import Js Service.

(** [String(n)] for a non-negative integer: its decimal digits. *)
Fixpoint toString10_go (fuel : nat) (n : Z) (acc : jsstring) : jsstring :=
  let acc := (48 + n mod 10) :: acc in
  match fuel with
  | O => acc
  | S fuel => if n `div` 10 =? 0 then acc else toString10_go fuel (n `div` 10) acc
  end.

Definition toString10 (n : Z) : jsstring :=
  toString10_go (Z.to_nat (Z.log2 n)) n [].

(** The template [`[${i + 1}] ${s.text}`]. *)
Definition numbered (i : nat) (text : jsstring) : jsstring :=
  91 :: toString10 (Z.of_nat i + 1) ++ 93 :: 32 :: text.

(** [Array.prototype.join('\n')]. *)
Fixpoint join_lines (lines : list jsstring) : jsstring :=
  match lines with
  | [] => []
  | [line] => line
  | line :: lines => line ++ 10 :: join_lines lines
  end.

(** The user message of the batch prompt (line 60):
    [sentences.map((s, i) => `[${i + 1}] ${s.text}`).join('\n')]. *)
Definition batchText (sentences : list Sentence) : jsstring :=
  join_lines (imap (λ i s, numbered i (text s)) sentences).

End Prompt.

Module Manager.
Import Js Service Prompt.

(** What [BookTranslationManager] reads of a book and of its reading
    progress: the paragraphs of the chapters, the titles of the table of
    contents (empty for an entry without one), and the sentences of the
    chapters that were processed. *)
Record Chapter := {
  paragraphs : list jsstring
}.

Record Book := {
  chapterList : list Chapter;
  toc : list jsstring
}.

Record ReadingProgress := {
  sentenceChapters : gmap nat (list jsstring)
}.

(** The class [[。！？.!?]] of the regular expression. *)
Definition is_terminator (c : Z) : bool :=
  bool_decide (c ∈ [12290; 65281; 65311; 46; 33; 63]).

(** [paragraph.match(/[^。！？.!?]+[。！？.!?]/g)]: the matches from the left,
    each a longest run of other characters and the terminator after it;
    [run] holds, last first, the characters read since the last match or
    terminator.  A terminator with no such run before it starts no match,
    and neither does a run that reaches the end. *)
Fixpoint match_sentences_go (run : jsstring) (s : jsstring) : list jsstring :=
  match s with
  | [] => []
  | c :: s' =>
      if is_terminator c then
        match run with
        | [] => match_sentences_go [] s'
        | _ => (reverse run ++ [c]) :: match_sentences_go [] s'
        end
      else match_sentences_go (c :: run) s'
  end.

Definition match_sentences (paragraph : jsstring) : list jsstring :=
  match_sentences_go [] paragraph.

(** [paragraph.match(...) || [paragraph]]: without a match, [match] returns
    [null]. *)
Definition sentences_of_paragraph (paragraph : jsstring) : list jsstring :=
  match match_sentences paragraph with
  | [] => [paragraph]
  | matches => matches
  end.

(** [sentence && sentence.trim()]. *)
Definition visible (sentence : jsstring) : bool :=
  truthy sentence && truthy (trim sentence).

(** The [forEach] over the processed sentences of a chapter (lines
    59-67). *)
Definition push_processed (chapter : Z) (allSentences : list Sentence)
    (entry : nat * jsstring) : list Sentence :=
  if visible entry.2 then
    allSentences ++
      [{| text := entry.2; chapterIndex := chapter;
          sentenceIndex := Z.of_nat entry.1 |}]
  else allSentences.

(** The inner [forEach] of a chapter that was not processed (lines 76-84):
    the array and the counter [sentenceIndex]. *)
Definition push_split (chapter : Z) (st : list Sentence * Z)
    (sentence : jsstring) : list Sentence * Z :=
  if visible sentence then
    (st.1 ++ [{| text := trim sentence; chapterIndex := chapter;
                 sentenceIndex := st.2 |}],
     st.2 + 1)
  else st.

Definition push_paragraph (chapter : Z) (st : list Sentence * Z)
    (paragraph : jsstring) : list Sentence * Z :=
  foldl (push_split chapter) st (sentences_of_paragraph paragraph).

(** One turn of the [for] over the chapters (lines 56-87). *)
Definition push_chapter (progress : ReadingProgress)
    (allSentences : list Sentence) (entry : nat * Chapter) : list Sentence :=
  match sentenceChapters progress !! entry.1 with
  | Some sentences =>
      foldl (push_processed (Z.of_nat entry.1)) allSentences (imap pair sentences)
  | None =>
      (foldl (push_paragraph (Z.of_nat entry.1)) (allSentences, 0)
         (paragraphs entry.2)).1
  end.

(** [getAllSentences], for the book and the progress the data base
    returned; without a book it throws. *)
Definition getAllSentences (book : option Book) (progress : ReadingProgress)
    : option (list Sentence) :=
  match book with
  | None => None
  | Some book =>
      Some (foldl (push_chapter progress) [] (imap pair (chapterList book)))
  end.

(** *** The chapters of the exported book (lines 205-238) *)

(** [String(n)] for an integer. *)
Definition toString (n : Z) : jsstring :=
  if n <? 0 then 45 :: toString10 (- n) else toString10 n.

(** [book.toc[currentChapter]?.title || `第 ${currentChapter + 1} 章`]. *)
Definition chapter_title (book : Book) (currentChapter : Z) : jsstring :=
  let numbered := [31532; 32] ++ toString (currentChapter + 1) ++ [32; 31456] in
  match (if 0 <=? currentChapter then toc book !! Z.to_nat currentChapter
         else None) with
  | Some title => if truthy title then title else numbered
  | None => numbered
  end.

Definition heading (title : jsstring) : jsstring :=
  lit "<h1>"%string ++ title ++ lit "</h1>"%string.

Definition paragraph_of (class text : jsstring) : jsstring :=
  lit "<p class="%string ++ 34 :: class ++ 34 :: lit ">"%string
    ++ text ++ lit "</p>"%string.

(** The paragraphs of one sentence: the original, and the translation if
    the cache holds one that is not empty. *)
Definition block (translations : gmap jsstring jsstring) (sentence : Sentence)
    : jsstring :=
  paragraph_of (lit "original"%string) (text sentence)
  ++ match translations !! text sentence with
     | Some translation =>
         if truthy translation
         then paragraph_of (lit "translation"%string) translation
         else []
     | None => []
     end.

(** The variables of the loop, and the chapters handed to [epub.add]. *)
Record Export := {
  currentChapter : Z;
  chapterContent : jsstring;
  added : list (jsstring * jsstring)
}.

(** [if (currentChapter !== -1 && chapterContent) epub.add(title, content)]. *)
Definition add_chapter (book : Book) (e : Export) : list (jsstring * jsstring) :=
  if negb (currentChapter e =? -1) && truthy (chapterContent e)
  then added e ++ [(chapter_title book (currentChapter e), chapterContent e)]
  else added e.

Definition export_sentence (book : Book) (translations : gmap jsstring jsstring)
    (e : Export) (sentence : Sentence) : Export :=
  let e :=
    if chapterIndex sentence =? currentChapter e then e
    else {| currentChapter := chapterIndex sentence;
            chapterContent :=
              heading (chapter_title book (chapterIndex sentence));
            added := add_chapter book e |} in
  {| currentChapter := currentChapter e;
     chapterContent := chapterContent e ++ block translations sentence;
     added := added e |}.

Definition export_chapters (book : Book) (translations : gmap jsstring jsstring)
    (allSentences : list Sentence) : list (jsstring * jsstring) :=
  add_chapter book
    (foldl (export_sentence book translations)
       {| currentChapter := -1; chapterContent := []; added := [] |}
       allSentences).

End Manager.

(* ===================================================================== *)
(** ** The specification's progress function *)
(* ===================================================================== *)

Module Spec.
Import Js Service.

(** The derivation as the specification words it: the rounded percentage
    clamped to 0..100, and 100 when there are no units. *)
Definition clamp (x lo hi : number) : number := Math_max lo (Math_min hi x).

Definition progress_of_spec (completed total : Z) : number :=
  if total =? 0 then of_Z 100
  else clamp (Math_round (fmul (fdiv (of_Z completed) (of_Z total)) (of_Z 100)))
         (of_Z 0) (of_Z 100).

End Spec.

(* ===================================================================== *)
(** ** Runs of the service: the words the properties are stated in *)
(* ===================================================================== *)

Module Runs.
Import Js Service.

(** The fields of the service proper, apart from the table, the calls made
    to the translator and the clock. *)
Definition control_of (s : State) :=
  (currentTask s, abortController s, notified s, toasts s, chatModel s).

Definition units (l : Loop) : Z := Z.of_nat (length (l_batch l)).

(** The task as a window leaves it. *)
Definition counted (l : Loop) (t : TranslationTask) : TranslationTask :=
  set_progress (progress_expr (l_completed l + units l) (l_totalSentences l))
    (set_completedSentences (l_completed l + units l) t).

(** The activation between two windows, the finished one counted. *)
Definition between_windows (l : Loop) : Proc :=
  Executing (set_await AwaitDelay (count_window l)).

(** The result of closing a window with the task [t] in place. *)
Definition closing (l : Loop) (t : TranslationTask) (s : State) : State :=
  notify (set_currentTask (Some (counted l t)) s).

Definition in_window (p : Proc) : Prop :=
  match p with
  | Executing l => l_await l ≠ AwaitDelay
  | _ => False
  end.

(** What may happen while a window is under way: the awaited promise is
    settled, time passes; and, when [pausing] holds, [pauseTranslation] is
    called. *)
Inductive window_event (pausing : Prop) (pid : nat) : Event → Prop :=
| window_settle (r : Reply) : window_event pausing pid (settle pid r)
| window_tick (time : Z) : window_event pausing pid (tick time)
| window_pause : pausing → window_event pausing pid call_pause.

(** [window_run pausing pid sys sys']: from [sys], where the activation
    [pid] is inside a window, such events lead to [sys'], the first state in
    which it has reached the delay after the window. *)
Inductive window_run (pausing : Prop) (pid : nat) : System → System → Prop :=
| window_over (sys : System) (l : Loop) :
    procs sys !! pid = Some (Executing l) →
    l_await l = AwaitDelay →
    window_run pausing pid sys sys
| window_goes_on (sys sys' : System) (p : Proc) (ev : Event) :
    procs sys !! pid = Some p →
    in_window p →
    window_event pausing pid ev →
    window_run pausing pid (step sys ev) sys' →
    window_run pausing pid sys sys'.

(** A script of events is checked to be a window run by evaluation. *)
Definition window_event_b (pausing : bool) (pid : nat) (ev : Event) : bool :=
  match ev with
  | settle pid' _ => bool_decide (pid' = pid)
  | tick _ => true
  | call_pause => pausing
  | _ => false
  end.

Definition awaiting (sys : System) (pid : nat) : option Await :=
  match procs sys !! pid with
  | Some (Executing l) => Some (l_await l)
  | _ => None
  end.

Fixpoint is_window_run (pausing : bool) (pid : nat) (sys : System)
    (evs : list Event) : bool :=
  match awaiting sys pid, evs with
  | Some AwaitDelay, [] => true
  | Some AwaitDelay, _ | None, _ | _, [] => false
  | Some _, ev :: evs =>
      window_event_b pausing pid ev && is_window_run pausing pid (step sys ev) evs
  end.

(** A bound on the promises still to be settled before the window of a
    batch of [n] sentences reaches the delay. *)
Definition awaits_left (n : nat) (a : Await) : nat :=
  match a with
  | AwaitBatch => 1 + 2 * n
  | AwaitSave _ _ _ rest => 1 + length rest
  | AwaitSingle _ rest => 2 + 2 * length rest
  | AwaitSingleSave _ _ rest => 1 + 2 * length rest
  | AwaitDelay => 0
  end.




(** Where [resumeTranslation] cuts the list of the task. *)
Definition translatedFromNeedList (t : TranslationTask) : Z :=
  completedSentences t -
  (totalSentences t - Z.of_nat (length (sentences t))).

Definition remainingSentences (t : TranslationTask) : list Sentence :=
  slice_from (sentences t) (translatedFromNeedList t).

(** The task as [resumeTranslation] rewrites it, and the service at the
    moment the listeners are told. *)
Definition resumed_task (t : TranslationTask) : TranslationTask :=
  set_status running (set_sentences (remainingSentences t) t).

Definition resumed (t : TranslationTask) (s : State) : State :=
  toast info_resumed
    (notify (set_abortController (Some false)
               (set_currentTask (Some (resumed_task t)) s))).

(** The activation [executeTranslation] starts for a task, suspended at the
    batch call of its first window. *)
Definition first_window (t : TranslationTask) : Loop :=
  {| l_bookId := bookId t; l_sentences := sentences t;
     l_batchSize := batchSize t; l_totalSentences := totalSentences t;
     l_completed := completedSentences t; l_translatedInThisSession := 0;
     l_i := 0;
     l_batch := slice (sentences t) 0
                  (Z.min (batchSize t) (Z.of_nat (length (sentences t))));
     l_await := AwaitBatch |}.










Definition task_running (s : State) : bool :=
  match currentTask s with
  | Some t => bool_decide (status t = running)
  | None => false
  end.

(** A sentence has a cache entry of the book: a row under the book's id that
    stores the text, under the text's hash. *)
Definition cached_for (t : Db.Table) (book : jsstring) (x : Sentence) : Prop :=
  ∃ r, r ∈ Db.rows t ∧ Db.bookId r = book ∧
       Db.sentenceHash r = Db.generateSentenceHash (text x) ∧
       Db.originalText r = text x.


End Runs.

(* ===================================================================== *)
(** ** The runs used as examples *)
(* ===================================================================== *)

Module CacheScenario.
Import Js Db.

(** Two texts with one hash, and tables that hold a translation of the
    second: for another book, and for the book that is asked. *)
Definition text_Aa : jsstring := lit "Aa"%string.

Definition text_BB : jsstring := lit "BB"%string.

Definition row_BB (book : jsstring) : TranslationRecord :=
  {| id := 1; bookId := book; sentenceHash := generateSentenceHash text_BB;
     originalText := text_BB; translatedText := lit "bb"%string;
     sourceLanguage := None; targetLanguage := None;
     createdAt := 0; updatedAt := 0 |}.

Definition table_BB (book : jsstring) : Table :=
  {| rows := [row_BB book]; autoIncrement := 2 |}.

End CacheScenario.

Module Scenario.
Import Js Service Runs.

Definition unit_of (s : String.string) (k : Z) : Sentence :=
  {| text := lit s; chapterIndex := 0; sentenceIndex := k |}.

(** The four units of the specification's scenario A, started with windows
    of two on an empty cache. *)
Definition four_units : list Sentence :=
  [unit_of "A." 0; unit_of "B." 1; unit_of "C." 2; unit_of "D." 3].

Definition start_four : Start :=
  {| a_bookId := lit "book"%string; a_bookTitle := lit "Book"%string;
     a_allSentences := four_units; a_batchSize := 2 |}.

(** The service after [startTranslation] went through: the task is running
    and activation 1 waits for the translator's answer on the first
    window. *)
Definition first_window_in_flight : System :=
  run (initial Db.empty true)
    [tick 5; call_start start_four; settle 0 (Fulfilled [])].

(** A table that already holds translations of "A." and "B." for the book. *)
Definition two_cached : Db.Table :=
  (Db.saveTranslation Db.StorageOk 1
     (Db.saveTranslation Db.StorageOk 1 Db.empty
        (lit "book"%string) (lit "A."%string) (lit "a"%string) None None).1
     (lit "book"%string) (lit "B."%string) (lit "b"%string) None None).1.

Definition start_two : Start :=
  {| a_bookId := lit "book"%string; a_bookTitle := lit "Book"%string;
     a_allSentences := [unit_of "A." 0; unit_of "B." 1]; a_batchSize := 2 |}.

(** A book of three sentences, started with one window of three. *)
Definition start_three : Start :=
  {| a_bookId := lit "book"%string; a_bookTitle := lit "Book"%string;
     a_allSentences := [unit_of "A." 0; unit_of "B." 1; unit_of "C." 2];
     a_batchSize := 3 |}.

Definition three_in_flight : System :=
  run (initial Db.empty true) [call_start start_three; settle 0 (Fulfilled [])].


(** The same, the task being paused while the call for "A." is under way. *)
Definition paused_fallback : list Event :=
  [settle 1 Rejected; call_pause;
   settle 1 (Fulfilled (lit "a"%string)); settle 1 (Fulfilled [])].







(** A second book of one sentence. *)
Definition start_other : Start :=
  {| a_bookId := lit "other"%string; a_bookTitle := lit "Other"%string;
     a_allSentences := [unit_of "X." 0]; a_batchSize := 1 |}.

(** While the translator's answer for the first window of scenario A is
    awaited, [startTranslation] is called for the second book and goes
    through; then the answer for the first window arrives. *)
Definition overtaken : list Event :=
  [call_start start_other; settle 2 (Fulfilled []); settle 1 (Fulfilled [])].

End Scenario.

(* ===================================================================== *)
(** ** Words for the further properties *)
(* ===================================================================== *)

Module HashWords.
Import Js Db.

(** The polynomial in 31 over the code units of a text, the first unit
    weighing most. *)
Definition poly31 (text : jsstring) : Z := foldl (λ h c, 31 * h + c) 0 text.

(** The characters [toString(36)] writes: a digit or a small letter. *)
Definition is_base36 (c : Z) : Prop := 48 ≤ c ≤ 57 ∨ 97 ≤ c ≤ 122.

(** The number a string of such characters stands for. *)
Definition value36 (s : jsstring) : Z :=
  foldl (λ acc c, 36 * acc + (if c <? 58 then c - 48 else c - 87)) 0 s.

End HashWords.

Module TableWords.
Import Js Db.

(** The pair the compound index [[bookId+sentenceHash]] is built on. *)
Definition key_of (r : TranslationRecord) : jsstring * jsstring :=
  (bookId r, sentenceHash r).

(** What the writers of [db.ts] keep of the table: primary keys are
    distinct and below the counter, no two rows share book and hash, and
    every row carries the hash of the text it stores. *)
Record consistent (t : Table) : Prop := {
  ids_unique : NoDup (id <$> rows t);
  ids_issued : ∀ r, r ∈ rows t → id r < autoIncrement t;
  keys_unique : NoDup (key_of <$> rows t);
  hashes_honest :
    ∀ r, r ∈ rows t → sentenceHash r = generateSentenceHash (originalText r)
}.

(** The calls that write to the table, each run to its end before the
    next. *)
Inductive WriteCall :=
| write_save (io : Storage) (now : Z) (bookId originalText translatedText : jsstring)
    (sourceLanguage targetLanguage : option jsstring)
| write_delete (io : Storage) (bookId : jsstring)
| write_clear (io : Storage).

Definition write (t : Table) (w : WriteCall) : Table :=
  match w with
  | write_save io now b original translated src tgt =>
      (saveTranslation io now t b original translated src tgt).1
  | write_delete io b => deleteBookTranslations io t b
  | write_clear io => clearAllTranslations io t
  end.

End TableWords.

Module PromptWords.
Import Js Service Prompt.

(** A reply in the format the prompt asks for: the translations numbered
    from one, a line each. *)
Definition reply_in_format (translations : list jsstring) : jsstring :=
  join_lines (imap numbered translations).

(** A text that stays on one line. *)
Definition one_line (t : jsstring) : Prop :=
  Forall (λ c, is_line_terminator c = false) t.

End PromptWords.

Module Conduct.
Import Js Service Runs.

(** A task, or none, that does not say it failed. *)
Definition not_failed (o : option TranslationTask) : Prop :=
  ∀ t, o = Some t → status t ≠ error ∧ error_message t = None.

(** Nothing the service holds or has shown says that a task failed. *)
Definition never_failed (s : State) : Prop :=
  not_failed (currentTask s)
  ∧ Forall not_failed (notified s)
  ∧ ∀ msg, error_failed msg ∉ toasts s.

(** No task is running: there is none, or it is paused, completed or
    failed. *)
Definition idle (s : State) : Prop :=
  ∀ t, currentTask s = Some t → status t ≠ running.

(** The calls that launch the loop. *)
Definition launches (ev : Event) : Prop :=
  match ev with
  | call_start _ | call_resume => True
  | _ => False
  end.

Definition starting (p : Proc) : Prop :=
  match p with Starting _ => True | _ => False end.

(** What an activation does to an idle service: no call to the translator,
    no running task, and nothing at all when there is no task, but for
    writes to the table. *)
Definition quiet (s : State) (sp : State * Proc) : Prop :=
  requests sp.1 = requests s
  ∧ idle sp.1
  ∧ (currentTask s = None → control_of sp.1 = control_of s)
  ∧ ¬ starting sp.2.

(** An idle service with no start under way. *)
Definition at_rest (sys : System) : Prop :=
  idle (shared sys) ∧ ∀ pid p, procs sys !! pid = Some p → ¬ starting p.

End Conduct.

Module Order.
Import Js Service Runs Conduct.

(** No activation is under way. *)
Definition at_ease (sys : System) : Prop := Forall (λ p, p = Ended) (procs sys).

(** The discipline of the user interface: [startTranslation] and
    [resumeTranslation] are called only when no activation is under way,
    and windows hold at least one sentence. *)
Definition allowed (sys : System) (ev : Event) : Prop :=
  match ev with
  | call_start a => at_ease sys ∧ 1 ≤ a_batchSize a
  | call_resume => at_ease sys
  | _ => True
  end.

Fixpoint orderly (sys : System) (evs : list Event) : Prop :=
  match evs with
  | [] => True
  | ev :: evs => allowed sys ev ∧ orderly (step sys ev) evs
  end.

(** The percentage of a task is the one computed from its counts, or the
    100 written when the task completes. *)
Definition progress_ok (t : TranslationTask) : Prop :=
  progress t = progress_expr (completedSentences t) (totalSentences t)
  ∨ (status t = completed ∧ progress t = of_Z 100
     ∧ completedSentences t = totalSentences t).

(** The counts of a task: the sentences found cached at the start or cut
    off by a resume are counted as completed, and no more than all are. *)
Definition task_ok (t : TranslationTask) : Prop :=
  1 ≤ batchSize t
  ∧ 0 ≤ totalSentences t - Z.of_nat (length (sentences t))
  ∧ totalSentences t - Z.of_nat (length (sentences t)) ≤ completedSentences t
  ∧ completedSentences t ≤ totalSentences t
  ∧ progress_ok t.

Definition snapshot_ok (o : option TranslationTask) : Prop :=
  ∀ t, o = Some t → task_ok t.

(** Where the window of a loop ends in its list. *)
Definition window_end (l : Loop) : Z :=
  Z.min (l_i l + l_batchSize l) (Z.of_nat (length (l_sentences l))).

(** The locals of a loop agree with each other: the window is the slice at
    [i], and the count is the cached sentences plus those before the
    window, or, at the delay, those up to its end. *)
Definition loop_ok (l : Loop) : Prop :=
  1 ≤ l_batchSize l
  ∧ 0 ≤ l_i l < Z.of_nat (length (l_sentences l))
  ∧ Z.of_nat (length (l_sentences l)) ≤ l_totalSentences l
  ∧ l_batch l = slice (l_sentences l) (l_i l) (window_end l)
  ∧ l_completed l =
      l_totalSentences l - Z.of_nat (length (l_sentences l))
      + match l_await l with AwaitDelay => window_end l | _ => l_i l end.

(** The task is the one the loop works on, and its count is the loop's. *)
Definition task_of_loop (l : Loop) (t : TranslationTask) : Prop :=
  sentences t = l_sentences l
  ∧ totalSentences t = l_totalSentences l
  ∧ completedSentences t = l_completed l
  ∧ (status t = running ∨ status t = paused).

(** Every activation but [pid] has ended. *)
Definition alone (pid : nat) (ps : list Proc) : Prop :=
  ∀ pid' p, ps !! pid' = Some p → pid' ≠ pid → p = Ended.

(** The listeners were only handed tasks whose counts are in order, and
    the task in place is such a task. *)
Definition sound (s : State) : Prop :=
  Forall snapshot_ok (notified s) ∧ snapshot_ok (currentTask s).

(** What an orderly run keeps. *)
Definition in_order (sys : System) : Prop :=
  sound (shared sys)
  ∧ ((at_ease sys ∧ idle (shared sys))
     ∨ (∃ pid a, procs sys !! pid = Some (Starting a) ∧ alone pid (procs sys)
                 ∧ 1 ≤ a_batchSize a ∧ idle (shared sys))
     ∨ (∃ pid l, procs sys !! pid = Some (Executing l) ∧ alone pid (procs sys)
                 ∧ loop_ok l
                 ∧ ∀ t, currentTask (shared sys) = Some t → task_of_loop l t)).

(** The promises still to be settled before a loop ends, at most. *)
Definition steps_left (l : Loop) : nat :=
  awaits_left (length (l_batch l)) (l_await l) + 1
  + 4 * (length (l_sentences l) - Z.to_nat (window_end l)).

(** The sentences sent in batch requests, in the order of the requests. *)
Definition asked_in_batches (requests : list Request) : list Sentence :=
  requests ≫= λ q, match q with ReqBatch batch => batch | ReqSingle _ => [] end.

(** What a settled promise makes of a loop whose task [t] is in place. *)
Inductive Outcome (l : Loop) (t : TranslationTask) (s : State)
    : State * Proc → Prop :=
| goes_on (a' : Await) (s' : State) :
    l_await l ≠ AwaitDelay → a' ≠ AwaitDelay →
    (awaits_left (length (l_batch l)) a'
     < awaits_left (length (l_batch l)) (l_await l))%nat →
    control_of s' = control_of s →
    asked_in_batches (requests s') = asked_in_batches (requests s) →
    Outcome l t s (s', Executing (set_await a' l))
| closes (s' : State) :
    l_await l ≠ AwaitDelay →
    control_of s' = control_of s → requests s' = requests s →
    Outcome l t s (closing l t s', between_windows l)
| next_window :
    l_await l = AwaitDelay →
    l_i l + l_batchSize l < Z.of_nat (length (l_sentences l)) →
    abort_check s = Proceed →
    Outcome l t s (iteration (l_i l + l_batchSize l) l s)
| loop_ends :
    l_await l = AwaitDelay →
    (Z.of_nat (length (l_sentences l)) ≤ l_i l + l_batchSize l
     ∨ abort_check s = Break) →
    Outcome l t s (after_loop (l_totalSentences l) s, Ended).

End Order.

Module OrderWords.
Import Js Service Runs.

(** The task [startTranslation] creates for the sentences that need a
    translation, and the service at the moment the loop is launched. *)
Definition created_task (a : Start) (need : list Sentence) (now : Z)
    : TranslationTask :=
  let total := Z.of_nat (length (a_allSentences a)) in
  let alreadyCached := total - Z.of_nat (length need) in
  {| bookId := a_bookId a; bookTitle := a_bookTitle a;
     sentences := need; batchSize := a_batchSize a;
     totalSentences := total; completedSentences := alreadyCached;
     progress := progress_expr alreadyCached total; status := running;
     startTime := now; endTime := None; error_message := None |}.

Definition created (a : Start) (need : list Sentence) (s : State) : State :=
  toast (info_started (Z.of_nat (length need))
           (Z.of_nat (length (a_allSentences a)) - Z.of_nat (length need)))
    (notify (set_abortController (Some false)
               (set_currentTask (Some (created_task a need (now s))) s))).

(** The sentences of a start that have no entry in the cache as the lookup
    finds it. *)
Definition uncached (a : Start) (r : Reply) (s : State) : list Sentence :=
  let io := match r with
            | Fulfilled _ => Db.StorageOk
            | Rejected => Db.StorageError
            end in
  filter (λ x, Db.getBatchTranslations io (table s) (a_bookId a)
                 (text <$> a_allSentences a) !! text x = None)
    (a_allSentences a).

(** From [s] to [s'] the count of a running task does not fall. *)
Definition rises (s s' : State) : Prop :=
  ∀ t t', currentTask s = Some t → status t = running →
          currentTask s' = Some t' →
          completedSentences t ≤ completedSentences t'.

End OrderWords.

Module OrderWords2.
Import Js Service Runs Order.

(** The loop [pid] works on the task in place, which is running and has
    not been cancelled. *)
Definition under_way (sys : System) (pid : nat) (l : Loop)
    (t : TranslationTask) : Prop :=
  procs sys !! pid = Some (Executing l)
  ∧ loop_ok l
  ∧ currentTask (shared sys) = Some t
  ∧ task_of_loop l t
  ∧ status t = running
  ∧ abortController (shared sys) ≠ Some true.

(** The loop [pid] has ended and left the task completed, and every
    sentence of its list from [from] on was sent in one batch request, in
    order. *)
Definition completed_from (sys sys' : System) (pid : nat) (l : Loop) (from : Z)
    : Prop :=
  procs sys' !! pid = Some Ended
  ∧ (∃ t', currentTask (shared sys') = Some t'
           ∧ status t' = completed
           ∧ completedSentences t' = l_totalSentences l
           ∧ progress t' = of_Z 100
           ∧ is_Some (endTime t')
           ∧ last (notified (shared sys')) = Some (Some t')
           ∧ last (toasts (shared sys')) = Some success_completed)
  ∧ asked_in_batches (requests (shared sys'))
    = asked_in_batches (requests (shared sys))
      ++ drop (Z.to_nat from) (l_sentences l).

End OrderWords2.

Module ConductScenario.
Import Js Service Runs Scenario.

(** Scenario A stopped while the translator's answer for the first window
    is awaited; then the answer arrives and both translations are
    written. *)
Definition stopped_in_flight : System := step first_window_in_flight call_stop.

Definition late_answers : list Event :=
  [settle 1 (Fulfilled (lit "[1] a"%string ++ 10 :: lit "[2] b"%string));
   settle 1 (Fulfilled []); settle 1 (Fulfilled [])].

(** Scenario A from the call of [startTranslation] to the end of the first
    window, paused and resumed once the loop has halted. *)
Definition paused_and_resumed : list Event :=
  [tick 5; call_start start_four; settle 0 (Fulfilled []);
   settle 1 Rejected; settle 1 (Fulfilled (lit "a"%string));
   settle 1 (Fulfilled []); settle 1 Rejected;
   call_pause; settle 1 (Fulfilled []); call_resume; settle 2 Rejected].

End ConductScenario.

Module ManagerWords.
Import Js Service Manager.

(** The order of the book: by chapter, then by position in the chapter. *)
Definition before (x y : Sentence) : Prop :=
  chapterIndex x < chapterIndex y
  ∨ (chapterIndex x = chapterIndex y ∧ sentenceIndex x < sentenceIndex y).

(** A sentence that lies before position [k] of chapter [c]. *)
Definition below (c k : Z) (x : Sentence) : Prop :=
  chapterIndex x < c ∨ (chapterIndex x = c ∧ sentenceIndex x < k).

(** The sentences collected so far are not blank, carry indexes that are
    not negative, lie before position [k] of chapter [c], and are in the
    order of the book. *)
Definition collected (c k : Z) (all : list Sentence) : Prop :=
  (∀ x, x ∈ all →
     trim (text x) ≠ [] ∧ 0 ≤ chapterIndex x ∧ 0 ≤ sentenceIndex x ∧ below c k x)
  ∧ ∀ i j x y, all !! i = Some x → all !! j = Some y → (i < j)%nat → before x y.

(** A run of sentences of one chapter, as they follow each other in the
    list handed to the export. *)
Definition chapter_run (run : Z * list Sentence) : Prop :=
  run.1 ≠ -1 ∧ run.2 ≠ [] ∧ Forall (λ x, chapterIndex x = run.1) run.2.

Fixpoint runs_differ (runs : list (Z * list Sentence)) : Prop :=
  match runs with
  | r1 :: (r2 :: _) as rest => r1.1 ≠ r2.1 ∧ runs_differ rest
  | _ => True
  end.

(** The sentences of chapter [n], said in one piece: those of a processed
    chapter are the stored ones that are not blank, each with its position
    in the stored list; those of a chapter that was not processed are the
    pieces of its paragraphs that are not blank, trimmed and numbered from
    zero. *)
Definition stored_sentence (n : nat) (p : nat * jsstring) : Sentence :=
  {| text := p.2; chapterIndex := Z.of_nat n; sentenceIndex := Z.of_nat p.1 |}.

Definition split_sentence (n : nat) (k : nat) (s : jsstring) : Sentence :=
  {| text := trim s; chapterIndex := Z.of_nat n; sentenceIndex := Z.of_nat k |}.

Definition chapter_sentences (progress : ReadingProgress) (n : nat)
    (ch : Chapter) : list Sentence :=
  match sentenceChapters progress !! n with
  | Some sentences =>
      stored_sentence n <$> filter (λ p, visible p.2 = true) (imap pair sentences)
  | None =>
      imap (split_sentence n)
        (filter (λ s, visible s = true) (paragraphs ch ≫= sentences_of_paragraph))
  end.

(** The chapters of a book that have a sentence to show, each with its
    index and its sentences. *)
Definition chapter_runs (progress : ReadingProgress) (chapters : list Chapter)
    : list (Z * list Sentence) :=
  filter (λ r, r.2 ≠ [])
    (imap (λ n ch, (Z.of_nat n, chapter_sentences progress n ch)) chapters).

(** A chapter as the export hands it to [epub.add]. *)
Definition exported_chapter (book : Book) (translations : gmap jsstring jsstring)
    (r : Z * list Sentence) : jsstring * jsstring :=
  (chapter_title book r.1,
   heading (chapter_title book r.1) ++ concat (block translations <$> r.2)).

(** A book of two chapters, the second without a title of its own, and
    three sentences of it, the first of them translated. *)
Definition two_chapters : Book :=
  {| chapterList := [ {| paragraphs := [lit "Hi. Go on!"] |};
                      {| paragraphs := [lit "The end."] |} ];
     toc := [lit "One"; []] |}.

Definition two_chapter_runs : list (Z * list Sentence) :=
  [ (0, [ {| text := lit "Hi."; chapterIndex := 0; sentenceIndex := 0 |};
          {| text := lit "Go on!"; chapterIndex := 0; sentenceIndex := 1 |} ]);
    (1, [ {| text := lit "The end."; chapterIndex := 1; sentenceIndex := 0 |} ]) ].

Definition one_translation : gmap jsstring jsstring :=
  {[ lit "Hi." := lit "Salut." ]}.

End ManagerWords.

(* ===================================================================== *)
(** ** The cache: what a batch lookup can return *)
(* ===================================================================== *)

Module CacheFacts.
Import Js Db.

Lemma to_translation_map_acc (rs : list TranslationRecord)
    (m : gmap jsstring jsstring) (k v : jsstring) :
  foldl (λ m r, <[originalText r := translatedText r]> m) m rs !! k = Some v →
  m !! k = Some v ∨
  ∃ r, r ∈ rs ∧ originalText r = k ∧ translatedText r = v.
Proof.
  revert m. induction rs as [|r rs IH]; intros m H; simpl in H.
  - by left.
  - destruct (IH _ H) as [Hm | (r' & Hin & Hk & Hv)].
    + destruct (decide (originalText r = k)) as [Heq | Hne].
      * subst k. rewrite lookup_insert_eq in Hm. injection Hm as <-.
        right. exists r. split; [apply list_elem_of_here | done].
      * rewrite lookup_insert_ne in Hm by done. by left.
    + right. exists r'. split; [by apply list_elem_of_further | done].
Qed.

Lemma to_translation_map_lookup (rs : list TranslationRecord) (k v : jsstring) :
  to_translation_map rs !! k = Some v →
  ∃ r, r ∈ rs ∧ originalText r = k ∧ translatedText r = v.
Proof.
  intros H. apply to_translation_map_acc in H as [H | H]; [|done].
  by rewrite lookup_empty in H.
Qed.

Lemma to_translation_map_has_acc (rs : list TranslationRecord)
    (m : gmap jsstring jsstring) (k : jsstring) :
  is_Some (foldl (λ m r, <[originalText r := translatedText r]> m) m rs !! k) ↔
  is_Some (m !! k) ∨ ∃ r, r ∈ rs ∧ originalText r = k.
Proof.
  revert m. induction rs as [|r rs IH]; intros m; simpl.
  - split; [by left | intros [H | (r & Hin & _)]; [done | by inversion Hin]].
  - rewrite IH. split.
    + intros [Hm | (r' & Hin & Hk)].
      * destruct (decide (originalText r = k)) as [Heq | Hne].
        -- right. exists r. split; [apply list_elem_of_here | done].
        -- rewrite lookup_insert_ne in Hm by done. by left.
      * right. exists r'. split; [by apply list_elem_of_further | done].
    + intros [Hm | (r' & Hin & Hk)].
      * left. destruct (decide (originalText r = k)) as [Heq | Hne].
        -- subst k. rewrite lookup_insert_eq. by eexists.
        -- by rewrite lookup_insert_ne.
      * apply elem_of_cons in Hin as [-> | Hin].
        -- left. subst k. rewrite lookup_insert_eq. by eexists.
        -- right. by exists r'.
Qed.

(** A text is a key of the map exactly when a collected row stores it. *)
Lemma to_translation_map_has (rs : list TranslationRecord) (k : jsstring) :
  is_Some (to_translation_map rs !! k) ↔ ∃ r, r ∈ rs ∧ originalText r = k.
Proof.
  unfold to_translation_map. rewrite to_translation_map_has_acc.
  split; [intros [H | H]; [|done] | by right].
  rewrite lookup_empty in H. by destruct H.
Qed.

Lemma batch_records_spec (t : Table) (b : jsstring) (texts : list jsstring)
    (r : TranslationRecord) :
  r ∈ batch_records t b texts ↔
  r ∈ rows t ∧ bookId r = b ∧ sentenceHash r ∈ (generateSentenceHash <$> texts).
Proof. unfold batch_records. rewrite list_elem_of_filter. tauto. Qed.

(** The rows collected for a book are found among the rows of that book
    alone. *)
Lemma batch_records_owner_rows (t : Table) (b : jsstring) (texts : list jsstring) :
  batch_records t b texts =
  filter (λ r, sentenceHash r ∈ (generateSentenceHash <$> texts))
    (filter (λ r, bookId r = b) (rows t)).
Proof.
  unfold batch_records. induction (rows t) as [|r rs IH]; [done|].
  rewrite !filter_cons. destruct (decide (bookId r = b)) as [Hb | Hb].
  - rewrite filter_cons.
    destruct (decide (sentenceHash r ∈ generateSentenceHash <$> texts)).
    + rewrite decide_True by done. by rewrite IH.
    + rewrite decide_False by tauto. by rewrite IH.
  - rewrite decide_False by tauto. by rewrite IH.
Qed.

End CacheFacts.

(* ===================================================================== *)
(** ** The progress percentage is never below zero *)
(* ===================================================================== *)

Module ProgressFacts.
Import Js Service Spec Runs.










End ProgressFacts.

(* ===================================================================== *)
(** ** A start with nothing left to translate *)
(* ===================================================================== *)

Module ControlFacts.
Import Js Service Runs.

Lemma cached_for_lookup (t : Db.Table) (book : jsstring) (xs : list Sentence)
    (x : Sentence) :
  x ∈ xs → cached_for t book x →
  is_Some (Db.getBatchTranslations Db.StorageOk t book (text <$> xs) !! text x).
Proof.
  intros Hx (r & Hin & Hb & Hh & Ho). simpl.
  apply CacheFacts.to_translation_map_has. exists r. split; [|done].
  apply CacheFacts.batch_records_spec. split; [done | split; [done|]].
  rewrite Hh. apply list_elem_of_fmap. exists (text x). split; [done|].
  apply list_elem_of_fmap. by exists x.
Qed.

Lemma nothing_to_translate (t : Db.Table) (book : jsstring) (xs : list Sentence) :
  (∀ x, x ∈ xs → cached_for t book x) →
  filter (λ x, Db.getBatchTranslations Db.StorageOk t book (text <$> xs)
                 !! text x = None) xs = [].
Proof.
  intros Hall. apply elem_of_nil_inv. intros x Hx.
  apply list_elem_of_filter in Hx as [Hnone Hx].
  destruct (cached_for_lookup t book xs x Hx (Hall x Hx)) as [v Hv].
  congruence.
Qed.

End ControlFacts.

(* ===================================================================== *)
(** ** The execution loop, one window at a time *)
(* ===================================================================== *)

Module LoopFacts.
Import Js Service Runs.

#[local] Arguments progress_expr : simpl never.
#[local] Arguments Db.saveTranslation : simpl never.
#[local] Arguments translations_of : simpl never.
#[local] Arguments slice : simpl never.

Lemma set_await_twice (a a' : Await) (l : Loop) :
  set_await a' (set_await a l) = set_await a' l.
Proof. reflexivity. Qed.

Lemma between_windows_set_await (a : Await) (l : Loop) :
  between_windows (set_await a l) = between_windows l.
Proof. reflexivity. Qed.

Lemma counted_set_await (a : Await) (l : Loop) (t : TranslationTask) :
  counted (set_await a l) t = counted l t.
Proof. reflexivity. Qed.

Lemma publish_closing (l : Loop) (t : TranslationTask) (s : State) :
  publish (count_window l) t s = closing l t s.
Proof.
  unfold publish, closing, counted, units. simpl. reflexivity.
Qed.

Lemma fallback_done_with_task (l : Loop) (t : TranslationTask) (s : State) :
  currentTask s = Some t →
  fallback_done l s = (closing l t s, between_windows l).
Proof.
  intros Ht. unfold fallback_done. rewrite Ht. by rewrite publish_closing.
Qed.

Lemma batch_done_with_task (l : Loop) (t : TranslationTask) (s : State) :
  currentTask s = Some t →
  batch_done l s = (closing l t s, between_windows l).
Proof.
  intros Ht. unfold batch_done. rewrite Ht. by rewrite publish_closing.
Qed.

Lemma abort_check_with_task (s : State) (t : TranslationTask) :
  currentTask s = Some t →
  abort_check s =
    if bool_decide (abortController s = Some true) then Break
    else if bool_decide (status t = running) then Proceed else Break.
Proof.
  intros Ht. unfold abort_check. rewrite Ht.
  destruct (abortController s) as [[]|]; simpl; try done;
    by destruct (decide (status t = running));
      [rewrite bool_decide_eq_true_2 | rewrite bool_decide_eq_false_2].
Qed.

(** The fallback from [rest] on, with the task in place: it ends the window,
    or asks the translator for the next sentence. *)
Lemma fallback_with_task (rest : list Sentence) (l : Loop)
    (t : TranslationTask) (s : State) :
  currentTask s = Some t →
  fallback rest l s =
    match rest with
    | [] => (closing l t s, between_windows l)
    | sentence :: rest' =>
        match abort_check s with
        | Proceed =>
            (call_completions (ReqSingle sentence) s,
             Executing (set_await (AwaitSingle sentence rest') l))
        | _ => (closing l t s, between_windows l)
        end
    end.
Proof.
  intros Ht. destruct rest as [|x rest]; simpl.
  - by apply fallback_done_with_task.
  - rewrite (abort_check_with_task s t Ht).
    destruct (bool_decide (abortController s = Some true));
      [by apply fallback_done_with_task|].
    destruct (bool_decide (status t = running));
      [done | by apply fallback_done_with_task].
Qed.

(** The saving of the batch from [rest] on, with the task in place: it ends
    the window, or waits for one write. *)
Lemma save_batch_with_task (translations : gmap jsstring jsstring)
    (rest : list Sentence) (l : Loop) (t : TranslationTask) (s : State) :
  currentTask s = Some t →
  save_batch translations rest l s = (closing l t s, between_windows l)
  ∨ ∃ original translation rest',
      save_batch translations rest l s =
        (s, Executing (set_await
              (AwaitSave translations original translation rest') l))
      ∧ (length rest' < length rest)%nat.
Proof.
  intros Ht. induction rest as [|x rest IH]; simpl.
  - left. by apply batch_done_with_task.
  - destruct (translations !! text x) as [tr|].
    + destruct (worth_saving tr (text x)).
      * right. exists (text x), tr, rest. split; [done | lia].
      * destruct IH as [IH | (o & tr' & rest' & IH & Hlen)]; [by left|].
        right. exists o, tr', rest'. split; [done | lia].
    + destruct IH as [IH | (o & tr' & rest' & IH & Hlen)]; [by left|].
      right. exists o, tr', rest'. split; [done | lia].
Qed.

Lemma control_of_saved (r : Reply) (b o tr : jsstring) (s : State) :
  control_of (saved r b o tr s) = control_of s
  ∧ requests (saved r b o tr s) = requests s
  ∧ now (saved r b o tr s) = now s.
Proof. done. Qed.

Lemma control_of_call (q : Request) (s : State) :
  control_of (call_completions q s) = control_of s
  ∧ table (call_completions q s) = table s
  ∧ now (call_completions q s) = now s.
Proof. done. Qed.





Lemma control_of_task (s s' : State) :
  control_of s = control_of s' → currentTask s = currentTask s'.
Proof. by intros [= Ht _ _ _ _]. Qed.



Section Window.

Context (pausing : Prop) (pid : nat) (ps0 : list Proc) (l0 : Loop)
        (s0 : State) (t0 : TranslationTask).

Hypothesis pid_alive : (pid < length ps0)%nat.

Hypothesis task_there : currentTask s0 = Some t0.










End Window.



Lemma is_window_run_sound (P : Prop) (pausing : bool) (pid : nat)
    (sys : System) (evs : list Event) :
  (pausing = true → P) →
  is_window_run pausing pid sys evs = true →
  window_run P pid sys (run sys evs).
Proof.
  intros HP. revert sys. induction evs as [|ev evs IH]; intros sys; simpl;
    unfold awaiting; destruct (procs sys !! pid) as [[a|l|]|] eqn:Hp; try done.
  - destruct (l_await l) eqn:Ha; try done. intros _. by eapply window_over.
  - destruct (l_await l) eqn:Ha; try done;
      intros [Hev Hrest]%andb_prop;
      (eapply window_goes_on;
       [ exact Hp
       | simpl; by rewrite Ha
       | destruct ev; try done; simpl in Hev;
         [ apply HP in Hev; by apply window_pause
         | apply bool_decide_eq_true in Hev as ->; apply window_settle
         | apply window_tick ]
       | by apply IH ]).
Qed.

End LoopFacts.

(* ===================================================================== *)
(** ** Every window ends *)
(* ===================================================================== *)

Module WindowEnds.
Import Js Service Runs LoopFacts.

#[local] Arguments progress_expr : simpl never.
#[local] Arguments Db.saveTranslation : simpl never.
#[local] Arguments translations_of : simpl never.
#[local] Arguments slice : simpl never.








End WindowEnds.

(* ===================================================================== *)
(** ** The fallback: one call per sentence *)
(* ===================================================================== *)

Module FallbackFacts.
Import Js Service Runs LoopFacts.

#[local] Arguments progress_expr : simpl never.
#[local] Arguments Db.saveTranslation : simpl never.
#[local] Arguments translations_of : simpl never.
#[local] Arguments slice : simpl never.

Section Undisturbed.

Context (pid : nat) (ps0 : list Proc) (l0 : Loop) (s0 : State)
        (t0 : TranslationTask).

Hypothesis pid_alive : (pid < length ps0)%nat.

Hypothesis task_there : currentTask s0 = Some t0.

Hypothesis task_running : status t0 = running.

Hypothesis not_aborted : abortController s0 ≠ Some true.









End Undisturbed.

End FallbackFacts.

(* ===================================================================== *)
(** ** A pause in the middle of the fallback *)
(* ===================================================================== *)

Module CancelFacts.
Import Js Service Runs LoopFacts FallbackFacts.

#[local] Arguments progress_expr : simpl never.
#[local] Arguments Db.saveTranslation : simpl never.
#[local] Arguments translations_of : simpl never.

Lemma slice_from_drop {A} (l : list A) (k : Z) :
  0 ≤ k ≤ Z.of_nat (length l) → slice_from l k = drop (Z.to_nat k) l.
Proof.
  intros Hk. unfold slice_from, slice.
  set (len := Z.of_nat (length l)) in *.
  assert (Hstart : rel_index len k = k)
    by (unfold rel_index; destruct (Z.ltb_spec k 0); lia).
  assert (Hstop : rel_index len len = len)
    by (unfold rel_index; destruct (Z.ltb_spec len 0); lia).
  rewrite Hstart, Hstop.
  apply take_ge. rewrite length_drop. lia.
Qed.




Section Cancelled.

Context (pid : nat) (ps0 : list Proc) (l0 : Loop) (s0 : State)
        (t0 : TranslationTask) (x : Sentence) (rest : list Sentence).

Hypothesis pid_alive : (pid < length ps0)%nat.

Hypothesis task_there : currentTask s0 = Some t0.

Hypothesis task_running : status t0 = running.

(** The service once [pauseTranslation] was called. *)
Definition s1 : State := pauseTranslation s0.

Definition t1 : TranslationTask := set_status paused t0.












End Cancelled.

End CancelFacts.

(* ===================================================================== *)
(** ** Resume *)
(* ===================================================================== *)

Module ResumeFacts.
Import Js Service Runs LoopFacts.

#[local] Arguments progress_expr : simpl never.
#[local] Arguments slice : simpl never.
#[local] Arguments slice_from : simpl never.

Lemma executeTranslation_launches (s : State) (t : TranslationTask) :
  currentTask s = Some t → status t = running →
  abortController s = Some false →
  executeTranslation s =
    match sentences t with
    | [] => (after_loop (totalSentences t) s, Ended)
    | _ => (call_completions (ReqBatch (l_batch (first_window t))) s,
            Executing (first_window t))
    end.
Proof.
  intros Ht Hr Hab. unfold executeTranslation. rewrite Ht.
  rewrite decide_True by done. unfold iteration. simpl l_sentences.
  destruct (sentences t) as [|y ys] eqn:Hs; [done|].
  change (0 <? Z.of_nat (length (y :: ys))) with true. cbv iota.
  unfold abort_check. rewrite Hab, Ht. rewrite decide_True by done.
  unfold first_window. simpl. by rewrite Hs.
Qed.

(** [resumeTranslation] on a paused task. *)
Lemma resume_relaunches (s : State) (t : TranslationTask) :
  currentTask s = Some t → status t = paused →
  resumeTranslation s =
    match remainingSentences t with
    | [] => (after_loop (totalSentences t) (resumed t s), [Ended])
    | _ =>
        (call_completions (ReqBatch (l_batch (first_window (resumed_task t))))
           (resumed t s),
         [Executing (first_window (resumed_task t))])
    end.
Proof.
  intros Ht Hp. unfold resumeTranslation. rewrite Ht.
  rewrite decide_True by done.
  change (slice_from (sentences t) _) with (remainingSentences t).
  change (toast info_resumed _) with (resumed t s).
  rewrite (executeTranslation_launches (resumed t s) (resumed_task t));
    [|done..].
  change (sentences (resumed_task t)) with (remainingSentences t).
  change (totalSentences (resumed_task t)) with (totalSentences t).
  by destruct (remainingSentences t).
Qed.

Lemma resume_elsewhere (s : State) :
  (∀ t, currentTask s = Some t → status t ≠ paused) →
  resumeTranslation s = (s, []).
Proof.
  intros Hnp. unfold resumeTranslation.
  destruct (currentTask s) as [t|]; [|done].
  by rewrite decide_False by by apply Hnp.
Qed.


End ResumeFacts.

(* ===================================================================== *)
(** ** What the rest of a job can still touch *)
(* ===================================================================== *)

Module JobFacts.
Import Js Service Runs LoopFacts ResumeFacts.

#[local] Arguments progress_expr : simpl never.
#[local] Arguments Db.saveTranslation : simpl never.
#[local] Arguments translations_of : simpl never.
#[local] Arguments slice : simpl never.
#[local] Arguments slice_from : simpl never.
#[local] Arguments Db.getBatchTranslations : simpl never.























End JobFacts.

(* ===================================================================== *)
(** ** The example runs are runs *)
(* ===================================================================== *)

Module ScenarioFacts.
Import Js Service Runs Scenario LoopFacts ControlFacts.


Lemma paused_fallback_runs :
  window_run True 1 three_in_flight (run three_in_flight paused_fallback).
Proof. apply (is_window_run_sound True true); [done | by vm_compute]. Defined.





Lemma two_cached_covers (x : Sentence) :
  x ∈ a_allSentences start_two →
  cached_for (table (shared (initial two_cached true))) (a_bookId start_two) x.
Proof.
  intros Hx. apply elem_of_cons in Hx as [-> | Hx].
  - let r := eval vm_compute in (Db.rows two_cached !! 0%nat) in
    match r with Some ?r => exists r end.
    split; [|by vm_compute].
    apply list_elem_of_lookup. exists 0%nat. by vm_compute.
  - apply list_elem_of_singleton in Hx as ->.
    let r := eval vm_compute in (Db.rows two_cached !! 1%nat) in
    match r with Some ?r => exists r end.
    split; [|by vm_compute].
    apply list_elem_of_lookup. exists 1%nat. by vm_compute.
Defined.

End ScenarioFacts.

(* ===================================================================== *)
(** ** C1: resume *)
(* ===================================================================== *)

Module ResumeClaims.
Import Js Service Runs Scenario LoopFacts WindowEnds ControlFacts ResumeFacts
  ScenarioFacts.

#[local] Arguments progress_expr : simpl never.
#[local] Arguments slice : simpl never.
#[local] Arguments slice_from : simpl never.



End ResumeClaims.

(* ===================================================================== *)
(** ** C2: every window counts in full *)
(* ===================================================================== *)

Module WindowClaims.
Import Js Service Runs Scenario LoopFacts WindowEnds FallbackFacts ControlFacts
  ScenarioFacts.



End WindowClaims.

(* ===================================================================== *)
(** ** C3, C5, C6: pause, and start without work to launch *)
(* ===================================================================== *)

Module ControlClaims.
Import Js Service Runs Scenario ControlFacts ScenarioFacts.




(** C5, where the code differs.  With a task running and the model setting
    cleared, a call of [startTranslation] discards the running task before
    it gives up. *)
Lemma failed_start_drops_running_task :
  let before := run first_window_in_flight [configure false] in
  let after := step before (call_start start_four) in
  status <$> currentTask (shared before) = Some running
  ∧ currentTask (shared after) = None
  ∧ notified (shared after) = notified (shared before) ++ [None].
Proof. by vm_compute. Qed.

(** C5, as the code has it.  Without a model, [startTranslation] creates no
    task and launches nothing, asks the translator and the table nothing and
    raises the error pop-up.  A task that is running is stopped first: it is
    discarded, the signal is aborted and the listeners receive null.  In
    every other state the task, the controller and what the listeners were
    told stay as they were. *)
Theorem start_without_model :
  ∀ (sys : System) (a : Start),
    chatModel (shared sys) = false →
    let s := shared sys in
    let sys' := step sys (call_start a) in
    let s' := shared sys' in
    procs sys' = procs sys
    ∧ requests s' = requests s ∧ table s' = table s
    ∧ (∃ earlier, toasts s' = earlier ++ [error_no_model])
    ∧ (task_running s = true →
         currentTask s' = None
         ∧ abortController s' = (λ _, true) <$> abortController s
         ∧ notified s' = notified s ++ [None])
    ∧ (task_running s = false →
         currentTask s' = currentTask s
         ∧ abortController s' = abortController s
         ∧ notified s' = notified s).
Proof.
  intros [s ps] a Hm. simpl in *. unfold startTranslation, task_running.
  destruct (currentTask s) as [t|] eqn:Ht.
  - destruct (decide (status t = running)) as [Hr | Hr].
    + rewrite bool_decide_eq_true_2 by done.
      unfold stopTranslation. rewrite Ht. simpl. rewrite Hm. simpl.
      rewrite app_nil_r. repeat split; try done. by eexists.
    + rewrite bool_decide_eq_false_2 by done.
      rewrite Hm. simpl. rewrite app_nil_r, Ht.
      repeat split; try done. by eexists.
  - rewrite Hm. simpl. rewrite app_nil_r, Ht.
    repeat split; try done. by eexists.
Qed.

Lemma start_without_model_scenario :
  let sys := run first_window_in_flight [call_pause; configure false] in
  let sys' := step sys (call_start start_four) in
  chatModel (shared sys) = false
  ∧ task_running (shared sys) = false
  ∧ procs sys' = procs sys
  ∧ currentTask (shared sys') = currentTask (shared sys).
Proof.
  cbv zeta.
  assert (Hm : chatModel (shared
            (run first_window_in_flight [call_pause; configure false])) = false)
    by (vm_compute; reflexivity).
  assert (Hr : task_running (shared
            (run first_window_in_flight [call_pause; configure false])) = false)
    by (vm_compute; reflexivity).
  destruct (start_without_model _ start_four Hm) as (Hp & _ & _ & _ & _ & Hkeep).
  split; [exact Hm | split; [exact Hr | split; [exact Hp | exact (proj1 (Hkeep Hr))]]].
Defined.

(** C6.  With a model set, a start for which every sentence has a cache
    entry of the book creates no task: after the call and the cache lookup,
    the service holds no task if it held none or a running one (which the
    call stops), and otherwise the task it held; the activation of the call
    has ended and none was launched, the success pop-up was raised, nothing
    was asked of the translator, and the listeners were told nothing after
    the call. *)
Theorem start_with_everything_cached :
  ∀ (sys : System) (a : Start) (v : jsstring),
    chatModel (shared sys) = true →
    (∀ x, x ∈ a_allSentences a →
          cached_for (table (shared sys)) (a_bookId a) x) →
    let called := step sys (call_start a) in
    let sys' := step called (settle (length (procs sys)) (Fulfilled v)) in
    procs sys' = procs sys ++ [Ended]
    ∧ currentTask (shared sys') =
        (if task_running (shared sys) then None else currentTask (shared sys))
    ∧ (currentTask (shared sys) = None → currentTask (shared sys') = None)
    ∧ requests (shared sys') = requests (shared sys)
    ∧ toasts (shared sys') = toasts (shared called) ++ [success_all_cached]
    ∧ notified (shared sys') = notified (shared called).
Proof.
  intros [s ps] a v Hm Hall. simpl in *.
  unfold startTranslation.
  set (s1 := match currentTask s with
             | Some t => if decide (status t = running) then stopTranslation s else s
             | None => s
             end).
  assert (Hs1 : chatModel s1 = true ∧ table s1 = table s ∧ requests s1 = requests s
                ∧ currentTask s1 = (if task_running s then None else currentTask s)).
  { subst s1. unfold task_running. destruct (currentTask s) as [t|] eqn:Ht.
    - destruct (decide (status t = running)).
      + rewrite bool_decide_eq_true_2 by done.
        unfold stopTranslation. rewrite Ht. by simpl.
      + rewrite bool_decide_eq_false_2 by done. by rewrite Ht.
    - by rewrite Ht. }
  destruct Hs1 as (Hm1 & Ht1 & Hr1 & Hc1). rewrite Hm1. simpl.
  rewrite lookup_app_r by done. rewrite Nat.sub_diag. simpl.
  unfold resume_start. rewrite Ht1, (nothing_to_translate _ _ _ Hall). simpl.
  rewrite insert_app_r_alt by done. rewrite Nat.sub_diag. simpl.
  rewrite app_nil_r. repeat split; try done.
  intros Hnone. rewrite Hc1. unfold task_running. by rewrite Hnone.
Qed.

Lemma start_with_everything_cached_scenario :
  let sys := initial two_cached true in
  let called := step sys (call_start start_two) in
  let sys' := step called (settle (length (procs sys)) (Fulfilled [])) in
  procs sys' = procs sys ++ [Ended]
  ∧ currentTask (shared sys') = None
  ∧ requests (shared sys') = requests (shared sys).
Proof.
  cbv zeta.
  destruct (start_with_everything_cached
    (initial two_cached true) start_two [] eq_refl two_cached_covers)
    as (Hp & _ & Hc & Hr & _).
  split; [exact Hp | split; [exact (Hc eq_refl) | exact Hr]].
Defined.

End ControlClaims.

(* ===================================================================== *)
(** ** C4: a loop that outlives its task *)
(* ===================================================================== *)

Module RaceClaims.
Import Js Service Runs Scenario.

(** C4, at a run the code does not keep the invariants on.  The call for
    the second book stops the first task and creates the new one, with a
    fresh controller; the activation of the first task, which reads the
    service's current controller and task, finds nothing aborted when its
    answer arrives and writes its own count and percentage into the new
    task.  The listeners are handed a running task of one unit with two
    completed and a percentage of 50, where the formula gives 100; and when
    the window of the new task ends next, the count falls from 2 to 1 while
    the task is running. *)
Theorem outlived_loop_breaks_the_counts :
  let sys := run first_window_in_flight overtaken in
  let sys' := step sys (settle 3 (Fulfilled [])) in
  (∃ t, currentTask (shared sys) = Some t
        ∧ last (notified (shared sys)) = Some (Some t)
        ∧ bookId t = lit "other"%string
        ∧ status t = running
        ∧ totalSentences t = 1
        ∧ completedSentences t = 2
        ∧ progress t = of_Z 50
        ∧ Spec.progress_of_spec 2 1 = of_Z 100)
  ∧ (∃ t', currentTask (shared sys') = Some t'
           ∧ status t' = running
           ∧ completedSentences t' = 1).
Proof.
  cbv zeta. split.
  - let o := eval vm_compute in
      (currentTask (shared (run first_window_in_flight overtaken))) in
    match o with Some ?t => exists t end.
    by vm_compute.
  - let o := eval vm_compute in
      (currentTask (shared (step (run first_window_in_flight overtaken)
                              (settle 3 (Fulfilled []))))) in
    match o with Some ?t => exists t end.
    by vm_compute.
Qed.

End RaceClaims.

(* ===================================================================== *)
(** ** C7: the progress percentage *)
(* ===================================================================== *)

Module ProgressClaims.
Import Js Service Spec Runs ProgressFacts.




End ProgressClaims.

(* ===================================================================== *)
(** ** C8, C9: the batch lookup *)
(* ===================================================================== *)

Module CacheClaims.
Import Js Db CacheScenario CacheFacts.

(** C8. [getBatchTranslations] gives a book nothing of another book: every
    pair of the returned map is the original text and translation of a row
    stored under the asked book id; the map is the same whatever rows the
    table holds for other books; and, with "Aa" and "BB" hashing alike,
    asking for "Aa" in one book returns nothing of the "BB" row of another
    book. *)
Theorem batch_get_stays_with_owner :
  ∀ (io : Storage) (t : Table) (owner : jsstring) (texts : list jsstring),
    (∀ k v, getBatchTranslations io t owner texts !! k = Some v →
       ∃ r, r ∈ rows t ∧ bookId r = owner ∧
            originalText r = k ∧ translatedText r = v)
    ∧ (∀ t', filter (λ r, bookId r = owner) (rows t') =
               filter (λ r, bookId r = owner) (rows t) →
         getBatchTranslations io t' owner texts =
         getBatchTranslations io t owner texts)
    ∧ (generateSentenceHash text_Aa = generateSentenceHash text_BB
       ∧ text_Aa ≠ text_BB
       ∧ getBatchTranslations StorageOk (table_BB (lit "other"%string))
           (lit "mine"%string) [text_Aa] = ∅).
Proof.
  intros io t owner texts. split; [|split].
  - intros k v H. destruct io; simpl in H; [|by rewrite lookup_empty in H].
    apply to_translation_map_lookup in H as (r & Hin & Hk & Hv).
    apply batch_records_spec in Hin as (Hin & Hb & _). by exists r.
  - intros t' Hsame. destruct io; simpl; [|done].
    by rewrite !batch_records_owner_rows, Hsame.
  - split; [by vm_compute | split; [by vm_compute | by vm_compute]].
Qed.

(** C9. The keys of the map [getBatchTranslations] returns are stored
    original texts: each is the [originalText] of a row of the asked book
    whose hash is among the hashes of the asked texts.  So a text that no
    row stores as its original gets no translation, whatever its hash; and
    where a row of the same book stores "BB", asking for "Aa" (same hash)
    returns a map without "Aa" and with "BB", a text that was not asked. *)
Theorem batch_get_keys_are_stored_originals :
  ∀ (io : Storage) (t : Table) (owner : jsstring) (texts : list jsstring),
    (∀ k, is_Some (getBatchTranslations io t owner texts !! k) →
       ∃ r, r ∈ rows t ∧ bookId r = owner ∧
            sentenceHash r ∈ (generateSentenceHash <$> texts) ∧
            originalText r = k)
    ∧ (∀ q, (∀ r, r ∈ rows t → originalText r ≠ q) →
         getBatchTranslations io t owner texts !! q = None)
    ∧ (let book := lit "mine"%string in
       let found := getBatchTranslations StorageOk (table_BB book) book [text_Aa] in
       generateSentenceHash text_Aa = generateSentenceHash text_BB
       ∧ found !! text_Aa = None
       ∧ found !! text_BB = Some (lit "bb"%string)
       ∧ text_BB ∉ [text_Aa]).
Proof.
  intros io t owner texts.
  assert (Hkeys : ∀ k, is_Some (getBatchTranslations io t owner texts !! k) →
       ∃ r, r ∈ rows t ∧ bookId r = owner ∧
            sentenceHash r ∈ (generateSentenceHash <$> texts) ∧
            originalText r = k).
  { intros k H. destruct io; simpl in H.
    - apply to_translation_map_has in H as (r & Hin & Hk).
      apply batch_records_spec in Hin as (Hin & Hb & Hh). by exists r.
    - rewrite lookup_empty in H. by destruct H. }
  split; [done | split].
  - intros q Hq. apply eq_None_not_Some. intros H.
    destruct (Hkeys _ H) as (r & Hin & _ & _ & Hk). by apply (Hq r).
  - cbv zeta. split; [by vm_compute | split; [by vm_compute | split; [by vm_compute|]]].
    intros H. apply list_elem_of_singleton in H. by vm_compute in H.
Qed.

End CacheClaims.

(* ===================================================================== *)
(** ** C10: a pause inside the fallback *)
(* ===================================================================== *)

Module CancelClaims.
Import Js Service Runs Scenario LoopFacts FallbackFacts CancelFacts ResumeFacts JobFacts ScenarioFacts.

#[local] Arguments progress_expr : simpl never.
#[local] Arguments Db.saveTranslation : simpl never.
#[local] Arguments translations_of : simpl never.
#[local] Arguments slice : simpl never.
#[local] Arguments slice_from : simpl never.



End CancelClaims.

(* ===================================================================== *)
(** ** Further facts *)
(* ===================================================================== *)

Module HashFacts.
Import Js Db HashWords.

Lemma toInt32_range (z : Z) : - 2 ^ 31 ≤ toInt32 z < 2 ^ 31.
Proof. unfold toInt32. pose proof (Z.mod_pos_bound (z + 2 ^ 31) (2 ^ 32)). lia. Qed.

Lemma toInt32_congr (a b : Z) :
  a mod 2 ^ 32 = b mod 2 ^ 32 → toInt32 a = toInt32 b.
Proof.
  intros H. unfold toInt32. f_equal.
  rewrite (Z.add_mod a), (Z.add_mod b) by lia. by rewrite H.
Qed.

Lemma toInt32_mod (z : Z) : toInt32 z mod 2 ^ 32 = z mod 2 ^ 32.
Proof.
  unfold toInt32.
  rewrite <- (Z.add_0_r ((z + 2 ^ 31) mod 2 ^ 32 - 2 ^ 31)).
  replace ((z + 2 ^ 31) mod 2 ^ 32 - 2 ^ 31 + 0)
    with ((z + 2 ^ 31) mod 2 ^ 32 + (- 2 ^ 31)) by lia.
  rewrite Z.add_mod_idemp_l by lia. f_equal. lia.
Qed.

Lemma toInt32_small (z : Z) : - 2 ^ 31 ≤ z < 2 ^ 31 → toInt32 z = z.
Proof. intros H. unfold toInt32. rewrite Z.mod_small; lia. Qed.

Lemma toInt32_wraps (z : Z) : ∃ k : Z, toInt32 z = z + k * 2 ^ 32.
Proof.
  exists (- ((z + 2 ^ 31) `div` 2 ^ 32)). unfold toInt32.
  pose proof (Z.div_mod (z + 2 ^ 31) (2 ^ 32) ltac:(lia)). lia.
Qed.

(** One round of the loop multiplies by 31 and adds the code unit, wrapped
    to 32 bits. *)
Lemma hash_step_31 (h c : Z) : hash_step h c = toInt32 (31 * h + c).
Proof.
  unfold hash_step, band, shl. cbv zeta. rewrite Z.land_diag.
  apply toInt32_congr.
  change (5 mod 32) with 5. rewrite Z.shiftl_mul_pow2 by lia.
  destruct (toInt32_wraps h) as [k Hk].
  destruct (toInt32_wraps (toInt32 h * 2 ^ 5)) as [k' Hk'].
  rewrite Hk', Hk.
  replace ((h + k * 2 ^ 32) * 2 ^ 5 + k' * 2 ^ 32 - h + c)
    with (31 * h + c + (32 * k + k') * 2 ^ 32) by lia.
  apply Z_mod_plus_full.
Qed.

Lemma poly_congr (text : jsstring) (a b : Z) :
  a mod 2 ^ 32 = b mod 2 ^ 32 →
  foldl (λ h c, 31 * h + c) a text mod 2 ^ 32
  = foldl (λ h c, 31 * h + c) b text mod 2 ^ 32.
Proof.
  revert a b. induction text as [|c text IH]; intros a b H; [done|].
  simpl. apply IH.
  rewrite (Z.add_mod (31 * a)), (Z.add_mod (31 * b)) by lia.
  rewrite (Z.mul_mod 31 a), (Z.mul_mod 31 b) by lia. by rewrite H.
Qed.

Lemma hash_fold (text : jsstring) (h : Z) :
  foldl hash_step h text mod 2 ^ 32
  = foldl (λ h c, 31 * h + c) h text mod 2 ^ 32.
Proof.
  revert h. induction text as [|c text IH]; intros h; [done|].
  simpl. rewrite IH. apply poly_congr.
  rewrite hash_step_31. apply toInt32_mod.
Qed.

Lemma hash32_range (text : jsstring) : - 2 ^ 31 ≤ hash32 text < 2 ^ 31.
Proof.
  unfold hash32. destruct text as [|c text] using rev_ind; [simpl; lia|].
  rewrite foldl_app. simpl. rewrite hash_step_31. apply toInt32_range.
Qed.

Lemma hash32_poly31 (text : jsstring) : hash32 text = toInt32 (poly31 text).
Proof.
  rewrite <- (toInt32_small (hash32 text)) by apply hash32_range.
  apply toInt32_congr, hash_fold.
Qed.

(** *** [toString(36)] *)

Lemma digit36_base36 (d : Z) : 0 ≤ d < 36 → is_base36 (digit36 d).
Proof.
  intros H. unfold digit36, is_base36.
  destruct (Z.ltb_spec d 10); lia.
Qed.

Lemma toString36_go_app (fuel : nat) (n : Z) (acc : jsstring) :
  toString36_go fuel n acc = toString36_go fuel n [] ++ acc.
Proof.
  revert n acc. induction fuel as [|fuel IH]; intros n acc; simpl; [done|].
  destruct (n `div` 36 =? 0); [done|].
  rewrite (IH _ (_ :: acc)), (IH _ [_]). by rewrite <- app_assoc.
Qed.

Lemma toString36_go_unfold (fuel : nat) (n : Z) :
  toString36_go (S fuel) n [] =
  if n `div` 36 =? 0 then [digit36 (n mod 36)]
  else toString36_go fuel (n `div` 36) [] ++ [digit36 (n mod 36)].
Proof.
  simpl. destruct (n `div` 36 =? 0); [done|]. apply toString36_go_app.
Qed.

Lemma toString36_go_base36 (fuel : nat) (n : Z) :
  Forall is_base36 (toString36_go fuel n []).
Proof.
  revert n. induction fuel as [|fuel IH]; intros n.
  - simpl. apply Forall_singleton, digit36_base36, Z.mod_pos_bound. lia.
  - rewrite toString36_go_unfold.
    assert (is_base36 (digit36 (n mod 36)))
      by (apply digit36_base36, Z.mod_pos_bound; lia).
    destruct (n `div` 36 =? 0); [by apply Forall_singleton|].
    apply Forall_app. split; [apply IH | by apply Forall_singleton].
Qed.

Lemma toString36_go_length (fuel : nat) :
  ∀ (k : nat) (n : Z),
    (1 ≤ k)%nat → 0 ≤ n < 36 ^ Z.of_nat k →
    (1 ≤ length (toString36_go fuel n []) ≤ k)%nat.
Proof.
  induction fuel as [|fuel IH]; intros k n Hk Hn.
  - simpl. lia.
  - rewrite toString36_go_unfold.
    destruct (Z.eqb_spec (n `div` 36) 0) as [H0 | H0]; [simpl; lia|].
    rewrite length_app. simpl.
    assert (36 ≤ n).
    { destruct (Z.lt_ge_cases n 36) as [Hlt | Hge]; [|done].
      rewrite Z.div_small in H0 by lia. done. }
    destruct k as [|[|k]]; [lia | simpl in Hn; lia |].
    destruct (IH (S k) (n `div` 36)) as [_ Hle]; [lia | | lia].
    split; [apply Z.div_pos; lia|].
    apply Z.div_lt_upper_bound; [lia|].
    replace (Z.of_nat (S (S k))) with (Z.of_nat (S k) + 1) in Hn by lia.
    rewrite Z.pow_add_r in Hn by lia. lia.
Qed.

Lemma value36_snoc (s : jsstring) (c : Z) :
  value36 (s ++ [c]) = 36 * value36 s + (if c <? 58 then c - 48 else c - 87).
Proof. unfold value36. by rewrite foldl_app. Qed.

Lemma value36_digit (d : Z) :
  0 ≤ d < 36 →
  (if digit36 d <? 58 then digit36 d - 48 else digit36 d - 87) = d.
Proof.
  intros H. unfold digit36. destruct (Z.ltb_spec d 10).
  - destruct (Z.ltb_spec (48 + d) 58); lia.
  - destruct (Z.ltb_spec (87 + d) 58); lia.
Qed.

(** With the fuel [toString36] gives it, the loop writes every digit. *)
Lemma toString36_go_value (fuel : nat) :
  ∀ n : Z, 0 ≤ n < 2 ^ (Z.of_nat fuel + 1) →
    value36 (toString36_go fuel n []) = n.
Proof.
  induction fuel as [|fuel IH]; intros n Hn.
  - simpl in *. unfold value36. simpl.
    rewrite Z.mod_small by lia. rewrite value36_digit; lia.
  - rewrite toString36_go_unfold.
    pose proof (Z.mod_pos_bound n 36 ltac:(lia)) as Hm.
    pose proof (Z.div_mod n 36 ltac:(lia)) as Hd.
    destruct (Z.eqb_spec (n `div` 36) 0) as [H0 | H0].
    + unfold value36. simpl. rewrite value36_digit by done. lia.
    + rewrite value36_snoc, value36_digit by done.
      rewrite IH; [lia|].
      split; [apply Z.div_pos; lia|].
      apply Z.div_lt_upper_bound; [lia|].
      replace (Z.of_nat (S fuel) + 1) with (Z.of_nat fuel + 1 + 1) in Hn by lia.
      rewrite (Z.pow_add_r _ _ 1) in Hn by lia. lia.
Qed.

Lemma toString36_value (n : Z) : 0 ≤ n → value36 (toString36 n) = n.
Proof.
  intros Hn. unfold toString36. apply toString36_go_value.
  split; [done|].
  destruct (Z.eq_dec n 0) as [-> | Hne]; [simpl; lia|].
  rewrite Z2Nat.id by apply Z.log2_nonneg.
  apply Z.log2_spec. lia.
Qed.

End HashFacts.

Module TableFacts.
Import Js Db TableWords.

#[local] Arguments generateSentenceHash : simpl never.

Lemma filter_fmap_stable {A} (P : A → Prop) `{!∀ x, Decision (P x)}
    (f : A → A) (l : list A) :
  (∀ x, P (f x) ↔ P x) → filter P (f <$> l) = f <$> filter P l.
Proof.
  intros Hf. induction l as [|x l IH]; [done|].
  rewrite fmap_cons, !filter_cons.
  destruct (decide (P x)) as [Hx | Hx].
  - rewrite decide_True by by apply Hf. by rewrite fmap_cons, IH.
  - rewrite decide_False by by rewrite Hf. done.
Qed.

Lemma head_fmap {A B} (f : A → B) (l : list A) : head (f <$> l) = f <$> head l.
Proof. by destruct l. Qed.

Lemma update_row_key (k : Z) tr src tgt now (r : TranslationRecord) :
  key_of (update_row k tr src tgt now r) = key_of r
  ∧ id (update_row k tr src tgt now r) = id r
  ∧ originalText (update_row k tr src tgt now r) = originalText r.
Proof. unfold update_row. by destruct (decide (id r = k)). Qed.


Lemma update_row_hit (k : Z) tr src tgt now (r : TranslationRecord) :
  id r = k →
  translatedText (update_row k tr src tgt now r) = tr
  ∧ sourceLanguage (update_row k tr src tgt now r) = src
  ∧ targetLanguage (update_row k tr src tgt now r) = tgt
  ∧ updatedAt (update_row k tr src tgt now r) = now
  ∧ createdAt (update_row k tr src tgt now r) = createdAt r.
Proof. intros H. unfold update_row. by rewrite decide_True. Qed.

(** The compound lookup in a table whose rows went through an update. *)
Lemma first_by_compound_updated (t : Table) (k : Z) tr src tgt now
    (b h : jsstring) (auto : Z) :
  first_by_compound
    {| rows := update_row k tr src tgt now <$> rows t; autoIncrement := auto |} b h
  = update_row k tr src tgt now <$> first_by_compound t b h.
Proof.
  unfold first_by_compound. simpl. rewrite filter_fmap_stable, head_fmap; [done|].
  intros r. unfold update_row. by destruct (decide (id r = k)).
Qed.

Lemma first_by_compound_Some (t : Table) (b h : jsstring) (r : TranslationRecord) :
  first_by_compound t b h = Some r → r ∈ rows t ∧ bookId r = b ∧ sentenceHash r = h.
Proof.
  unfold first_by_compound. intros H.
  assert (Hin : r ∈ filter (λ r, bookId r = b ∧ sentenceHash r = h) (rows t)).
  { destruct (filter _ _) as [|x l]; [done|]. simpl in H. injection H as ->.
    apply list_elem_of_here. }
  apply list_elem_of_filter in Hin. tauto.
Qed.

Lemma first_by_compound_None (t : Table) (b h : jsstring) :
  first_by_compound t b h = None ↔
  ∀ r, r ∈ rows t → ¬ (bookId r = b ∧ sentenceHash r = h).
Proof.
  unfold first_by_compound. rewrite head_None. split.
  - intros H r Hin Hk. by apply (filter_nil_not_elem_of _ _ r H Hk).
  - intros H. destruct (filter _ _) as [|x l] eqn:Hf; [done|].
    assert (Hx : x ∈ filter (λ r, bookId r = b ∧ sentenceHash r = h) (rows t))
      by (rewrite Hf; apply list_elem_of_here).
    apply list_elem_of_filter in Hx as [Hk Hin]. by destruct (H x Hin).
Qed.


Lemma same_key_same_row (l : list TranslationRecord) (r r' : TranslationRecord) :
  NoDup (key_of <$> l) → r ∈ l → r' ∈ l → key_of r = key_of r' → r = r'.
Proof.
  intros Hnd Hr Hr' Hid.
  apply list_elem_of_lookup in Hr as [i Hi], Hr' as [j Hj].
  assert (i = j).
  { eapply (NoDup_lookup _ _ _ (key_of r) Hnd); rewrite list_lookup_fmap.
    - by rewrite Hi.
    - rewrite Hj. simpl. by rewrite Hid. }
  subst j. rewrite Hi in Hj. by injection Hj.
Qed.

Lemma fmap_update_row {B} (f : TranslationRecord → B) (k : Z) tr src tgt now
    (l : list TranslationRecord) :
  (∀ r, f (update_row k tr src tgt now r) = f r) →
  f <$> (update_row k tr src tgt now <$> l) = f <$> l.
Proof.
  intros Hf. rewrite <- list_fmap_compose. apply list_fmap_ext.
  intros i r _. apply Hf.
Qed.

(** The table after a save that went through, by the row it found. *)
Lemma saveTranslation_found (now : Z) (t : Table) (b text tr : jsstring)
    (src tgt : option jsstring) (e : TranslationRecord) :
  first_by_compound t b (generateSentenceHash text) = Some e →
  saveTranslation StorageOk now t b text tr src tgt =
    ({| rows := update_row (id e) tr src tgt now <$> rows t;
        autoIncrement := autoIncrement t |}, Some (id e)).
Proof. intros H. unfold saveTranslation. by rewrite H. Qed.

Lemma saveTranslation_fresh (now : Z) (t : Table) (b text tr : jsstring)
    (src tgt : option jsstring) :
  first_by_compound t b (generateSentenceHash text) = None →
  saveTranslation StorageOk now t b text tr src tgt =
    ({| rows := rows t ++
          [ {| id := autoIncrement t; bookId := b;
               sentenceHash := generateSentenceHash text;
               originalText := text; translatedText := tr;
               sourceLanguage := src; targetLanguage := tgt;
               createdAt := now; updatedAt := now |} ];
        autoIncrement := autoIncrement t + 1 |}, Some (autoIncrement t)).
Proof. intros H. unfold saveTranslation. by rewrite H. Qed.

Lemma consistent_empty : consistent empty.
Proof.
  split; simpl; [apply NoDup_nil_2 | by intros r H%elem_of_nil
                | apply NoDup_nil_2 | by intros r H%elem_of_nil].
Qed.

Lemma consistent_save (io : Storage) (now : Z) (t : Table) (b text tr : jsstring)
    (src tgt : option jsstring) :
  consistent t → consistent (saveTranslation io now t b text tr src tgt).1.
Proof.
  intros [Hid Hlt Hkey Hh]. destruct io; [|done].
  destruct (first_by_compound t b (generateSentenceHash text)) as [e|] eqn:He.
  - rewrite (saveTranslation_found _ _ _ _ _ _ _ e He). simpl.
    split; simpl.
    + rewrite fmap_update_row; [done | intros r; apply update_row_key].
    + intros r (r0 & -> & Hin)%list_elem_of_fmap.
      destruct (update_row_key (id e) tr src tgt now r0) as (_ & -> & _). auto.
    + rewrite fmap_update_row; [done | intros r; apply update_row_key].
    + intros r (r0 & -> & Hin)%list_elem_of_fmap.
      destruct (update_row_key (id e) tr src tgt now r0) as (Hk & _ & ->).
      injection Hk as _ ->. auto.
  - rewrite (saveTranslation_fresh _ _ _ _ _ _ _ He). simpl.
    rewrite first_by_compound_None in He.
    split; simpl.
    + rewrite fmap_app. apply NoDup_app. split; [done|]. split; [|apply NoDup_singleton].
      intros k (r & -> & Hin)%list_elem_of_fmap Hk. simpl in Hk.
      apply list_elem_of_singleton in Hk. specialize (Hlt r Hin). lia.
    + intros r [Hin | ->%list_elem_of_singleton]%elem_of_app; simpl; [|lia].
      specialize (Hlt r Hin). lia.
    + rewrite fmap_app. apply NoDup_app. split; [done|]. split; [|apply NoDup_singleton].
      intros k (r & -> & Hin)%list_elem_of_fmap Hk. simpl in Hk.
      apply list_elem_of_singleton in Hk. injection Hk as Hb Hs.
      by apply (He r Hin).
    + intros r [Hin | ->%list_elem_of_singleton]%elem_of_app; simpl; auto.
Qed.

Lemma NoDup_fmap_filter {A B} (f : A → B) (P : A → Prop)
    `{!∀ x, Decision (P x)} (l : list A) :
  NoDup (f <$> l) → NoDup (f <$> filter P l).
Proof.
  induction l as [|x l IH]; [done|].
  rewrite fmap_cons, NoDup_cons. intros [Hx Hnd].
  rewrite filter_cons. destruct (decide (P x)); [|by apply IH].
  rewrite fmap_cons, NoDup_cons. split; [|by apply IH].
  intros (y & Hy & Hin)%list_elem_of_fmap. apply Hx.
  apply list_elem_of_fmap. exists y. split; [done|].
  by apply list_elem_of_filter in Hin as [_ Hin].
Qed.

Lemma consistent_delete (io : Storage) (t : Table) (b : jsstring) :
  consistent t → consistent (deleteBookTranslations io t b).
Proof.
  intros [Hid Hlt Hkey Hh]. destruct io; [|done].
  split; simpl.
  - by apply NoDup_fmap_filter.
  - intros r [_ Hin]%list_elem_of_filter. auto.
  - by apply NoDup_fmap_filter.
  - intros r [_ Hin]%list_elem_of_filter. auto.
Qed.

Lemma consistent_clear (io : Storage) (t : Table) :
  consistent t → consistent (clearAllTranslations io t).
Proof.
  intros Hc. destruct io; [|done].
  split; simpl; [apply NoDup_nil_2 | by intros r H%elem_of_nil
                | apply NoDup_nil_2 | by intros r H%elem_of_nil].
Qed.

Lemma consistent_write (t : Table) (w : WriteCall) :
  consistent t → consistent (write t w).
Proof.
  destruct w; simpl;
    [apply consistent_save | apply consistent_delete | apply consistent_clear].
Qed.

Lemma consistent_writes (ws : list WriteCall) (t : Table) :
  consistent t → consistent (foldl write t ws).
Proof.
  revert t. induction ws as [|w ws IH]; intros t Hc; [done|].
  simpl. by apply IH, consistent_write.
Qed.

(** The value a collected list of rows gives a text all of whose rows
    agree. *)
Lemma to_translation_map_agreed (rs : list TranslationRecord) (k v : jsstring) :
  (∃ r, r ∈ rs ∧ originalText r = k) →
  (∀ r, r ∈ rs → originalText r = k → translatedText r = v) →
  to_translation_map rs !! k = Some v.
Proof.
  intros Hex Hall.
  apply CacheFacts.to_translation_map_has in Hex as [v' Hv'].
  rewrite Hv'. f_equal.
  apply CacheFacts.to_translation_map_lookup in Hv' as (r & Hin & Hk & <-).
  by apply Hall.
Qed.

Lemma to_translation_map_miss (rs : list TranslationRecord) (k : jsstring) :
  (∀ r, r ∈ rs → originalText r ≠ k) → to_translation_map rs !! k = None.
Proof.
  intros Hall. apply eq_None_not_Some.
  intros (r & Hin & Hk)%CacheFacts.to_translation_map_has. by apply (Hall r).
Qed.

End TableFacts.

Module TableFacts2.
Import Js Db TableWords TableFacts.

#[local] Arguments generateSentenceHash : simpl never.

(** The rows collected by a batch lookup in a table whose rows went
    through an update. *)
Lemma batch_records_updated (t : Table) (k : Z) tr src tgt now
    (b : jsstring) (texts : list jsstring) (auto : Z) :
  batch_records
    {| rows := update_row k tr src tgt now <$> rows t; autoIncrement := auto |}
    b texts
  = update_row k tr src tgt now <$> batch_records t b texts.
Proof.
  unfold batch_records. simpl. rewrite filter_fmap_stable; [done|].
  intros r. unfold update_row. by destruct (decide (id r = k)).
Qed.

(** What a batch lookup holds after a save, in a consistent table: the
    translation under the text the row stores. *)
Lemma batch_after_save (now : Z) (t : Table) (b text tr : jsstring)
    (src tgt : option jsstring) (texts : list jsstring) :
  consistent t → text ∈ texts →
  let found :=
    getBatchTranslations StorageOk
      (saveTranslation StorageOk now t b text tr src tgt).1 b texts in
  match getTranslation StorageOk t b text with
  | Some e =>
      found !! originalText e = Some tr
      ∧ (originalText e ≠ text → found !! text = None)
  | None => found !! text = Some tr
  end.
Proof.
  intros [Hid Hlt Hkey Hh] Htext. cbv zeta. unfold getTranslation, getBatchTranslations.
  assert (Hhash : generateSentenceHash text ∈ generateSentenceHash <$> texts)
    by (apply list_elem_of_fmap; by exists text).
  destruct (first_by_compound t b (generateSentenceHash text)) as [e|] eqn:He.
  - rewrite (saveTranslation_found _ _ _ _ _ _ _ e He). simpl.
    rewrite batch_records_updated.
    apply first_by_compound_Some in He as (Hin & Hb & Hs).
    assert (Hone : ∀ r, r ∈ batch_records t b texts →
              sentenceHash r = generateSentenceHash text → r = e).
    { intros r (Hr & Hrb & _)%CacheFacts.batch_records_spec Hrs.
      apply (same_key_same_row (rows t)); [done..|].
      unfold key_of. by rewrite Hrb, Hrs, Hb, Hs. }
    split.
    + apply to_translation_map_agreed.
      * exists (update_row (id e) tr src tgt now e). split.
        -- apply list_elem_of_fmap. exists e. split; [done|].
           apply CacheFacts.batch_records_spec. by rewrite Hs.
        -- apply update_row_key.
      * intros r (r0 & -> & Hr0)%list_elem_of_fmap Ho.
        destruct (update_row_key (id e) tr src tgt now r0) as (_ & _ & Ho').
        rewrite Ho' in Ho.
        assert (r0 = e) as ->.
        { apply Hone; [done|].
          apply CacheFacts.batch_records_spec in Hr0 as (Hr0 & _).
          by rewrite (Hh r0 Hr0), Ho, <- (Hh e Hin). }
        by apply update_row_hit.
    + intros Hne. apply to_translation_map_miss.
      intros r (r0 & -> & Hr0)%list_elem_of_fmap Ho.
      destruct (update_row_key (id e) tr src tgt now r0) as (_ & _ & Ho').
      rewrite Ho' in Ho.
      assert (r0 = e) as ->; [|done].
      apply Hone; [done|].
      apply CacheFacts.batch_records_spec in Hr0 as (Hr0 & _).
      by rewrite (Hh r0 Hr0), Ho.
  - rewrite (saveTranslation_fresh _ _ _ _ _ _ _ He). simpl.
    unfold batch_records. simpl. rewrite filter_app, filter_cons_True by done.
    unfold to_translation_map. rewrite foldl_app. simpl.
    by rewrite lookup_insert_eq.
Qed.

Lemma length_remove_dups_snoc `{EqDecision A} (l : list A) (x : A) :
  length (remove_dups (l ++ [x])) =
  (length (remove_dups l) + (if decide (x ∈ l) then 0 else 1))%nat.
Proof.
  destruct (decide (x ∈ l)) as [Hx | Hx].
  - rewrite Nat.add_0_r. apply Permutation_length, NoDup_Permutation;
      [apply NoDup_remove_dups.. |].
    intros y. rewrite !elem_of_remove_dups, elem_of_app, list_elem_of_singleton.
    split; [intros [Hy | ->]; done | by left].
  - transitivity (length (x :: remove_dups l)); [|simpl; lia].
    apply Permutation_length, NoDup_Permutation; [apply NoDup_remove_dups | |].
    + apply NoDup_cons. split; [by rewrite elem_of_remove_dups | apply NoDup_remove_dups].
    + intros y. rewrite elem_of_cons, !elem_of_remove_dups, elem_of_app,
        list_elem_of_singleton. tauto.
Qed.

Lemma length_remove_dups_le `{EqDecision A} (l : list A) :
  (length (remove_dups l) ≤ length l)%nat.
Proof.
  induction l as [|x l IH]; [done|]. simpl.
  destruct (decide_rel elem_of x l); simpl; lia.
Qed.

Lemma remove_dups_empty `{EqDecision A} (l : list A) :
  length (remove_dups l) = 0%nat ↔ length l = 0%nat.
Proof.
  split; intros H.
  - destruct l as [|x l]; [done|].
    assert (Hx : x ∈ remove_dups (x :: l))
      by (rewrite elem_of_remove_dups; apply list_elem_of_here).
    destruct (remove_dups (x :: l)); [by apply elem_of_nil in Hx | done].
  - by destruct l.
Qed.

(** What a save followed by a lookup of the same book and text gives. *)
Lemma save_then_get :
  ∀ (now : Z) (t : Table) (b text tr : jsstring) (src tgt : option jsstring),
    (∃ r,
       getTranslation StorageOk
         (saveTranslation StorageOk now t b text tr src tgt).1 b text = Some r
       ∧ (saveTranslation StorageOk now t b text tr src tgt).2 = Some (id r)
       ∧ bookId r = b
       ∧ sentenceHash r = generateSentenceHash text
       ∧ translatedText r = tr
       ∧ sourceLanguage r = src ∧ targetLanguage r = tgt
       ∧ updatedAt r = now
       ∧ match getTranslation StorageOk t b text with
         | Some e =>
             id r = id e ∧ originalText r = originalText e
             ∧ createdAt r = createdAt e
             ∧ length (rows (saveTranslation StorageOk now t b text tr src tgt).1)
               = length (rows t)
         | None =>
             id r = autoIncrement t ∧ originalText r = text ∧ createdAt r = now
             ∧ rows (saveTranslation StorageOk now t b text tr src tgt).1
               = rows t ++ [r]
         end)
    ∧ saveTranslation StorageError now t b text tr src tgt = (t, None).
Proof.
  intros now t b text tr src tgt. split; [|done].
  unfold getTranslation.
  destruct (first_by_compound t b (generateSentenceHash text)) as [e|] eqn:He.
  - rewrite (saveTranslation_found _ _ _ _ _ _ _ e He). simpl.
    rewrite first_by_compound_updated, He. simpl.
    exists (update_row (id e) tr src tgt now e).
    destruct (update_row_key (id e) tr src tgt now e) as (Hk & Hi & Ho).
    destruct (update_row_hit (id e) tr src tgt now e eq_refl)
      as (Htr & Hsrc & Htgt & Hup & Hcr).
    apply first_by_compound_Some in He as (_ & Hb & Hs).
    injection Hk as Hkb Hks.
    rewrite Hi, Ho, Htr, Hsrc, Htgt, Hup, Hcr, Hkb, Hks, length_fmap. done.
  - rewrite (saveTranslation_fresh _ _ _ _ _ _ _ He). simpl.
    assert (Hnil : filter (λ r, bookId r = b ∧
                     sentenceHash r = generateSentenceHash text) (rows t) = []).
    { rewrite first_by_compound_None in He.
      destruct (filter _ (rows t)) as [|x l] eqn:Hf; [done|].
      assert (Hx : x ∈ filter (λ r, bookId r = b ∧
                       sentenceHash r = generateSentenceHash text) (rows t))
        by (rewrite Hf; apply list_elem_of_here).
      apply list_elem_of_filter in Hx as [Hk Hin]. by destruct (He x Hin). }
    eexists. split; [|repeat split; reflexivity].
    unfold first_by_compound. simpl.
    by rewrite filter_app, filter_cons_True, Hnil by done.
Qed.

End TableFacts2.

Module ParseFacts.
Import Js Service Prompt PromptWords.

(** *** Decimal digits *)

Lemma toString10_go_app (fuel : nat) (n : Z) (acc : jsstring) :
  toString10_go fuel n acc = toString10_go fuel n [] ++ acc.
Proof.
  revert n acc. induction fuel as [|fuel IH]; intros n acc; simpl; [done|].
  destruct (n `div` 10 =? 0); [done|].
  rewrite (IH _ (_ :: acc)), (IH _ [_]). by rewrite <- app_assoc.
Qed.

Lemma toString10_go_unfold (fuel : nat) (n : Z) :
  toString10_go (S fuel) n [] =
  if n `div` 10 =? 0 then [48 + n mod 10]
  else toString10_go fuel (n `div` 10) [] ++ [48 + n mod 10].
Proof.
  simpl. destruct (n `div` 10 =? 0); [done|]. apply toString10_go_app.
Qed.

Lemma is_digit_mod (n : Z) : is_digit (48 + n mod 10) = true.
Proof.
  pose proof (Z.mod_pos_bound n 10 ltac:(lia)). unfold is_digit.
  apply andb_true_iff. split; apply Z.leb_le; lia.
Qed.

Lemma toString10_go_digits (fuel : nat) (n : Z) :
  Forall (λ c, is_digit c = true) (toString10_go fuel n [])
  ∧ toString10_go fuel n [] ≠ [].
Proof.
  revert n. induction fuel as [|fuel IH]; intros n.
  - simpl. split; [apply Forall_singleton, is_digit_mod | done].
  - rewrite toString10_go_unfold. destruct (n `div` 10 =? 0).
    + split; [apply Forall_singleton, is_digit_mod | done].
    + destruct (IH (n `div` 10)) as [Hd Hne]. split.
      * apply Forall_app. split; [done | apply Forall_singleton, is_digit_mod].
      * by destruct (toString10_go fuel (n `div` 10) []).
Qed.

Lemma parseInt_snoc (s : jsstring) (c : Z) :
  parseInt (s ++ [c]) = 10 * parseInt s + (c - 48).
Proof. unfold parseInt. by rewrite foldl_app. Qed.

Lemma toString10_go_value (fuel : nat) :
  ∀ n : Z, 0 ≤ n < 2 ^ (Z.of_nat fuel + 1) →
    parseInt (toString10_go fuel n []) = n.
Proof.
  induction fuel as [|fuel IH]; intros n Hn.
  - simpl in *. unfold parseInt. simpl. rewrite Z.mod_small by lia. lia.
  - rewrite toString10_go_unfold.
    pose proof (Z.mod_pos_bound n 10 ltac:(lia)) as Hm.
    pose proof (Z.div_mod n 10 ltac:(lia)) as Hd.
    destruct (Z.eqb_spec (n `div` 10) 0) as [H0 | H0].
    + unfold parseInt. simpl. lia.
    + rewrite parseInt_snoc, IH; [lia|].
      split; [apply Z.div_pos; lia|].
      apply Z.div_lt_upper_bound; [lia|].
      replace (Z.of_nat (S fuel) + 1) with (Z.of_nat fuel + 1 + 1) in Hn by lia.
      rewrite (Z.pow_add_r _ _ 1) in Hn by lia. lia.
Qed.

Lemma parseInt_toString10 (n : Z) : 0 ≤ n → parseInt (toString10 n) = n.
Proof.
  intros Hn. unfold toString10. apply toString10_go_value.
  split; [done|].
  destruct (Z.eq_dec n 0) as [-> | Hne]; [simpl; lia|].
  rewrite Z2Nat.id by apply Z.log2_nonneg.
  apply Z.log2_spec. lia.
Qed.

(** *** Runs of characters *)

Lemma take_while_app {A} (p : A → bool) (l1 l2 : list A) (x : A) :
  Forall (λ c, p c = true) l1 → p x = false →
  take_while p (l1 ++ x :: l2) = l1 ∧ drop_while p (l1 ++ x :: l2) = x :: l2.
Proof.
  intros H1 Hx. induction H1 as [|c l1 Hc _ [IH1 IH2]]; simpl.
  - by rewrite Hx.
  - by rewrite Hc, IH1, IH2.
Qed.

Lemma take_drop_while {A} (p : A → bool) (l : list A) :
  take_while p l ++ drop_while p l = l.
Proof. induction l as [|x l IH]; [done|]. simpl. destruct (p x); [simpl; by rewrite IH | done]. Qed.

Lemma take_while_all {A} (p : A → bool) (l : list A) :
  Forall (λ c, p c = true) l → take_while p l = l.
Proof. induction 1 as [|c l Hc _ IH]; [done|]. simpl. by rewrite Hc, IH. Qed.

Lemma drop_while_head {A} (p : A → bool) (l : list A) (x : A) :
  head (drop_while p l) = Some x → p x = false.
Proof.
  induction l as [|y l IH]; [done|]. simpl.
  destruct (p y) eqn:Hy; [done|]. simpl. by intros [= <-].
Qed.

Lemma drop_while_idem {A} (p : A → bool) (l : list A) :
  drop_while p (drop_while p l) = drop_while p l.
Proof.
  induction l as [|y l IH]; [done|]. simpl.
  destruct (p y) eqn:Hy; [done|]. simpl. by rewrite Hy.
Qed.

Lemma drop_while_suffix {A} (p : A → bool) (l : list A) :
  ∃ k, l = k ++ drop_while p l.
Proof. exists (take_while p l). by rewrite take_drop_while. Qed.

Lemma drop_while_Forall {A} (p : A → bool) (P : A → Prop) (l : list A) :
  Forall P l → Forall P (drop_while p l).
Proof.
  induction 1 as [|y l Hy Hl IH]; [done|]. simpl.
  destruct (p y); [done | by constructor].
Qed.

Lemma drop_while_nil {A} (p : A → bool) (l : list A) :
  drop_while p l = [] → Forall (λ c, p c = true) l.
Proof.
  induction l as [|y l IH]; [done|]. simpl.
  destruct (p y) eqn:Hy; [|done]. intros H. constructor; auto.
Qed.

Lemma drop_while_all {A} (p : A → bool) (l : list A) :
  Forall (λ c, p c = true) l → drop_while p l = [].
Proof. induction 1 as [|c l Hc _ IH]; [done|]. simpl. by rewrite Hc. Qed.

Lemma last_default {A} (l : list A) (d d' : A) :
  l ≠ [] → List.last l d = List.last l d'.
Proof.
  induction l as [|y l IH]; [done|]. intros _.
  destruct l as [|z l]; [done|].
  change (List.last (z :: l) d = List.last (z :: l) d'). by apply IH.
Qed.

Lemma last_Forall {A} (P : A → Prop) (l : list A) (d : A) :
  Forall P (d :: l) → P (List.last l d).
Proof.
  revert d. induction l as [|y l IH]; intros d H.
  - by apply Forall_inv in H.
  - apply Forall_inv_tail in H.
    replace (List.last (y :: l) d) with (List.last l y); [by apply IH|].
    destruct l as [|z l]; [done|].
    change (List.last (z :: l) y = List.last (z :: l) d). by apply last_default.
Qed.

(** *** [trim] *)

Lemma trim_drop_while (s : jsstring) : trim (drop_while is_space s) = trim s.
Proof. unfold trim. by rewrite drop_while_idem. Qed.

Lemma trim_spaces (s : jsstring) :
  Forall (λ c, is_space c = true) s → trim s = [].
Proof. intros H. unfold trim. by rewrite (drop_while_all _ s H). Qed.

(** What [trim] returns neither begins nor ends with white space. *)
Lemma trim_edges (s : jsstring) (c : Z) :
  head (trim s) = Some c ∨ last (trim s) = Some c → is_space c = false.
Proof.
  unfold trim. set (u := drop_while is_space s).
  set (w := drop_while is_space (reverse u)).
  intros [H | H].
  - rewrite head_reverse in H.
    destruct (drop_while_suffix is_space (reverse u)) as [k Hk]. fold w in Hk.
    destruct w as [|x w'] eqn:Hw using rev_ind; [done|]. clear IHw'.
    rewrite last_snoc in H. injection H as ->.
    assert (Hl : last (reverse u) = Some c)
      by (rewrite Hk, app_assoc; apply last_snoc).
    rewrite last_reverse in Hl. by apply (drop_while_head is_space s).
  - rewrite last_reverse in H. by apply (drop_while_head is_space (reverse u)).
Qed.

Lemma trim_head_kept (s : jsstring) (c : Z) :
  head s = Some c → is_space c = false → trim s ≠ [].
Proof.
  destruct s as [|x s]; [done|]. simpl. intros [= ->] Hc.
  unfold trim. simpl. rewrite Hc. rewrite reverse_cons.
  intros H. apply (f_equal reverse) in H. rewrite reverse_involutive in H. simpl in H.
  apply drop_while_nil in H. apply Forall_app in H as [_ H].
  apply Forall_inv in H. simpl in H. congruence.
Qed.

(** *** Lines *)

Lemma split_lines_line (l : jsstring) :
  10 ∉ l → split_lines l = [l].
Proof.
  induction l as [|c l IH]; [done|]. intros Hc.
  apply not_elem_of_cons in Hc as [Hc Hl]. simpl.
  destruct (Z.eqb_spec c 10); [done|]. by rewrite (IH Hl).
Qed.

Lemma split_lines_app (l rest : jsstring) :
  10 ∉ l → split_lines (l ++ 10 :: rest) = l :: split_lines rest.
Proof.
  induction l as [|c l IH]; [done|]. intros Hc.
  apply not_elem_of_cons in Hc as [Hc Hl]. simpl.
  destruct (Z.eqb_spec c 10); [done|]. by rewrite (IH Hl).
Qed.

Lemma split_join_lines (lines : list jsstring) :
  lines ≠ [] → Forall (λ l, 10 ∉ l) lines →
  split_lines (join_lines lines) = lines.
Proof.
  intros Hne Hall. induction Hall as [|l lines Hl Hall IH]; [done|].
  destruct lines as [|l' lines]; [by apply split_lines_line|].
  change (join_lines (l :: l' :: lines)) with (l ++ 10 :: join_lines (l' :: lines)).
  rewrite split_lines_app by done. by rewrite IH.
Qed.

Lemma one_line_no_newline (t : jsstring) : one_line t → 10 ∉ t.
Proof.
  intros H Hin. unfold one_line in H. rewrite Forall_forall in H.
  by specialize (H 10 Hin).
Qed.

Lemma digit_no_newline (l : jsstring) :
  Forall (λ c, is_digit c = true) l → 10 ∉ l.
Proof.
  intros H Hin. rewrite Forall_forall in H. by specialize (H 10 Hin).
Qed.

Lemma numbered_no_newline (i : nat) (t : jsstring) :
  one_line t → 10 ∉ numbered i t.
Proof.
  intros Ht. unfold numbered.
  rewrite not_elem_of_cons, not_elem_of_app, !not_elem_of_cons.
  split; [done|]. split; [|split; [done|split; [done|]]].
  - apply digit_no_newline, toString10_go_digits.
  - by apply one_line_no_newline.
Qed.

(** *** A numbered line is read back *)

Lemma match_line_numbered (i : nat) (t : jsstring) :
  one_line t →
  ∃ captured,
    match_line (numbered i t) = Some (toString10 (Z.of_nat i + 1), captured)
    ∧ trim captured = trim t.
Proof.
  intros Ht. unfold numbered, match_line.
  destruct (toString10_go_digits (Z.to_nat (Z.log2 (Z.of_nat i + 1))) (Z.of_nat i + 1))
    as [Hd Hne]. fold (toString10 (Z.of_nat i + 1)) in Hd, Hne.
  destruct (take_while_app is_digit (toString10 (Z.of_nat i + 1)) (32 :: t) 93 Hd eq_refl)
    as [-> ->].
  destruct (toString10 (Z.of_nat i + 1)) as [|d ds] eqn:Hds; [done|].
  change (drop_while is_space (32 :: t)) with (drop_while is_space t).
  change (take_while is_space (32 :: t)) with (32 :: take_while is_space t).
  destruct (drop_while is_space t) as [|c rest] eqn:Hrest.
  - assert (Hsp : Forall (λ c, is_space c = true) t) by by apply drop_while_nil.
    rewrite filter_cons_True by done.
    eexists. split; [done|].
    rewrite (trim_spaces t Hsp). apply trim_spaces, Forall_singleton.
    set (cs := filter _ (take_while is_space t)).
    assert (Hcs : Forall (λ c, is_space c = true) (32 :: cs)).
    { constructor; [done|]. unfold cs.
      apply Forall_forall. intros x [_ Hx]%list_elem_of_filter.
      rewrite (take_while_all _ t Hsp) in Hx.
      rewrite Forall_forall in Hsp. by apply Hsp. }
    clearbody cs. by apply (last_Forall (λ c, is_space c = true)).
  - eexists. split; [done|].
    rewrite take_while_all.
    + by rewrite <- Hrest, trim_drop_while.
    + rewrite <- Hrest. apply drop_while_Forall.
      unfold one_line in Ht. eapply Forall_impl; [exact Ht|].
      intros x Hx. simpl. by rewrite Hx.
Qed.

Lemma read_line_numbered (n i : nat) (t : jsstring) (tm : gmap Z jsstring) :
  one_line t → (i < n)%nat →
  read_line n tm (numbered i t) = <[Z.of_nat i := trim t]> tm.
Proof.
  intros Ht Hi. unfold read_line.
  destruct (match_line_numbered i t Ht) as (cap & -> & ->).
  rewrite parseInt_toString10 by lia.
  replace (Z.of_nat i + 1 - 1) with (Z.of_nat i) by lia.
  destruct (Z.leb_spec 0 (Z.of_nat i)); [|lia].
  destruct (Z.ltb_spec (Z.of_nat i) (Z.of_nat n)); [done | lia].
Qed.

Lemma imap_numbered_shift (k : nat) (ts : list jsstring) :
  imap (λ j, numbered (k + j)) ts =
  match ts with
  | [] => []
  | t :: ts => numbered k t :: imap (λ j, numbered (S k + j)) ts
  end.
Proof.
  destruct ts as [|t ts]; [done|]. simpl. rewrite Nat.add_0_r. f_equal.
  apply imap_ext. intros j x _. simpl. f_equal. lia.
Qed.

Lemma read_numbered_lines (n : nat) (ts : list jsstring) :
  ∀ (k : nat) (tm : gmap Z jsstring) (i : nat),
    Forall one_line ts → (k + length ts ≤ n)%nat →
    foldl (read_line n) tm (imap (λ j, numbered (k + j)) ts) !! Z.of_nat i
    = if decide (k ≤ i < k + length ts)%nat
      then trim <$> ts !! (i - k)%nat
      else tm !! Z.of_nat i.
Proof.
  induction ts as [|t ts IH]; intros k tm i Hall Hlen.
  - simpl. rewrite decide_False by lia. done.
  - rewrite imap_numbered_shift. cbn [foldl]. simpl in Hlen.
    apply Forall_cons in Hall as [Ht Hall].
    rewrite read_line_numbered by (done || lia).
    rewrite IH by (done || lia). cbn [length].
    destruct (decide (i = k)) as [-> | Hne].
    + rewrite decide_False by lia. rewrite decide_True by lia.
      rewrite lookup_insert_eq, Nat.sub_diag. done.
    + rewrite lookup_insert_ne by lia.
      destruct (decide (S k ≤ i < S k + length ts)%nat).
      * rewrite decide_True by lia.
        replace (i - k)%nat with (S (i - S k)) by lia. done.
      * rewrite decide_False by lia. done.
Qed.

(** *** What the second [forEach] collects *)

Lemma collect_sound (tm : gmap Z jsstring) (entries : list (nat * Sentence)) :
  ∀ (m : gmap jsstring jsstring) (k v : jsstring),
    foldl (collect tm) m entries !! k = Some v →
    m !! k = Some v
    ∨ ∃ e, e ∈ entries ∧ text e.2 = k ∧ tm !! Z.of_nat e.1 = Some v ∧ truthy v = true.
Proof.
  induction entries as [|e entries IH]; intros m k v H; [by left|].
  simpl in H. apply IH in H as [H | (e' & Hin & He')].
  - unfold collect in H.
    destruct (tm !! Z.of_nat e.1) as [tr|] eqn:Htm; [|by left].
    destruct (truthy tr) eqn:Htr; [|by left].
    destruct (decide (text e.2 = k)) as [<- | Hne].
    + rewrite lookup_insert_eq in H. injection H as <-.
      right. exists e. split; [apply list_elem_of_here | done].
    + rewrite lookup_insert_ne in H by done. by left.
  - right. exists e'. split; [by apply list_elem_of_further | done].
Qed.

Lemma collect_keeps (tm : gmap Z jsstring) (entries : list (nat * Sentence)) :
  ∀ (m : gmap jsstring jsstring) (k : jsstring),
    is_Some (m !! k) → is_Some (foldl (collect tm) m entries !! k).
Proof.
  induction entries as [|e entries IH]; intros m k H; [done|].
  simpl. apply IH. unfold collect.
  destruct (tm !! Z.of_nat e.1) as [tr|]; [|done].
  destruct (truthy tr); [|done].
  destruct (decide (text e.2 = k)) as [<- | Hne].
  - rewrite lookup_insert_eq. by eexists.
  - by rewrite lookup_insert_ne.
Qed.

Lemma collect_has (tm : gmap Z jsstring) (entries : list (nat * Sentence)) :
  ∀ (m : gmap jsstring jsstring) (e : nat * Sentence) (v : jsstring),
    e ∈ entries → tm !! Z.of_nat e.1 = Some v → truthy v = true →
    is_Some (foldl (collect tm) m entries !! text e.2).
Proof.
  induction entries as [|e' entries IH]; intros m e v Hin Htm Hv.
  - by apply elem_of_nil in Hin.
  - apply elem_of_cons in Hin as [<- | Hin]; [|by eapply IH].
    simpl. apply collect_keeps. unfold collect. rewrite Htm, Hv.
    rewrite lookup_insert_eq. by eexists.
Qed.

Lemma elem_of_imap_pair {A} (l : list A) (e : nat * A) :
  e ∈ imap pair l ↔ l !! e.1 = Some e.2.
Proof.
  rewrite list_elem_of_lookup. split.
  - intros [i Hi]. rewrite list_lookup_imap in Hi.
    destruct (l !! i) eqn:Hl; [|done]. simpl in Hi. by injection Hi as <-.
  - intros H. exists e.1. rewrite list_lookup_imap, H. by destruct e.
Qed.

End ParseFacts.

Module ParseFacts2.
Import Js Service Prompt PromptWords ParseFacts.

Lemma read_line_sound (n : nat) (lines : list jsstring) :
  ∀ (tm : gmap Z jsstring) (i : Z) (v : jsstring),
    foldl (read_line n) tm lines !! i = Some v →
    tm !! i = Some v
    ∨ ∃ line digits captured,
        line ∈ lines ∧ match_line line = Some (digits, captured)
        ∧ parseInt digits = i + 1 ∧ 0 ≤ i < Z.of_nat n ∧ v = trim captured.
Proof.
  induction lines as [|line lines IH]; intros tm i v H; [by left|].
  simpl in H. apply IH in H as [H | (l & d & c & Hin & Hrest)].
  - unfold read_line in H.
    destruct (match_line line) as [[digits captured]|] eqn:Hm; [|by left].
    destruct (Z.leb_spec 0 (parseInt digits - 1)); simpl in H; [|by left].
    destruct (Z.ltb_spec (parseInt digits - 1) (Z.of_nat n)); [|by left].
    destruct (decide (parseInt digits - 1 = i)) as [<- | Hne].
    + rewrite lookup_insert_eq in H. injection H as <-.
      right. exists line, digits, captured.
      split; [apply list_elem_of_here|]. split; [done|]. split; [lia|]. done.
    + rewrite lookup_insert_ne in H by done. by left.
  - right. exists l, d, c. split; [by apply list_elem_of_further | done].
Qed.

Lemma truthy_nonempty (s : jsstring) : truthy s = true ↔ s ≠ [].
Proof. by destruct s. Qed.

(** The entry a text gets when all the sentences that carry it are given
    one translation. *)
Lemma collect_agreed (tm : gmap Z jsstring) (batch : list Sentence)
    (i : nat) (s : Sentence) (v : jsstring) :
  batch !! i = Some s → tm !! Z.of_nat i = Some v → truthy v = true →
  (∀ j s' v', batch !! j = Some s' → text s' = text s →
              tm !! Z.of_nat j = Some v' → truthy v' = true → v' = v) →
  foldl (collect tm) ∅ (imap pair batch) !! text s = Some v.
Proof.
  intros Hi Htm Hv Hall.
  destruct (collect_has tm (imap pair batch) ∅ (i, s) v) as [v' Hv']; [|done..|].
  { by apply elem_of_imap_pair. }
  simpl in Hv'. rewrite Hv'. f_equal.
  apply collect_sound in Hv' as [Hv' | ([j s'] & Hin & Hk & Hj & Htr)].
  - by rewrite lookup_empty in Hv'.
  - apply elem_of_imap_pair in Hin. simpl in *. by eapply Hall.
Qed.

Lemma collect_missing (tm : gmap Z jsstring) (batch : list Sentence)
    (k : jsstring) :
  (∀ j s' v', batch !! j = Some s' → text s' = k →
              tm !! Z.of_nat j = Some v' → truthy v' = false) →
  foldl (collect tm) ∅ (imap pair batch) !! k = None.
Proof.
  intros Hall. apply eq_None_not_Some. intros [v Hv].
  apply collect_sound in Hv as [Hv | ([j s'] & Hin & Hk & Hj & Htr)].
  - by rewrite lookup_empty in Hv.
  - apply elem_of_imap_pair in Hin. simpl in *.
    by rewrite (Hall j s' v Hin Hk Hj) in Htr.
Qed.

Lemma reply_in_format_lines (ts : list jsstring) :
  ts ≠ [] → Forall one_line ts →
  truthy (reply_in_format ts) = true
  ∧ split_lines (reply_in_format ts) = imap (λ j, numbered (0 + j)) ts.
Proof.
  intros Hne Hall. unfold reply_in_format. split.
  - destruct ts as [|t [|t' ts]]; [done | done | done].
  - apply split_join_lines.
    + by destruct ts.
    + apply Forall_forall. intros l Hl.
      apply list_elem_of_lookup in Hl as [j Hj].
      rewrite list_lookup_imap in Hj.
      destruct (ts !! j) as [t|] eqn:Ht; [|done]. injection Hj as <-.
      apply numbered_no_newline.
      rewrite Forall_forall in Hall. apply Hall.
      by eapply list_elem_of_lookup_2.
Qed.

(** What [translateBatch] makes of a reply in the format. *)
Lemma translations_of_reply (batch : list Sentence) (ts : list jsstring)
    (i : nat) (s : Sentence) (t : jsstring) :
  length ts = length batch →
  Forall one_line ts →
  (∀ j s', batch !! j = Some s' → text s' = text s → trim <$> ts !! j = Some (trim t)) →
  batch !! i = Some s → ts !! i = Some t →
  translations_of batch (reply_in_format ts) !! text s
  = if truthy (trim t) then Some (trim t) else None.
Proof.
  intros Hlen Hall Hsame Hi Ht.
  assert (Hne : ts ≠ []) by (intros ->; done).
  destruct (reply_in_format_lines ts Hne Hall) as [Htruthy Hlines].
  unfold translations_of. rewrite Htruthy, Hlines.
  assert (Htm : ∀ j, foldl (read_line (length batch)) ∅
                       (imap (λ j, numbered (0 + j)) ts) !! Z.of_nat j
                     = trim <$> ts !! j).
  { intros j. rewrite read_numbered_lines by (done || lia).
    rewrite Nat.sub_0_r. destruct (decide (0 ≤ j < 0 + length ts)%nat); [done|].
    rewrite lookup_empty, lookup_ge_None_2 by lia. done. }
  destruct (truthy (trim t)) eqn:Htr.
  - apply (collect_agreed _ batch i s); [done | | done |].
    + by rewrite Htm, Ht.
    + intros j s' v' Hj Hk Hv' _. rewrite Htm, (Hsame j s' Hj Hk) in Hv'. congruence.
  - apply collect_missing. intros j s' v' Hj Hk Hv'.
    rewrite Htm, (Hsame j s' Hj Hk) in Hv'. congruence.
Qed.

End ParseFacts2.

Module ConductFacts.
Import Js Service Runs Conduct.

#[local] Arguments progress_expr : simpl never.
#[local] Arguments Db.saveTranslation : simpl never.
#[local] Arguments translations_of : simpl never.
#[local] Arguments slice : simpl never.
#[local] Arguments slice_from : simpl never.
#[local] Arguments Db.getBatchTranslations : simpl never.

(** *** No failure is ever reported *)

Lemma never_failed_notify (s : State) : never_failed s → never_failed (notify s).
Proof.
  intros (Ht & Hn & Hm). split; [done|]. split; [|done]. simpl.
  apply Forall_app. split; [done|]. by apply Forall_singleton.
Qed.

Lemma never_failed_toast (m : Toast) (s : State) :
  (∀ msg, m ≠ error_failed msg) → never_failed s → never_failed (toast m s).
Proof.
  intros Hm (Ht & Hn & Hto). split; [done|]. split; [done|]. simpl.
  intros msg [Hin | Hin%list_elem_of_singleton]%elem_of_app.
  - by apply (Hto msg).
  - by apply (Hm msg).
Qed.

Lemma never_failed_task (o : option TranslationTask) (s : State) :
  not_failed o → never_failed s → never_failed (set_currentTask o s).
Proof. intros Ho (_ & Hn & Hm). done. Qed.

Lemma never_failed_fields (s s' : State) :
  currentTask s' = currentTask s → notified s' = notified s →
  toasts s' = toasts s → never_failed s → never_failed s'.
Proof. unfold never_failed. by intros -> -> ->. Qed.

Lemma not_failed_None : not_failed None.
Proof. by intros t. Qed.

Lemma outer_catch_without_task (msg : jsstring) (s : State) :
  currentTask s = None → outer_catch msg s = s.
Proof. intros H. unfold outer_catch. by rewrite H. Qed.

Lemma abort_check_Throw (s : State) :
  abort_check s = Throw → currentTask s = None.
Proof.
  unfold abort_check. destruct (abortController s) as [[]|];
    destruct (currentTask s) as [t|]; try done;
    by destruct (decide (status t = running)).
Qed.

Lemma never_failed_after_loop (total : Z) (s : State) :
  never_failed s → never_failed (after_loop total s).
Proof.
  intros Hs. unfold after_loop. destruct (currentTask s) as [t|] eqn:Ht.
  - destruct (decide (status t = running)); [|done].
    apply never_failed_notify, never_failed_toast; [done|].
    apply never_failed_task; [|done].
    intros t' [= <-]. simpl. split; [done|].
    destruct Hs as (Hc & _). by apply (Hc t).
  - by rewrite outer_catch_without_task.
Qed.

Lemma never_failed_iteration (i : Z) (l : Loop) (s : State) :
  never_failed s → never_failed (iteration i l s).1.
Proof.
  intros Hs. unfold iteration.
  destruct (i <? _); [|by apply never_failed_after_loop].
  destruct (abort_check s) eqn:Hc; simpl.
  - by eapply never_failed_fields.
  - by apply never_failed_after_loop.
  - by rewrite outer_catch_without_task by by apply abort_check_Throw.
Qed.

Lemma never_failed_publish (l : Loop) (t : TranslationTask) (s : State) :
  currentTask s = Some t → never_failed s → never_failed (publish l t s).
Proof.
  intros Ht Hs. apply never_failed_notify, never_failed_task; [|done].
  intros t' [= <-]. simpl. destruct Hs as (Hc & _). by apply (Hc t).
Qed.

Lemma never_failed_fallback_done (l : Loop) (s : State) :
  never_failed s → never_failed (fallback_done l s).1.
Proof.
  intros Hs. unfold fallback_done. destruct (currentTask s) as [t|] eqn:Ht; simpl.
  - by apply never_failed_publish.
  - by rewrite outer_catch_without_task.
Qed.

Lemma never_failed_fallback (rest : list Sentence) (l : Loop) (s : State) :
  never_failed s → never_failed (fallback rest l s).1.
Proof.
  intros Hs. destruct rest as [|x rest]; simpl;
    [by apply never_failed_fallback_done|].
  destruct (abort_check s) eqn:Hc; simpl.
  - by eapply never_failed_fields.
  - by apply never_failed_fallback_done.
  - by rewrite outer_catch_without_task by by apply abort_check_Throw.
Qed.

Lemma never_failed_batch_done (l : Loop) (s : State) :
  never_failed s → never_failed (batch_done l s).1.
Proof.
  intros Hs. unfold batch_done. destruct (currentTask s) as [t|] eqn:Ht; simpl.
  - by apply never_failed_publish.
  - by apply never_failed_fallback.
Qed.

Lemma never_failed_save_batch (trs : gmap jsstring jsstring)
    (rest : list Sentence) (l : Loop) (s : State) :
  never_failed s → never_failed (save_batch trs rest l s).1.
Proof.
  intros Hs. induction rest as [|x rest IH]; simpl;
    [by apply never_failed_batch_done|].
  destruct (trs !! text x) as [tr|]; [|done].
  by destruct (worth_saving tr (text x)).
Qed.

Lemma never_failed_resume_loop (l : Loop) (r : Reply) (s : State) :
  never_failed s → never_failed (resume_loop l r s).1.
Proof.
  intros Hs. unfold resume_loop. destruct (l_await l) as [|trs o tr rest|x rest|o tr rest|].
  - destruct r; [by apply never_failed_save_batch | by apply never_failed_fallback].
  - apply never_failed_save_batch. by eapply never_failed_fields.
  - destruct r as [tr|]; [|by apply never_failed_fallback].
    destruct (worth_saving tr (text x)); [done | by apply never_failed_fallback].
  - apply never_failed_fallback. by eapply never_failed_fields.
  - by apply never_failed_iteration.
Qed.

Lemma never_failed_executeTranslation (s : State) :
  never_failed s → never_failed (executeTranslation s).1.
Proof.
  intros Hs. unfold executeTranslation. destruct (currentTask s) as [t|]; [|done].
  destruct (decide (status t = running)); [|done].
  by apply never_failed_iteration.
Qed.

Lemma never_failed_stop (s : State) :
  never_failed s → never_failed (stopTranslation s).
Proof.
  intros Hs. unfold stopTranslation. destruct (currentTask s) as [t|]; [|done].
  apply never_failed_toast; [done|]. apply never_failed_notify.
  apply never_failed_task; [apply not_failed_None|].
  by eapply never_failed_fields.
Qed.

Lemma never_failed_pause (s : State) :
  never_failed s → never_failed (pauseTranslation s).
Proof.
  intros Hs. unfold pauseTranslation. destruct (currentTask s) as [t|] eqn:Ht; [|done].
  destruct (decide (status t = running)); [|done].
  apply never_failed_toast; [done|]. apply never_failed_notify.
  apply (never_failed_fields (set_currentTask (Some (set_status paused t)) s));
    [done.. |].
  apply never_failed_task; [|done].
  intros t' [= <-]. simpl. split; [done|]. destruct Hs as (Hc & _). by apply (Hc t).
Qed.

Lemma never_failed_resume (s : State) :
  never_failed s → never_failed (resumeTranslation s).1.
Proof.
  intros Hs. unfold resumeTranslation. destruct (currentTask s) as [t|] eqn:Ht; [|done].
  destruct (decide (status t = paused)); [|done].
  match goal with |- context [executeTranslation ?s0] =>
    pose proof (never_failed_executeTranslation s0) as He;
    destruct (executeTranslation s0) as [s1 p] end.
  simpl in *. apply He.
  apply never_failed_toast; [done|]. apply never_failed_notify.
  apply (never_failed_fields
           (set_currentTask (Some (set_status running
              (set_sentences (slice_from (sentences t)
                 (completedSentences t -
                  (totalSentences t - Z.of_nat (length (sentences t))))) t))) s));
    [done.. |].
  apply never_failed_task; [|done].
  intros t' [= <-]. simpl. split; [done|]. destruct Hs as (Hc & _). by apply (Hc t).
Qed.

Lemma never_failed_clear (s : State) :
  never_failed s → never_failed (clearCompletedTask s).
Proof.
  intros Hs. unfold clearCompletedTask. destruct (currentTask s) as [t|]; [|done].
  destruct (decide (status t = completed)); [|done].
  apply never_failed_notify, never_failed_task; [apply not_failed_None | done].
Qed.

Lemma never_failed_start (a : Start) (s : State) :
  never_failed s → never_failed (startTranslation a s).1.
Proof.
  intros Hs. unfold startTranslation.
  set (s' := match currentTask s with
             | Some t => if decide (status t = running) then stopTranslation s else s
             | None => s
             end).
  assert (Hs' : never_failed s').
  { unfold s'. destruct (currentTask s) as [t|]; [|done].
    destruct (decide (status t = running)); [by apply never_failed_stop | done]. }
  destruct (chatModel s'); simpl; [done|].
  by apply never_failed_toast.
Qed.

Lemma never_failed_resume_start (a : Start) (r : Reply) (s : State) :
  never_failed s → never_failed (resume_start a r s).1.
Proof.
  intros Hs. unfold resume_start.
  destruct (filter _ (a_allSentences a)) as [|x need] eqn:Hneed.
  - simpl. by apply never_failed_toast.
  - match goal with |- context [executeTranslation ?s0] =>
      pose proof (never_failed_executeTranslation s0) as He;
      destruct (executeTranslation s0) as [s1 p] end.
    simpl in *. apply He.
    apply never_failed_toast; [done|]. apply never_failed_notify.
    match goal with |- never_failed (set_abortController _ ?s0) =>
      apply (never_failed_fields s0); [done.. |] end.
    apply never_failed_task; [|done]. by intros t' [= <-].
Qed.

Lemma never_failed_step (sys : System) (ev : Event) :
  never_failed (shared sys) → never_failed (shared (step sys ev)).
Proof.
  intros Hs. destruct sys as [s ps]. destruct ev; unfold step; cbn [shared procs] in *.
  - pose proof (never_failed_start a s Hs). by destruct (startTranslation a s).
  - by apply never_failed_pause.
  - pose proof (never_failed_resume s Hs). by destruct (resumeTranslation s).
  - by apply never_failed_stop.
  - by apply never_failed_clear.
  - destruct (ps !! pid) as [[a|l|]|]; [| |done..].
    + pose proof (never_failed_resume_start a r s Hs). by destruct (resume_start a r s).
    + pose proof (never_failed_resume_loop l r s Hs). by destruct (resume_loop l r s).
  - by eapply never_failed_fields.
  - by eapply never_failed_fields.
Qed.

Lemma never_failed_run (evs : list Event) (sys : System) :
  never_failed (shared sys) → never_failed (shared (run sys evs)).
Proof.
  revert sys. induction evs as [|ev evs IH]; intros sys Hs; [done|].
  simpl. by apply IH, never_failed_step.
Qed.

End ConductFacts.

Module QuietFacts.
Import Js Service Runs Conduct ConductFacts.

#[local] Arguments progress_expr : simpl never.
#[local] Arguments Db.saveTranslation : simpl never.
#[local] Arguments translations_of : simpl never.
#[local] Arguments slice : simpl never.
#[local] Arguments slice_from : simpl never.
#[local] Arguments Db.getBatchTranslations : simpl never.

Lemma abort_check_idle (s : State) : idle s → abort_check s ≠ Proceed.
Proof.
  intros Hi. unfold abort_check.
  destruct (abortController s) as [[]|]; [done| |];
    (destruct (currentTask s) as [t|] eqn:Ht; [|done];
     destruct (decide (status t = running)) as [Hr|]; [|done];
     by destruct (Hi t Ht)).
Qed.

Lemma quiet_here (s : State) (p : Proc) :
  idle s → ¬ starting p → quiet s (s, p).
Proof. intros Hi Hp. by split; [|split; [|split]]. Qed.

Lemma quiet_after_loop (total : Z) (s : State) :
  idle s → quiet s (after_loop total s, Ended).
Proof.
  intros Hi. unfold after_loop. destruct (currentTask s) as [t|] eqn:Ht.
  - destruct (decide (status t = running)) as [Hr|].
    + by destruct (Hi t Ht Hr).
    + apply quiet_here; [done | by intros []].
  - rewrite outer_catch_without_task by done. apply quiet_here; [done | by intros []].
Qed.

Lemma quiet_iteration (i : Z) (l : Loop) (s : State) :
  idle s → quiet s (iteration i l s).
Proof.
  intros Hi. unfold iteration. destruct (i <? _); [|by apply quiet_after_loop].
  destruct (abort_check s) eqn:Hc.
  - by destruct (abort_check_idle s Hi).
  - by apply quiet_after_loop.
  - rewrite outer_catch_without_task by by apply abort_check_Throw.
    apply quiet_here; [done | by intros []].
Qed.

Lemma quiet_fallback_done (l : Loop) (s : State) :
  idle s → quiet s (fallback_done l s).
Proof.
  intros Hi. unfold fallback_done. destruct (currentTask s) as [t|] eqn:Ht.
  - split; [done|]. split; [|split; [intros H; by rewrite Ht in H | by intros []]].
    intros t' [= <-]. simpl. by apply Hi.
  - rewrite outer_catch_without_task by done. apply quiet_here; [done | by intros []].
Qed.

Lemma quiet_fallback (rest : list Sentence) (l : Loop) (s : State) :
  idle s → quiet s (fallback rest l s).
Proof.
  intros Hi. destruct rest as [|x rest]; simpl; [by apply quiet_fallback_done|].
  destruct (abort_check s) eqn:Hc.
  - by destruct (abort_check_idle s Hi).
  - by apply quiet_fallback_done.
  - rewrite outer_catch_without_task by by apply abort_check_Throw.
    apply quiet_here; [done | by intros []].
Qed.

Lemma quiet_batch_done (l : Loop) (s : State) :
  idle s → quiet s (batch_done l s).
Proof.
  intros Hi. unfold batch_done. destruct (currentTask s) as [t|] eqn:Ht.
  - split; [done|]. split; [|split; [intros H; by rewrite Ht in H | by intros []]].
    intros t' [= <-]. simpl. by apply Hi.
  - by apply quiet_fallback.
Qed.

Lemma quiet_save_batch (trs : gmap jsstring jsstring) (rest : list Sentence)
    (l : Loop) (s : State) :
  idle s → quiet s (save_batch trs rest l s).
Proof.
  intros Hi. induction rest as [|x rest IH]; simpl; [by apply quiet_batch_done|].
  destruct (trs !! text x) as [tr|]; [|done].
  destruct (worth_saving tr (text x)); [apply quiet_here; [done | by intros []] | done].
Qed.

Lemma quiet_saved (r : Reply) (b o tr : jsstring) (s : State) (sp : State * Proc) :
  quiet (saved r b o tr s) sp → quiet s sp.
Proof. done. Qed.

Lemma idle_saved (r : Reply) (b o tr : jsstring) (s : State) :
  idle s → idle (saved r b o tr s).
Proof. done. Qed.

Lemma quiet_resume_loop (l : Loop) (r : Reply) (s : State) :
  idle s → quiet s (resume_loop l r s).
Proof.
  intros Hi. unfold resume_loop.
  destruct (l_await l) as [|trs o tr rest|x rest|o tr rest|].
  - destruct r; [by apply quiet_save_batch | by apply quiet_fallback].
  - eapply quiet_saved, quiet_save_batch, idle_saved, Hi.
  - destruct r as [tr|]; [|by apply quiet_fallback].
    destruct (worth_saving tr (text x)); [apply quiet_here; [done | by intros []] | by apply quiet_fallback].
  - eapply quiet_saved, quiet_fallback, idle_saved, Hi.
  - by apply quiet_iteration.
Qed.

(** The calls that do not launch the loop, on an idle service. *)
Lemma idle_pause (s : State) : idle s → pauseTranslation s = s.
Proof.
  intros Hi. unfold pauseTranslation. destruct (currentTask s) as [t|] eqn:Ht; [|done].
  destruct (decide (status t = running)) as [Hr|]; [|done]. by destruct (Hi t Ht Hr).
Qed.

Lemma idle_stop (s : State) :
  idle (stopTranslation s) ∧ requests (stopTranslation s) = requests s
  ∧ (currentTask s = None → stopTranslation s = s).
Proof.
  unfold stopTranslation. destruct (currentTask s) as [t|] eqn:Ht.
  - split; [by intros t' | done].
  - split; [|done]. intros t' Ht'. by rewrite Ht in Ht'.
Qed.

Lemma idle_clear (s : State) :
  idle s →
  idle (clearCompletedTask s) ∧ requests (clearCompletedTask s) = requests s
  ∧ (currentTask s = None → clearCompletedTask s = s).
Proof.
  intros Hi. unfold clearCompletedTask. destruct (currentTask s) as [t|] eqn:Ht; [|done].
  destruct (decide (status t = completed)); [|done].
  split; [by intros t' | done].
Qed.

Lemma at_rest_step (sys : System) (ev : Event) :
  at_rest sys → ¬ launches ev →
  at_rest (step sys ev)
  ∧ requests (shared (step sys ev)) = requests (shared sys)
  ∧ (currentTask (shared sys) = None →
     currentTask (shared (step sys ev)) = None
     ∧ notified (shared (step sys ev)) = notified (shared sys)
     ∧ toasts (shared (step sys ev)) = toasts (shared sys)).
Proof.
  intros [Hi Hp] Hev. destruct sys as [s ps]. cbn [shared procs] in *.
  destruct ev; unfold step; cbn [shared procs]; try by destruct Hev.
  - rewrite idle_pause by done. by split; [split|].
  - destruct (idle_stop s) as (Hi' & Hr & Hn).
    split; [by split|]. split; [done|]. intros Hnone. by rewrite Hn.
  - destruct (idle_clear s Hi) as (Hi' & Hr & Hn).
    split; [by split|]. split; [done|]. intros Hnone. by rewrite Hn.
  - destruct (ps !! pid) as [[a|l|]|] eqn:Hpid; [| |done..].
    + by destruct (Hp pid _ Hpid).
    + destruct (quiet_resume_loop l r s Hi) as (Hr & Hi' & Hn & Hst).
      destruct (resume_loop l r s) as [s' p']. cbn [fst snd shared procs] in *.
      split; [|split; [done|]].
      * split; [done|].
        intros pid' p Hl. cbn [procs] in Hl.
        destruct (decide (pid' = pid)) as [-> | Hne].
        -- rewrite list_lookup_insert_eq in Hl by by eapply lookup_lt_Some.
           by injection Hl as <-.
        -- rewrite list_lookup_insert_ne in Hl by done. by eapply Hp.
      * intros Hnone. specialize (Hn Hnone). unfold control_of in Hn.
        injection Hn as -> _ -> -> _. done.
  - by split; [split|].
  - by split; [split|].
Qed.

Lemma at_rest_run (evs : list Event) (sys : System) :
  at_rest sys → Forall (λ ev, ¬ launches ev) evs →
  at_rest (run sys evs)
  ∧ requests (shared (run sys evs)) = requests (shared sys)
  ∧ (currentTask (shared sys) = None →
     currentTask (shared (run sys evs)) = None
     ∧ notified (shared (run sys evs)) = notified (shared sys)
     ∧ toasts (shared (run sys evs)) = toasts (shared sys)).
Proof.
  revert sys. induction evs as [|ev evs IH]; intros sys Hs Hevs; [done|].
  apply Forall_cons in Hevs as [Hev Hevs].
  destruct (at_rest_step sys ev Hs Hev) as (Hs' & Hr' & Hn').
  destruct (IH (step sys ev) Hs' Hevs) as (Hs'' & Hr'' & Hn'').
  simpl. split; [done|]. split; [congruence|].
  intros Hnone. destruct (Hn' Hnone) as (Ht & Hno & Hto).
  destruct (Hn'' Ht) as (Ht' & Hno' & Hto'). split; [done|]. split; congruence.
Qed.

End QuietFacts.

Module OrderFacts.
Import Js Service Runs Conduct ConductFacts Order LoopFacts.

#[local] Arguments progress_expr : simpl never.
#[local] Arguments Db.saveTranslation : simpl never.
#[local] Arguments translations_of : simpl never.
#[local] Arguments slice : simpl never.
#[local] Arguments slice_from : simpl never.
#[local] Arguments Db.getBatchTranslations : simpl never.

Lemma length_slice {A} (l : list A) (i e : Z) :
  0 ≤ i ≤ e → e ≤ Z.of_nat (length l) →
  Z.of_nat (length (slice l i e)) = e - i.
Proof.
  intros Hi He. unfold slice, rel_index.
  destruct (Z.ltb_spec i 0); [lia|]. destruct (Z.ltb_spec e 0); [lia|].
  rewrite length_take, length_drop. lia.
Qed.

Lemma slice_drop {A} (l : list A) (i e : Z) :
  0 ≤ i ≤ e → e ≤ Z.of_nat (length l) →
  slice l i e ++ drop (Z.to_nat e) l = drop (Z.to_nat i) l.
Proof.
  intros Hi He. unfold slice, rel_index.
  destruct (Z.ltb_spec i 0); [lia|]. destruct (Z.ltb_spec e 0); [lia|].
  rewrite !Z.min_l by lia.
  rewrite <- (take_drop (Z.to_nat (e - i)) (drop (Z.to_nat i) l)) at 2.
  f_equal. rewrite drop_drop. f_equal. lia.
Qed.

Lemma asked_in_batches_app (r1 r2 : list Request) :
  asked_in_batches (r1 ++ r2) = asked_in_batches r1 ++ asked_in_batches r2.
Proof. unfold asked_in_batches. apply bind_app. Qed.

Lemma abort_check_no_throw (s : State) (t : TranslationTask) :
  currentTask s = Some t → abort_check s ≠ Throw.
Proof. intros Ht H. apply abort_check_Throw in H. congruence. Qed.

Lemma outcome_fallback (rest : list Sentence) (l : Loop) (t : TranslationTask)
    (s s' : State) :
  currentTask s = Some t → l_await l ≠ AwaitDelay →
  control_of s' = control_of s → requests s' = requests s →
  (2 * length rest < awaits_left (length (l_batch l)) (l_await l))%nat →
  Outcome l t s (fallback rest l s').
Proof.
  intros Ht Ha Hc Hr Hlt.
  rewrite (fallback_with_task rest l t s') by by rewrite (control_of_task _ _ Hc).
  destruct rest as [|x rest]; [by apply closes|].
  destruct (abort_check s') eqn:Hchk; [|by apply closes..].
  apply goes_on; [done | done | simpl in *; lia | done |].
  simpl. rewrite asked_in_batches_app, Hr. simpl. by rewrite app_nil_r.
Qed.

Lemma outcome_save_batch (trs : gmap jsstring jsstring) (rest : list Sentence)
    (l : Loop) (t : TranslationTask) (s s' : State) :
  currentTask s = Some t → l_await l ≠ AwaitDelay →
  control_of s' = control_of s → requests s' = requests s →
  (length rest < awaits_left (length (l_batch l)) (l_await l))%nat →
  Outcome l t s (save_batch trs rest l s').
Proof.
  intros Ht Ha Hc Hr Hlt.
  destruct (save_batch_with_task trs rest l t s')
    as [-> | (o & tr & rest' & -> & Hlen)];
    [by rewrite (control_of_task _ _ Hc) | by apply closes |].
  apply goes_on; [done | done | simpl; lia | done | by rewrite Hr].
Qed.

(** A settled promise, with the task in place. *)
Lemma resume_loop_outcome (l : Loop) (r : Reply) (s : State)
    (t : TranslationTask) :
  currentTask s = Some t → Outcome l t s (resume_loop l r s).
Proof.
  intros Ht. unfold resume_loop.
  destruct (l_await l) as [|trs o tr rest|x rest|o tr rest|] eqn:Ha.
  - destruct r as [response|].
    + apply outcome_save_batch; rewrite ?Ha; simpl; (done || lia).
    + apply outcome_fallback; rewrite ?Ha; simpl; (done || lia).
  - apply outcome_save_batch; rewrite ?Ha; simpl; (done || lia).
  - destruct r as [tr|].
    + destruct (worth_saving tr (text x)).
      * apply goes_on; rewrite ?Ha; simpl; (done || lia).
      * apply outcome_fallback; rewrite ?Ha; simpl; (done || lia).
    + apply outcome_fallback; rewrite ?Ha; simpl; (done || lia).
  - apply outcome_fallback; rewrite ?Ha; simpl; (done || lia).
  - destruct (Z.ltb_spec (l_i l + l_batchSize l) (Z.of_nat (length (l_sentences l))))
      as [Hlt | Hge].
    + destruct (abort_check s) eqn:Hchk.
      * by apply next_window.
      * replace (iteration _ l s) with (after_loop (l_totalSentences l) s, Ended).
        -- apply loop_ends; [done | by right].
        -- unfold iteration. rewrite Hchk.
           by destruct (Z.ltb_spec (l_i l + l_batchSize l)
                          (Z.of_nat (length (l_sentences l)))); [|lia].
      * by destruct (abort_check_no_throw s t Ht).
    + replace (iteration _ l s) with (after_loop (l_totalSentences l) s, Ended).
      * apply loop_ends; [done | by left].
      * unfold iteration.
        by destruct (Z.ltb_spec (l_i l + l_batchSize l)
                       (Z.of_nat (length (l_sentences l)))); [lia|].
Qed.

(** *** The activations of an orderly run *)

Lemma at_ease_lookup (sys : System) (pid : nat) (p : Proc) :
  at_ease sys → procs sys !! pid = Some p → p = Ended.
Proof.
  unfold at_ease. rewrite Forall_lookup. intros H Hp. by apply (H pid).
Qed.

Lemma at_ease_alone (ps : list Proc) (p : Proc) :
  Forall (λ p, p = Ended) ps → alone (length ps) (ps ++ [p]).
Proof.
  rewrite Forall_lookup. intros H pid' q Hq Hne.
  apply lookup_app_Some in Hq as [Hq | [Hge Hq]]; [by apply (H pid')|].
  apply list_lookup_singleton_Some in Hq as [Hq _]. lia.
Qed.

Lemma at_ease_app (ps : list Proc) :
  Forall (λ p, p = Ended) ps → Forall (λ p, p = Ended) (ps ++ [Ended]).
Proof. intros H. apply Forall_app. split; [done | by apply Forall_singleton]. Qed.

Lemma alone_ended (pid : nat) (ps : list Proc) :
  alone pid ps → Forall (λ p, p = Ended) (<[pid := Ended]> ps).
Proof.
  intros H. apply Forall_lookup. intros i p Hp.
  destruct (decide (i = pid)) as [-> | Hne].
  - apply list_lookup_insert_Some in Hp as [(_ & <- & _) | [Hne _]]; done.
  - rewrite list_lookup_insert_ne in Hp by done. by apply (H i).
Qed.

Lemma alone_insert (pid : nat) (ps : list Proc) (p : Proc) :
  alone pid ps → alone pid (<[pid := p]> ps).
Proof.
  intros H i q Hq Hne. rewrite list_lookup_insert_ne in Hq by done. by apply (H i).
Qed.

Lemma alone_other (pid pid' : nat) (ps : list Proc) (p : Proc) :
  alone pid ps → ps !! pid' = Some p → p ≠ Ended → pid' = pid.
Proof.
  intros H Hp Hne. destruct (decide (pid' = pid)) as [|Hd]; [done|].
  by destruct (Hne (H pid' p Hp Hd)).
Qed.

(** *** The counts *)

Lemma sound_notify (s : State) : sound s → sound (notify s).
Proof.
  intros [Hn Ht]. split; [|done]. simpl.
  apply Forall_app. split; [done | by apply Forall_singleton].
Qed.

Lemma sound_task (o : option TranslationTask) (s : State) :
  snapshot_ok o → sound s → sound (set_currentTask o s).
Proof. by intros Ho [Hn _]. Qed.

Lemma sound_fields (s s' : State) :
  currentTask s' = currentTask s → notified s' = notified s →
  sound s → sound s'.
Proof. unfold sound. by intros -> ->. Qed.

Lemma snapshot_ok_None : snapshot_ok None.
Proof. by intros t. Qed.

Lemma snapshot_ok_Some (t : TranslationTask) : task_ok t → snapshot_ok (Some t).
Proof. by intros Ht t' [= <-]. Qed.

Lemma window_end_bounds (l : Loop) :
  loop_ok l →
  l_i l < window_end l ≤ Z.of_nat (length (l_sentences l))
  ∧ Z.of_nat (length (l_batch l)) = window_end l - l_i l.
Proof.
  intros (Hbs & Hi & Htot & Hb & Hc). unfold window_end in *.
  split; [lia|]. rewrite Hb. apply length_slice; lia.
Qed.

(** The task and the loop as a window that closes leaves them. *)
Lemma closing_in_order (l : Loop) (t : TranslationTask) :
  loop_ok l → l_await l ≠ AwaitDelay → task_of_loop l t → task_ok t →
  loop_ok (set_await AwaitDelay (count_window l))
  ∧ task_of_loop (set_await AwaitDelay (count_window l)) (counted l t)
  ∧ task_ok (counted l t)
  ∧ completedSentences t ≤ completedSentences (counted l t)
  ∧ status (counted l t) = status t.
Proof.
  intros Hl Ha (Hs & Htot & Hc & Hst) (Hbs & H0 & Hhits & Hle & Hp).
  destruct (window_end_bounds l Hl) as [Hw Hlen].
  destruct Hl as (Hlbs & Hi & Hltot & Hb & Hlc).
  assert (Hlc' : l_completed l
                 = l_totalSentences l - Z.of_nat (length (l_sentences l)) + l_i l)
    by by destruct (l_await l).
  unfold counted, units. simpl.
  split; [|split; [|split; [|split]]].
  - unfold loop_ok, window_end in *. simpl. repeat split; try done; lia.
  - unfold task_of_loop. simpl. done.
  - unfold task_ok. simpl. rewrite Hs, Htot.
    split; [done|]. split; [lia|]. split; [lia|]. split; [lia|].
    left. simpl. by rewrite Htot.
  - lia.
  - done.
Qed.

Lemma loop_ok_set_await (a' : Await) (l : Loop) :
  loop_ok l → l_await l ≠ AwaitDelay → a' ≠ AwaitDelay →
  loop_ok (set_await a' l).
Proof.
  intros (Hbs & Hi & Htot & Hb & Hc) Ha Ha'.
  unfold loop_ok, window_end in *. simpl.
  split; [done|]. split; [done|]. split; [done|]. split; [done|].
  rewrite Hc. by destruct (l_await l), a'.
Qed.

(** The loop at the request of its next window. *)
Lemma next_window_in_order (l : Loop) (s : State) :
  loop_ok l → l_await l = AwaitDelay →
  l_i l + l_batchSize l < Z.of_nat (length (l_sentences l)) →
  abort_check s = Proceed →
  ∃ l', iteration (l_i l + l_batchSize l) l s
        = (call_completions (ReqBatch (l_batch l')) s, Executing l')
        ∧ loop_ok l' ∧ l_await l' = AwaitBatch
        ∧ l_sentences l' = l_sentences l
        ∧ l_totalSentences l' = l_totalSentences l
        ∧ l_completed l' = l_completed l
        ∧ l_i l' = window_end l.
Proof.
  intros (Hbs & Hi & Htot & Hb & Hc) Ha Hlt Hchk. unfold iteration.
  destruct (Z.ltb_spec (l_i l + l_batchSize l) (Z.of_nat (length (l_sentences l))));
    [|lia].
  rewrite Hchk.
  match goal with |- context [Executing ?x] => exists x end.
  split; [reflexivity|].
  rewrite Ha in Hc. unfold loop_ok, window_end in *. simpl.
  repeat split; try done; lia.
Qed.

(** The end of the loop, with the task in place. *)
Lemma after_loop_in_order (total : Z) (s : State) (t : TranslationTask) :
  currentTask s = Some t → sound s → totalSentences t = total →
  sound (after_loop total s) ∧ idle (after_loop total s)
  ∧ requests (after_loop total s) = requests s
  ∧ ∃ t', currentTask (after_loop total s) = Some t'
          ∧ completedSentences t ≤ completedSentences t'
          ∧ (status t = running →
             status t' = completed ∧ completedSentences t' = total
             ∧ progress t' = of_Z 100 ∧ endTime t' = Some (now s)
             ∧ notified (after_loop total s) = notified s ++ [Some t']
             ∧ toasts (after_loop total s) = toasts s ++ [success_completed])
          ∧ (status t ≠ running → after_loop total s = s).
Proof.
  intros Ht Hs Htot. unfold after_loop. rewrite Ht.
  destruct Hs as [Hn Hok]. destruct (Hok t Ht) as (Hbs & H0 & Hhits & Hle & Hp).
  destruct (decide (status t = running)) as [Hr | Hr].
  - split; [|split; [|split]].
    + apply sound_notify. split; [done|]. simpl.
      apply snapshot_ok_Some. unfold task_ok. simpl.
      split; [done|]. split; [done|]. split; [lia|]. split; [lia|]. by right.
    + intros t' [= <-]. by simpl.
    + done.
    + eexists. split; [reflexivity|]. simpl. split; [lia|]. split; [done|].
      intros Hnr. by destruct Hnr.
  - split; [done|]. split; [|split].
    + intros t' Ht'. rewrite Ht in Ht'. by injection Ht' as <-.
    + done.
    + exists t. split; [done|]. split; [lia|]. split; [by intros Hr'|done].
Qed.

Lemma abort_check_without_task (s : State) :
  currentTask s = None → abort_check s ≠ Proceed.
Proof.
  intros Ht. unfold abort_check. rewrite Ht. by destruct (abortController s) as [[]|].
Qed.

Lemma fallback_without_task (rest : list Sentence) (l : Loop) (s : State) :
  currentTask s = None → fallback rest l s = (s, Ended).
Proof.
  intros Ht.
  assert (Hd : ∀ l', fallback_done l' s = (s, Ended)).
  { intros l'. unfold fallback_done. rewrite Ht.
    by rewrite outer_catch_without_task. }
  destruct rest as [|x rest]; simpl; [apply Hd|].
  destruct (abort_check s) eqn:Hchk.
  - by destruct (abort_check_without_task s Ht).
  - apply Hd.
  - by rewrite outer_catch_without_task.
Qed.

Lemma save_batch_without_task (trs : gmap jsstring jsstring)
    (rest : list Sentence) (l : Loop) (s : State) :
  currentTask s = None →
  save_batch trs rest l s = (s, Ended)
  ∨ ∃ a', a' ≠ AwaitDelay ∧ save_batch trs rest l s = (s, Executing (set_await a' l)).
Proof.
  intros Ht. induction rest as [|x rest IH]; simpl.
  - left. unfold batch_done. rewrite Ht. by apply fallback_without_task.
  - destruct (trs !! text x) as [tr|]; [|done].
    destruct (worth_saving tr (text x)); [|done].
    right. by exists (AwaitSave trs (text x) tr rest).
Qed.

(** A settled promise, after the task was let go. *)
Lemma resume_loop_without_task (l : Loop) (r : Reply) (s : State) :
  currentTask s = None →
  control_of (resume_loop l r s).1 = control_of s
  ∧ requests (resume_loop l r s).1 = requests s
  ∧ ((resume_loop l r s).2 = Ended
     ∨ (l_await l ≠ AwaitDelay
        ∧ ∃ a', a' ≠ AwaitDelay
                ∧ (resume_loop l r s).2 = Executing (set_await a' l))).
Proof.
  intros Ht. unfold resume_loop.
  assert (Hsb : ∀ trs rest s', currentTask s' = None →
            control_of s' = control_of s → requests s' = requests s →
            l_await l ≠ AwaitDelay →
            control_of (save_batch trs rest l s').1 = control_of s
            ∧ requests (save_batch trs rest l s').1 = requests s
            ∧ ((save_batch trs rest l s').2 = Ended
               ∨ (l_await l ≠ AwaitDelay
                  ∧ ∃ a', a' ≠ AwaitDelay
                          ∧ (save_batch trs rest l s').2 = Executing (set_await a' l)))).
  { intros trs rest s' Ht' Hc Hr Ha.
    destruct (save_batch_without_task trs rest l s' Ht') as [-> | (a' & Ha' & ->)];
      simpl; [by auto|]. split; [done|]. split; [done|]. right. split; [done|]. by exists a'. }
  destruct (l_await l) as [|trs o tr rest|x rest|o tr rest|] eqn:Ha.
  - destruct r; [by apply Hsb | by rewrite fallback_without_task; auto].
  - by apply Hsb.
  - destruct r as [tr|]; [|by rewrite fallback_without_task; auto].
    destruct (worth_saving tr (text x)); [|by rewrite fallback_without_task; auto].
    simpl. split; [done|]. split; [done|]. right. split; [done|].
    by exists (AwaitSingleSave (text x) tr rest).
  - rewrite fallback_without_task by done. by auto.
  - unfold iteration.
    assert (Hal : after_loop (l_totalSentences l) s = s).
    { unfold after_loop. rewrite Ht. by rewrite outer_catch_without_task. }
    destruct (_ <? _); [|rewrite Hal; by auto].
    destruct (abort_check s) eqn:Hchk.
    + by destruct (abort_check_without_task s Ht).
    + rewrite Hal. by auto.
    + rewrite outer_catch_without_task by done. by auto.
Qed.

End OrderFacts.

Module OrderFacts2.
Import Js Service Runs Conduct ConductFacts QuietFacts Order OrderFacts OrderWords
  LoopFacts ResumeFacts.

#[local] Arguments progress_expr : simpl never.
#[local] Arguments Db.saveTranslation : simpl never.
#[local] Arguments translations_of : simpl never.
#[local] Arguments slice : simpl never.
#[local] Arguments slice_from : simpl never.
#[local] Arguments Db.getBatchTranslations : simpl never.

(** [startTranslation] from the result of the lookup on. *)
Lemma resume_start_creates (a : Start) (r : Reply) (s : State) :
  resume_start a r s =
    match uncached a r s with
    | [] => (toast success_all_cached s, [])
    | need =>
        (call_completions
           (ReqBatch (l_batch (first_window (created_task a need (now s)))))
           (created a need s),
         [Executing (first_window (created_task a need (now s)))])
    end.
Proof.
  unfold resume_start. fold (uncached a r s).
  destruct (uncached a r s) as [|x need] eqn:Hneed; [done|].
  change (toast (info_started _ _) _) with (created a (x :: need) s).
  by rewrite (executeTranslation_launches (created a (x :: need) s)
                (created_task a (x :: need) (now s))).
Qed.

Lemma length_uncached (a : Start) (r : Reply) (s : State) :
  (length (uncached a r s) ≤ length (a_allSentences a))%nat.
Proof. apply length_filter. Qed.

(** The first window of a task whose count is the cached sentences. *)
Lemma first_window_in_order (t : TranslationTask) :
  task_ok t → sentences t ≠ [] → status t = running →
  completedSentences t = totalSentences t - Z.of_nat (length (sentences t)) →
  loop_ok (first_window t) ∧ task_of_loop (first_window t) t.
Proof.
  intros (Hbs & H0 & Hhits & Hle & Hp) Hne Hr Hc. split.
  - unfold loop_ok, window_end. simpl.
    split; [done|]. split; [|split; [lia|split; [done|lia]]].
    destruct (sentences t); [done | simpl; lia].
  - unfold task_of_loop. simpl. auto.
Qed.

Lemma created_task_ok (a : Start) (need : list Sentence) (now : Z) :
  1 ≤ a_batchSize a → (length need ≤ length (a_allSentences a))%nat →
  task_ok (created_task a need now).
Proof.
  intros Hbs Hlen. unfold task_ok, created_task. simpl.
  split; [done|]. split; [lia|]. split; [lia|]. split; [lia|]. by left.
Qed.

Lemma resumed_task_ok (t : TranslationTask) :
  task_ok t → status t = paused →
  task_ok (resumed_task t)
  ∧ completedSentences (resumed_task t)
    = totalSentences (resumed_task t)
      - Z.of_nat (length (sentences (resumed_task t))).
Proof.
  intros (Hbs & H0 & Hhits & Hle & Hp) Hst.
  assert (Hlen : Z.of_nat (length (remainingSentences t))
                 = totalSentences t - completedSentences t).
  { unfold remainingSentences, translatedFromNeedList.
    rewrite CancelFacts.slice_from_drop by lia. rewrite length_drop. lia. }
  unfold task_ok, resumed_task. simpl. rewrite Hlen.
  split; [|lia]. split; [done|]. split; [lia|]. split; [lia|]. split; [lia|].
  left. simpl. destruct Hp as [Hp | (Hcomp & _)]; [done | congruence].
Qed.

(** *** One event of an orderly run *)

Lemma rises_same (s s' : State) : currentTask s' = currentTask s → rises s s'.
Proof. intros H t t' Ht _ Ht'. rewrite H, Ht in Ht'. injection Ht' as <-. lia. Qed.

Lemma rises_idle (s s' : State) : idle s → rises s s'.
Proof. intros Hi t t' Ht Hr _. by destruct (Hi t Ht). Qed.

Lemma settle_loop_in_order (s : State) (ps : list Proc) (pid : nat) (l : Loop)
    (r : Reply) :
  sound s → ps !! pid = Some (Executing l) → alone pid ps → loop_ok l →
  (∀ t, currentTask s = Some t → task_of_loop l t) →
  in_order {| shared := (resume_loop l r s).1;
              procs := <[pid := (resume_loop l r s).2]> ps |}
  ∧ rises s (resume_loop l r s).1.
Proof.
  intros Hs Hpid Hal Hl Htask.
  assert (Hlen : (pid < length ps)%nat) by by eapply lookup_lt_Some.
  destruct (currentTask s) as [t|] eqn:Ht.
  - specialize (Htask t eq_refl).
    assert (Htok : task_ok t) by by apply (proj2 Hs).
    destruct (resume_loop_outcome l r s t Ht)
      as [a' s' Ha Ha' _ Hc _ | s1 Ha Hc Hr | Ha Hlt Hchk | Ha Hge]; cbn [fst snd].
    + assert (Hts : currentTask s' = currentTask s) by by apply control_of_task.
      split; [|by apply rises_same].
      split.
      * eapply sound_fields; [| |exact Hs]; [done | by injection Hc].
      * right. right. exists pid, (set_await a' l). cbn [shared procs].
        split; [by rewrite list_lookup_insert_eq|].
        split; [by apply alone_insert|].
        split; [by apply loop_ok_set_await|].
        intros t' Ht'. rewrite (control_of_task _ _ Hc), Ht in Ht'.
        by injection Ht' as <-.
    + destruct (closing_in_order l t Hl Ha Htask Htok) as (Hl' & Htl' & Htok' & Hle & Hst).
      split.
      * split.
        -- apply sound_notify, sound_task; [by apply snapshot_ok_Some|].
           eapply sound_fields; [| |exact Hs];
             [by apply control_of_task | by injection Hc].
        -- right. right. eexists pid, _. cbn [shared procs].
           split; [by rewrite list_lookup_insert_eq|].
           split; [by apply alone_insert|]. split; [exact Hl'|].
           intros t' [= <-]. done.
      * intros t0 t' Ht0 _ Ht'. rewrite Ht in Ht0. injection Ht0 as <-.
        simpl in Ht'. by injection Ht' as <-.
    + destruct (next_window_in_order l s Hl Ha Hlt Hchk)
        as (l' & Hit' & Hl' & Ha' & Hsen & Htot & Hcom & Hi').
      rewrite Hit'. cbn [fst snd].
      split; [|by apply rises_same].
      split; [by eapply sound_fields; [| |exact Hs]|].
      right. right. exists pid, l'. cbn [shared procs].
      split; [by rewrite list_lookup_insert_eq|].
      split; [by apply alone_insert|]. split; [done|].
      intros t' Ht'. simpl in Ht'. rewrite Ht in Ht'. injection Ht' as <-.
      destruct Htask as (H1 & H2 & H3 & H4). unfold task_of_loop.
      by rewrite Hsen, Htot, Hcom.
    + destruct (after_loop_in_order (l_totalSentences l) s t Ht Hs)
        as (Hs' & Hi' & _ & t' & Ht' & Hle & _); [by destruct Htask as (_ & ? & _)|].
      split.
      * split; [done|]. left. split; [by apply alone_ended | done].
      * intros t0 t1 Ht0 _ Ht1. rewrite Ht in Ht0. injection Ht0 as <-.
        rewrite Ht' in Ht1. by injection Ht1 as <-.
  - destruct (resume_loop_without_task l r s Ht) as (Hc & _ & Hp).
    destruct (resume_loop l r s) as [s' p']. cbn [fst snd] in *.
    assert (Ht' : currentTask s' = None) by by rewrite (control_of_task _ _ Hc).
    split; [|intros t t' Hx; by rewrite Ht in Hx].
    split.
    + eapply sound_fields; [| |exact Hs]; [by rewrite Ht | by injection Hc].
    + destruct Hp as [-> | (Ha & a' & Ha' & ->)].
      * left. split; [by apply alone_ended|]. intros t Hx. simpl in Hx. by rewrite Ht' in Hx.
      * right. right. exists pid, (set_await a' l). cbn [shared procs].
        split; [by rewrite list_lookup_insert_eq|].
        split; [by apply alone_insert|].
        split; [by apply loop_ok_set_await|].
        intros t Hx. simpl in Hx. by rewrite Ht' in Hx.
Qed.

(** An event that leaves the activations alone. *)
Lemma in_order_state (s s' : State) (ps : list Proc) :
  in_order {| shared := s; procs := ps |} →
  sound s' → (idle s → idle s') →
  (∀ l, (∀ t, currentTask s = Some t → task_of_loop l t) →
        ∀ t, currentTask s' = Some t → task_of_loop l t) →
  in_order {| shared := s'; procs := ps |}.
Proof.
  intros [_ Hst] Hs' Hi Hl. split; [done|]. cbn [shared procs] in *.
  destruct Hst as [[He Hid] | [(pid & a & Hp & Hal & Hbs & Hid)
                               | (pid & l & Hp & Hal & Hlo & Ht)]].
  - left. split; [done | by apply Hi].
  - right. left. exists pid, a. split; [done|]. split; [done|].
    split; [done | by apply Hi].
  - right. right. exists pid, l. split; [done|]. split; [done|].
    split; [done | by apply Hl].
Qed.

Lemma task_ok_status (v : Status) (t : TranslationTask) :
  task_ok t → status t ≠ completed → task_ok (set_status v t).
Proof.
  intros (Hbs & H0 & Hhits & Hle & Hp) Hst. unfold task_ok. simpl.
  split; [done|]. split; [done|]. split; [done|]. split; [done|].
  left. simpl. destruct Hp as [Hp | (Hcomp & _)]; [done | congruence].
Qed.

Lemma pause_in_order (s : State) :
  sound s →
  sound (pauseTranslation s) ∧ idle (pauseTranslation s)
  ∧ rises s (pauseTranslation s)
  ∧ ∀ l, (∀ t, currentTask s = Some t → task_of_loop l t) →
         ∀ t, currentTask (pauseTranslation s) = Some t → task_of_loop l t.
Proof.
  intros Hs. unfold pauseTranslation.
  destruct (currentTask s) as [t|] eqn:Ht.
  - destruct (decide (status t = running)) as [Hr | Hr].
    + split; [|split; [|split]].
      * eapply sound_fields;
          [| |apply (sound_notify (set_currentTask (Some (set_status paused t)) s))];
          [done | done |].
        apply sound_task; [|done]. apply snapshot_ok_Some, task_ok_status.
        -- by apply (proj2 Hs).
        -- congruence.
      * intros t' [= <-]. by simpl.
      * intros t0 t' Ht0 _ [= <-]. rewrite Ht in Ht0. injection Ht0 as <-. simpl. lia.
      * intros l Hl t' [= <-]. destruct (Hl t eq_refl) as (H1 & H2 & H3 & H4).
        unfold task_of_loop. simpl. auto.
    + split; [done|]. split; [|split; [by apply rises_same|]].
      * intros t' Ht'. rewrite Ht in Ht'. by injection Ht' as <-.
      * intros l Hl t0 Ht0. apply Hl. congruence.
  - split; [done|]. split; [|split; [by apply rises_same|]].
    + intros t' Ht'. by rewrite Ht in Ht'.
    + intros l Hl t0 Ht0. apply Hl. congruence.
Qed.

Lemma stop_in_order (s : State) :
  sound s →
  sound (stopTranslation s) ∧ idle (stopTranslation s)
  ∧ rises s (stopTranslation s)
  ∧ ∀ l, (∀ t, currentTask s = Some t → task_of_loop l t) →
         ∀ t, currentTask (stopTranslation s) = Some t → task_of_loop l t.
Proof.
  intros Hs. unfold stopTranslation.
  destruct (currentTask s) as [t|] eqn:Ht.
  - split; [|split; [|split]].
    + eapply sound_fields;
        [| |apply (sound_notify (set_currentTask None s))]; [done | done |].
      apply sound_task; [apply snapshot_ok_None | done].
    + by intros t'.
    + by intros t0 t' _ _ Hx.
    + by intros l Hl t'.
  - split; [done|]. split; [|split; [by apply rises_same|]].
    + intros t' Ht'. by rewrite Ht in Ht'.
    + intros l Hl t0 Ht0. apply Hl. congruence.
Qed.

Lemma clear_in_order (s : State) :
  sound s →
  sound (clearCompletedTask s) ∧ (idle s → idle (clearCompletedTask s))
  ∧ rises s (clearCompletedTask s)
  ∧ ∀ l, (∀ t, currentTask s = Some t → task_of_loop l t) →
         ∀ t, currentTask (clearCompletedTask s) = Some t → task_of_loop l t.
Proof.
  intros Hs. unfold clearCompletedTask.
  destruct (currentTask s) as [t|] eqn:Ht.
  - destruct (decide (status t = completed)) as [Hc | Hc].
    + split; [|split; [|split]].
      * apply sound_notify, sound_task; [apply snapshot_ok_None | done].
      * by intros _ t'.
      * by intros t0 t' _ _ Hx.
      * by intros l Hl t'.
    + split; [done|]. split; [done|]. split; [by apply rises_same|].
      intros l Hl t0 Ht0. apply Hl. congruence.
  - split; [done|]. split; [done|]. split; [by apply rises_same|].
    intros l Hl t0 Ht0. apply Hl. congruence.
Qed.

(** The state in which a resumed task is put in place. *)
Lemma resumed_sound (t : TranslationTask) (s : State) :
  sound s → currentTask s = Some t → status t = paused →
  sound (resumed t s).
Proof.
  intros Hs Ht Hp. unfold resumed.
  eapply sound_fields;
    [| |apply (sound_notify (set_currentTask (Some (resumed_task t)) s))];
    [done | done |].
  apply sound_task; [|done]. apply snapshot_ok_Some.
  apply resumed_task_ok; [by apply (proj2 Hs) | done].
Qed.

Lemma created_sound (a : Start) (need : list Sentence) (s : State) :
  sound s → 1 ≤ a_batchSize a → (length need ≤ length (a_allSentences a))%nat →
  sound (created a need s).
Proof.
  intros Hs Hbs Hlen. unfold created.
  eapply sound_fields;
    [| |apply (sound_notify
                 (set_currentTask (Some (created_task a need (now s))) s))];
    [done | done |].
  apply sound_task; [|done]. by apply snapshot_ok_Some, created_task_ok.
Qed.

Lemma in_order_step (sys : System) (ev : Event) :
  in_order sys → allowed sys ev →
  in_order (step sys ev) ∧ rises (shared sys) (shared (step sys ev)).
Proof.
  intros Hin Hev. destruct sys as [s ps]. pose proof Hin as [Hs Hst].
  cbn [shared procs] in *.
  destruct ev as [a| | | | |pid r|time|model]; unfold step; cbn [shared procs].
  - (* startTranslation *)
    destruct Hev as [He Hbs].
    assert (Hid : idle s).
    { destruct Hst as [[_ Hid] | [(pid & a' & Hp & _) | (pid & l & Hp & _)]];
        [done | | ]; by pose proof (at_ease_lookup _ _ _ He Hp). }
    assert (Hsame : match currentTask s with
                    | Some t => if decide (status t = running)
                                then stopTranslation s else s
                    | None => s
                    end = s).
    { destruct (currentTask s) as [t|] eqn:Ht; [|done].
      destruct (decide (status t = running)) as [Hr|]; [|done].
      by destruct (Hid t Ht). }
    unfold startTranslation. rewrite Hsame.
    destruct (chatModel s); cbn [shared procs].
    + split; [|by apply rises_same]. split; [done|].
      right. left. exists (length ps), a. cbn [shared procs].
      split; [by apply list_lookup_middle|].
      split; [by apply at_ease_alone|]. done.
    + split; [|by apply rises_same]. split; [by eapply sound_fields|].
      left. split; [|done]. unfold at_ease in *. simpl. by rewrite app_nil_r.
  - (* pauseTranslation *)
    destruct (pause_in_order s Hs) as (Hs' & Hid' & Hr & Hl).
    split; [|done]. by apply (in_order_state s).
  - (* resumeTranslation *)
    assert (Hid : idle s).
    { destruct Hst as [[_ Hid] | [(pid & a' & Hp & _) | (pid & l & Hp & _)]];
        [done | | ]; by pose proof (at_ease_lookup _ _ _ Hev Hp). }
    split; [|by apply rises_idle].
    destruct (currentTask s) as [t|] eqn:Ht.
    + destruct (decide (status t = paused)) as [Hp | Hp].
      * rewrite (resume_relaunches s t Ht Hp).
        pose proof (resumed_sound t s Hs Ht Hp) as Hs'.
        destruct (resumed_task_ok t) as [Hok Hcount];
          [by apply (proj2 Hs) | done |].
        destruct (remainingSentences t) as [|y ys] eqn:Hrem; cbn [shared procs].
        -- destruct (after_loop_in_order (totalSentences t) (resumed t s)
                       (resumed_task t)) as (Hs'' & Hid'' & _); [done..|].
           split; [done|]. left. split; [by apply at_ease_app | done].
        -- split; [by eapply sound_fields; [| |exact Hs']|].
           right. right. exists (length ps), (first_window (resumed_task t)).
           cbn [shared procs].
           split; [by apply list_lookup_middle|].
           split; [by apply at_ease_alone|].
           destruct (first_window_in_order (resumed_task t)) as [Hl Htl];
             [done | by simpl; rewrite Hrem | done | done |].
           split; [done|]. intros t' Ht'. simpl in Ht'. by injection Ht' as <-.
      * rewrite resume_elsewhere.
        -- cbn [shared procs]. rewrite app_nil_r. done.
        -- intros t' Ht'. rewrite Ht in Ht'. by injection Ht' as <-.
    + rewrite resume_elsewhere.
      * cbn [shared procs]. rewrite app_nil_r. done.
      * intros t' Ht'. by rewrite Ht in Ht'.
  - (* stopTranslation *)
    destruct (stop_in_order s Hs) as (Hs' & Hid' & Hr & Hl).
    split; [|done]. by apply (in_order_state s).
  - (* clearCompletedTask *)
    destruct (clear_in_order s Hs) as (Hs' & Hid' & Hr & Hl).
    split; [|done]. by apply (in_order_state s).
  - (* a promise is settled *)
    destruct (ps !! pid) as [[a|l|]|] eqn:Hpid;
      [| | split; [done | by apply rises_same] | split; [done | by apply rises_same]].
    + (* the lookup of a start *)
      destruct Hst as [[He _] | [(pid' & a' & Hp & Hal & Hbs & Hid)
                                 | (pid' & l & Hp & Hal & _)]].
      * by pose proof (at_ease_lookup _ _ _ He Hpid).
      * assert (pid = pid') as <-
          by by apply (alone_other _ _ _ _ Hal Hpid).
        rewrite Hpid in Hp. injection Hp as <-.
        split; [|by apply rises_idle].
        rewrite resume_start_creates.
        pose proof (length_uncached a r s) as Hlen.
        destruct (uncached a r s) as [|x need] eqn:Hneed; cbn [shared procs].
        -- split; [by eapply sound_fields|]. left.
           split; [|done]. unfold at_ease. simpl. rewrite app_nil_r.
           by apply alone_ended.
        -- pose proof (created_sound a (x :: need) s Hs Hbs Hlen) as Hs'.
           split; [by eapply sound_fields; [| |exact Hs']|].
           right. right.
           exists (length (<[pid := Ended]> ps)),
             (first_window (created_task a (x :: need) (now s))).
           cbn [shared procs].
           split; [by apply list_lookup_middle|].
           split; [by apply at_ease_alone, alone_ended|].
           destruct (first_window_in_order (created_task a (x :: need) (now s)))
             as [Hl Htl]; [by apply created_task_ok | done | done | done |].
           split; [done|]. intros t' Ht'. simpl in Ht'. by injection Ht' as <-.
      * assert (pid = pid') as <-
          by by apply (alone_other _ _ _ _ Hal Hpid).
        rewrite Hpid in Hp. done.
    + (* the loop *)
      destruct Hst as [[He _] | [(pid' & a' & Hp & Hal & _)
                                 | (pid' & l' & Hp & Hal & Hlo & Htl)]].
      * by pose proof (at_ease_lookup _ _ _ He Hpid).
      * assert (pid = pid') as <-
          by by apply (alone_other _ _ _ _ Hal Hpid).
        rewrite Hpid in Hp. done.
      * assert (pid = pid') as <-
          by by apply (alone_other _ _ _ _ Hal Hpid).
        rewrite Hpid in Hp. injection Hp as <-.
        destruct (settle_loop_in_order s ps pid l r Hs Hpid Hal Hlo Htl) as [H1 H2].
        by destruct (resume_loop l r s) as [s' p'].
  - split; [|by apply rises_same]. by apply (in_order_state s).
  - split; [|by apply rises_same]. by apply (in_order_state s).
Qed.

Lemma in_order_run (evs : list Event) (sys : System) :
  in_order sys → orderly sys evs → in_order (run sys evs).
Proof.
  revert sys. induction evs as [|ev evs IH]; intros sys Hin Hor; [done|].
  destruct Hor as [Hev Hor]. simpl. apply IH; [|done].
  by apply in_order_step.
Qed.

Lemma in_order_initial (t : Db.Table) (model : bool) : in_order (initial t model).
Proof.
  split; [split; [apply Forall_nil_2 | apply snapshot_ok_None]|].
  left. split; [apply Forall_nil_2 | by intros t'].
Qed.

End OrderFacts2.

Module CompletionFacts.
Import Js Service Runs Conduct ConductFacts QuietFacts Order OrderFacts OrderWords
  OrderFacts2 OrderWords2 LoopFacts.

#[local] Arguments progress_expr : simpl never.
#[local] Arguments Db.saveTranslation : simpl never.
#[local] Arguments translations_of : simpl never.
#[local] Arguments slice : simpl never.
#[local] Arguments slice_from : simpl never.
#[local] Arguments Db.getBatchTranslations : simpl never.

Lemma closing_loop (l : Loop) (t : TranslationTask) :
  loop_ok l → l_await l ≠ AwaitDelay → task_of_loop l t →
  loop_ok (set_await AwaitDelay (count_window l))
  ∧ task_of_loop (set_await AwaitDelay (count_window l)) (counted l t)
  ∧ status (counted l t) = status t.
Proof.
  intros Hl Ha (Hs & Htot & Hc & Hst).
  destruct (window_end_bounds l Hl) as [Hw Hlen].
  destruct Hl as (Hlbs & Hi & Hltot & Hb & Hlc).
  assert (Hlc' : l_completed l
                 = l_totalSentences l - Z.of_nat (length (l_sentences l)) + l_i l)
    by by destruct (l_await l).
  unfold counted, units. simpl. split; [|done].
  unfold loop_ok, window_end in *. simpl. repeat split; try done; lia.
Qed.

Lemma under_way_proceeds (s : State) (t : TranslationTask) :
  currentTask s = Some t → status t = running →
  abortController s ≠ Some true → abort_check s = Proceed.
Proof.
  intros Ht Hr Hab. rewrite (abort_check_with_task s t Ht).
  rewrite bool_decide_eq_false_2 by done. by rewrite bool_decide_eq_true_2.
Qed.

Lemma steps_left_set_await (a' : Await) (l : Loop) :
  (awaits_left (length (l_batch l)) a'
   < awaits_left (length (l_batch l)) (l_await l))%nat →
  (steps_left (set_await a' l) < steps_left l)%nat.
Proof. unfold steps_left, window_end. simpl. lia. Qed.

Lemma steps_left_closing (l : Loop) :
  l_await l ≠ AwaitDelay →
  (steps_left (set_await AwaitDelay (count_window l)) < steps_left l)%nat.
Proof.
  intros Ha. unfold steps_left, window_end. simpl.
  destruct (l_await l); simpl; (done || lia).
Qed.

Lemma after_loop_running (total : Z) (s : State) (t : TranslationTask) :
  currentTask s = Some t → status t = running →
  ∃ t', currentTask (after_loop total s) = Some t'
        ∧ status t' = completed ∧ completedSentences t' = total
        ∧ progress t' = of_Z 100 ∧ is_Some (endTime t')
        ∧ last (notified (after_loop total s)) = Some (Some t')
        ∧ last (toasts (after_loop total s)) = Some success_completed
        ∧ requests (after_loop total s) = requests s.
Proof.
  intros Ht Hr. unfold after_loop. rewrite Ht, decide_True by done.
  eexists. split; [reflexivity|]. simpl.
  split; [done|]. split; [done|]. split; [done|]. split; [by eexists|].
  split; [apply last_snoc|]. split; [apply last_snoc | done].
Qed.

(** An undisturbed loop ends, and leaves the task completed. *)
Lemma loop_completes (pid : nat) (n : nat) :
  ∀ (sys : System) (l : Loop) (t : TranslationTask) (answers : list Reply),
    under_way sys pid l t →
    (steps_left l ≤ n)%nat → (n ≤ length answers)%nat →
    ∃ k, (k ≤ n)%nat
         ∧ completed_from sys (run sys (settle pid <$> take k answers)) pid l
             (window_end l).
Proof.
  induction n as [|n IH]; intros sys l t answers Hu Hn Hlen.
  { unfold steps_left in Hn. lia. }
  destruct Hu as (Hpid & Hl & Ht & Htl & Hr & Hab).
  destruct answers as [|r answers]; [simpl in Hlen; lia|].
  destruct sys as [s ps]. cbn [shared procs] in *.
  assert (Hlt : (pid < length ps)%nat) by by eapply lookup_lt_Some.
  assert (Hstep : step {| shared := s; procs := ps |} (settle pid r)
                  = {| shared := (resume_loop l r s).1;
                       procs := <[pid := (resume_loop l r s).2]> ps |}).
  { unfold step. cbn [shared procs]. rewrite Hpid. by destruct (resume_loop l r s). }
  assert (Hgo : ∀ (sys' : System) (l' : Loop) (t' : TranslationTask) (from : Z),
            step {| shared := s; procs := ps |} (settle pid r) = sys' →
            under_way sys' pid l' t' →
            (steps_left l' < steps_left l)%nat →
            l_totalSentences l' = l_totalSentences l →
            l_sentences l' = l_sentences l →
            asked_in_batches (requests (shared sys'))
              ++ drop (Z.to_nat (window_end l')) (l_sentences l)
            = asked_in_batches (requests s)
              ++ drop (Z.to_nat (window_end l)) (l_sentences l) →
            ∃ k, (k ≤ S n)%nat
                 ∧ completed_from {| shared := s; procs := ps |}
                     (run {| shared := s; procs := ps |}
                        (settle pid <$> take k (r :: answers))) pid l
                     (window_end l)).
  { intros sys' l' t' from Hst Hu' Hdec Htot Hsen Hask.
    destruct (IH sys' l' t' answers Hu') as (k & Hk & Hp' & Ht' & Hask');
      [lia | simpl in Hlen; lia |].
    exists (S k). split; [lia|]. cbn [take fmap list_fmap run foldl].
    change (foldl step ?x ?y) with (run x y). rewrite Hst.
    split; [done|]. split; [by rewrite <- Htot|].
    rewrite Hask', Hsen. done. }
  destruct (resume_loop_outcome l r s t Ht)
    as [a' s' Ha Ha' Hdec Hc Hask | s1 Ha Hc Hreq | Ha Hlt' Hchk | Ha Hge];
    cbn [fst snd] in Hstep.
  - (* the window goes on *)
    apply (Hgo _ (set_await a' l) t 0 Hstep); [| |done|done|].
    + unfold under_way. cbn [shared procs].
      split; [by rewrite list_lookup_insert_eq|].
      split; [by apply loop_ok_set_await|].
      split; [by rewrite (control_of_task _ _ Hc)|].
      split; [done|]. split; [done|]. by injection Hc as _ -> _.
    + by apply steps_left_set_await.
    + cbn [shared]. by rewrite Hask.
  - (* the window closes *)
    destruct (closing_loop l t Hl Ha Htl) as (Hl' & Htl' & Hst').
    apply (Hgo _ (set_await AwaitDelay (count_window l)) (counted l t) 0 Hstep);
      [| |done|done|].
    + unfold under_way. cbn [shared procs].
      split; [by rewrite list_lookup_insert_eq|].
      split; [done|]. split; [done|]. split; [done|].
      split; [congruence|]. simpl. by injection Hc as _ -> _.
    + by apply steps_left_closing.
    + cbn [shared]. simpl. by rewrite Hreq.
  - (* the next window *)
    destruct (next_window_in_order l s Hl Ha Hlt' Hchk)
      as (l' & Hit & Hl' & Ha' & Hsen & Htot & Hcom & Hi').
    rewrite Hit in Hstep. cbn [fst snd] in Hstep.
    destruct (window_end_bounds l' Hl') as [Hw' Hlen'].
    rewrite Hi', Hsen in Hw'.
    apply (Hgo _ l' t 0 Hstep); [| |done|done|].
    + unfold under_way. cbn [shared procs].
      split; [by rewrite list_lookup_insert_eq|].
      split; [done|]. split; [done|].
      split; [|done]. destruct Htl as (H1 & H2 & H3 & H4).
      unfold task_of_loop. by rewrite Hsen, Htot, Hcom.
    + unfold steps_left. rewrite Ha, Ha', Hsen. cbn [awaits_left].
      assert (Z.of_nat (length (l_batch l')) = window_end l' - window_end l) by lia.
      destruct Hl as (Hbs1 & Hi1 & _).
      assert (0 ≤ window_end l) by (unfold window_end; lia).
      lia.
    + cbn [shared]. simpl. rewrite asked_in_batches_app. simpl.
      rewrite app_nil_r, <- app_assoc. f_equal.
      destruct Hl' as (_ & _ & _ & Hb' & _). rewrite Hb', Hsen, Hi'.
      apply slice_drop; [|lia].
      destruct Hl as (Hbs1 & Hi1 & _).
      assert (0 ≤ window_end l) by (unfold window_end; lia). lia.
  - (* the loop ends *)
    assert (Hproceed : abort_check s = Proceed) by by eapply under_way_proceeds.
    destruct Hge as [Hge | Hbrk]; [|congruence].
    destruct (after_loop_running (l_totalSentences l) s t Ht Hr)
      as (t' & Ht' & Hst' & Hcom' & Hpr' & Hend' & Hno' & Hto' & Hreq').
    exists 1%nat. split; [lia|]. change (take 1 (r :: answers)) with [r].
    cbn [fmap list_fmap run foldl]. rewrite Hstep. split; [cbn [procs]; by rewrite list_lookup_insert_eq|].
    cbn [shared]. split; [by exists t'|].
    rewrite Hreq'. unfold window_end. rewrite Z.min_r by lia.
    by rewrite Nat2Z.id, drop_all, app_nil_r.
Qed.

End CompletionFacts.

Module ManagerFacts.
Import Js Service Prompt Manager ManagerWords ParseFacts.

(** *** The sentences of a paragraph *)

Lemma match_sentences_go_tail (tail : jsstring) :
  Forall (λ c, is_terminator c = false) tail →
  ∀ run, match_sentences_go run tail = [].
Proof.
  induction 1 as [|c tail Hc _ IH]; intros run; [done|].
  simpl. by rewrite Hc.
Qed.

Lemma match_sentences_go_app (s tail : jsstring) :
  Forall (λ c, is_terminator c = false) tail →
  ∀ run, match_sentences_go run (s ++ tail) = match_sentences_go run s.
Proof.
  intros Htail. induction s as [|c s IH]; intros run.
  - by apply match_sentences_go_tail.
  - simpl. destruct (is_terminator c); [|apply IH].
    destruct run; by rewrite IH.
Qed.

Lemma match_sentences_go_shape (s : jsstring) :
  ∀ run m,
    Forall (λ c, is_terminator c = false) run →
    m ∈ match_sentences_go run s →
    ∃ body c, m = body ++ [c] ∧ body ≠ []
              ∧ Forall (λ c, is_terminator c = false) body
              ∧ is_terminator c = true.
Proof.
  induction s as [|c s IH]; intros run m Hrun Hm; [by apply elem_of_nil in Hm|].
  simpl in Hm. destruct (is_terminator c) eqn:Hc.
  - destruct run as [|d run].
    + by apply (IH [] m).
    + apply elem_of_cons in Hm as [-> | Hm]; [|by apply (IH [] m)].
      exists (reverse (d :: run)), c. split; [done|]. split.
      * rewrite reverse_cons. by destruct (reverse run).
      * split; [|done]. apply Forall_reverse. done.
  - apply (IH (c :: run) m); [|done]. by constructor.
Qed.

(** *** Collecting *)

Lemma collected_weaken (c k c' k' : Z) (all : list Sentence) :
  collected c k all → (c < c' ∧ 0 ≤ k' ∨ c = c' ∧ k ≤ k') →
  collected c' k' all.
Proof.
  intros [Hall Hord] Hle. split; [|done].
  intros x Hx. destruct (Hall x Hx) as (Ht & Hc & Hs & Hb).
  split; [done|]. split; [done|]. split; [done|].
  unfold below in *. lia.
Qed.

Lemma collected_push (c k : Z) (all : list Sentence) (x : Sentence) :
  collected c k all → trim (text x) ≠ [] → 0 ≤ c → 0 ≤ k →
  chapterIndex x = c → k ≤ sentenceIndex x →
  collected c (sentenceIndex x + 1) (all ++ [x]).
Proof.
  intros [Hall Hord] Ht Hc Hk Hxc Hxs. split.
  - intros y [Hy | ->%list_elem_of_singleton]%elem_of_app.
    + destruct (Hall y Hy) as (Hty & Hcy & Hsy & Hb).
      split; [done|]. split; [done|]. split; [done|]. unfold below in *. lia.
    + split; [done|]. split; [lia|]. split; [lia|]. unfold below. lia.
  - intros i j y z Hi Hj Hij.
    apply lookup_app_Some in Hj as [Hj | [Hge Hj]].
    + rewrite lookup_app_l in Hi by (apply lookup_lt_Some in Hj; lia).
      by apply (Hord i j).
    + apply list_lookup_singleton_Some in Hj as [Hj <-].
      rewrite lookup_app_l in Hi by lia.
      destruct (Hall y (list_elem_of_lookup_2 _ _ _ Hi)) as (_ & _ & _ & Hb).
      unfold before, below in *. lia.
Qed.

Lemma visible_trim (s : jsstring) : visible s = true → trim s ≠ [].
Proof.
  unfold visible. intros [_ H]%andb_prop. by destruct (trim s).
Qed.

Lemma trim_trim_kept (s : jsstring) : trim s ≠ [] → trim (trim s) ≠ [].
Proof.
  intros H. destruct (trim s) as [|c u] eqn:Hu; [done|]. rewrite <- Hu.
  apply (trim_head_kept _ c); [by rewrite Hu|].
  apply (trim_edges s). left. by rewrite Hu.
Qed.

Lemma foldl_imap_pair_snoc {A B} (f : B → nat * A → B) (b : B) (l : list A) (x : A) :
  foldl f b (imap pair (l ++ [x])) = f (foldl f b (imap pair l)) (length l, x).
Proof.
  rewrite imap_app, foldl_app. simpl. by rewrite Nat.add_0_r.
Qed.

Lemma processed_collected (c : Z) (sentences : list jsstring)
    (all : list Sentence) :
  0 ≤ c → collected c 0 all →
  collected c (Z.of_nat (length sentences))
    (foldl (push_processed c) all (imap pair sentences)).
Proof.
  intros Hc Hall. induction sentences as [|s sentences IH] using rev_ind; [done|].
  rewrite foldl_imap_pair_snoc, length_app. simpl.
  unfold push_processed at 1. simpl.
  destruct (visible s) eqn:Hv.
  - replace (Z.of_nat (length sentences + 1))
      with (sentenceIndex {| text := s; chapterIndex := c;
                             sentenceIndex := Z.of_nat (length sentences) |} + 1)
      by (simpl; lia).
    apply (collected_push c (Z.of_nat (length sentences))); simpl;
      [done | by apply visible_trim | lia..].
  - eapply collected_weaken; [exact IH | lia].
Qed.

Lemma split_collected (c : Z) (sentences : list jsstring) :
  ∀ st : list Sentence * Z,
    0 ≤ c → 0 ≤ st.2 → collected c st.2 st.1 →
    0 ≤ (foldl (push_split c) st sentences).2
    ∧ collected c (foldl (push_split c) st sentences).2
        (foldl (push_split c) st sentences).1.
Proof.
  induction sentences as [|s sentences IH]; intros [all k] Hc Hk Hall; [done|].
  simpl. apply IH; [done|..]; unfold push_split; simpl in *;
    destruct (visible s) eqn:Hv; simpl; try lia; try done.
  apply (collected_push c k all
           {| text := trim s; chapterIndex := c; sentenceIndex := k |});
    simpl; [done | by apply trim_trim_kept, visible_trim | lia..].
Qed.

Lemma paragraphs_collected (c : Z) (ps : list jsstring) :
  ∀ st : list Sentence * Z,
    0 ≤ c → 0 ≤ st.2 → collected c st.2 st.1 →
    0 ≤ (foldl (push_paragraph c) st ps).2
    ∧ collected c (foldl (push_paragraph c) st ps).2
        (foldl (push_paragraph c) st ps).1.
Proof.
  induction ps as [|p ps IH]; intros st Hc Hk Hall; [done|].
  simpl. destruct (split_collected c (sentences_of_paragraph p) st Hc Hk Hall).
  by apply IH.
Qed.

Lemma chapter_collected (progress : ReadingProgress) (n : nat) (ch : Chapter)
    (all : list Sentence) :
  collected (Z.of_nat n) 0 all →
  collected (Z.of_nat (S n)) 0 (push_chapter progress all (n, ch)).
Proof.
  intros Hall. unfold push_chapter. simpl.
  destruct (sentenceChapters progress !! n) as [sentences|].
  - eapply collected_weaken; [apply processed_collected; [lia | done] | lia].
  - destruct (paragraphs_collected (Z.of_nat n) (paragraphs ch) (all, 0))
      as [Hk Hc]; [lia | done | done |].
    eapply collected_weaken; [exact Hc | lia].
Qed.

Lemma chapters_collected (progress : ReadingProgress) (chapters : list Chapter) :
  collected (Z.of_nat (length chapters)) 0
    (foldl (push_chapter progress) [] (imap pair chapters)).
Proof.
  induction chapters as [|ch chapters IH] using rev_ind.
  - split; [by intros x Hx%elem_of_nil | by intros i j x y Hi].
  - rewrite foldl_imap_pair_snoc, length_app. simpl.
    replace (length chapters + 1)%nat with (S (length chapters)) by lia.
    by apply chapter_collected.
Qed.

(** *** The sentences chapter by chapter *)

Lemma processed_closed (n : nat) (sentences : list jsstring) (all : list Sentence) :
  foldl (push_processed (Z.of_nat n)) all (imap pair sentences)
  = all ++ (stored_sentence n
              <$> filter (λ p, visible p.2 = true) (imap pair sentences)).
Proof.
  induction sentences as [|s sentences IH] using rev_ind.
  - simpl. by rewrite app_nil_r.
  - rewrite foldl_imap_pair_snoc, IH, imap_app, filter_app, fmap_app.
    simpl. rewrite Nat.add_0_r. unfold push_processed. simpl.
    destruct (visible s) eqn:Hv.
    + rewrite filter_cons_True by done. by rewrite <- app_assoc.
    + rewrite filter_cons_False by (simpl; congruence).
      simpl. by rewrite app_nil_r.
Qed.

Lemma split_closed (n : nat) (sentences : list jsstring) :
  ∀ (all : list Sentence) (k : nat),
    foldl (push_split (Z.of_nat n)) (all, Z.of_nat k) sentences
    = (all ++ imap (λ j, split_sentence n (k + j))
                (filter (λ s, visible s = true) sentences),
       Z.of_nat (k + length (filter (λ s, visible s = true) sentences))).
Proof.
  induction sentences as [|s sentences IH]; intros all k.
  - simpl. by rewrite app_nil_r, Nat.add_0_r.
  - cbn [foldl]. unfold push_split at 2. cbn [fst snd].
    destruct (visible s) eqn:Hv.
    + rewrite filter_cons_True by done.
      replace (Z.of_nat k + 1) with (Z.of_nat (S k)) by lia.
      rewrite IH. cbn [imap length]. rewrite Nat.add_0_r, <- app_assoc.
      cbn [app]. f_equal; [|f_equal; lia].
      f_equal. f_equal. apply imap_ext. intros j x _. simpl. f_equal. lia.
    + rewrite filter_cons_False by congruence. apply IH.
Qed.

Lemma paragraphs_closed (n : nat) (ps : list jsstring) :
  ∀ (all : list Sentence) (k : nat),
    foldl (push_paragraph (Z.of_nat n)) (all, Z.of_nat k) ps
    = (all ++ imap (λ j, split_sentence n (k + j))
                (filter (λ s, visible s = true) (ps ≫= sentences_of_paragraph)),
       Z.of_nat (k + length (filter (λ s, visible s = true)
                               (ps ≫= sentences_of_paragraph)))).
Proof.
  induction ps as [|p ps IH]; intros all k.
  - simpl. by rewrite app_nil_r, Nat.add_0_r.
  - cbn [foldl]. unfold push_paragraph at 2. rewrite split_closed, IH.
    rewrite bind_cons, filter_app, imap_app, length_app, <- app_assoc.
    f_equal; [|f_equal; lia]. f_equal. f_equal.
    apply imap_ext. intros j x _. simpl. f_equal. lia.
Qed.

Lemma chapter_closed (progress : ReadingProgress) (n : nat) (ch : Chapter)
    (all : list Sentence) :
  push_chapter progress all (n, ch) = all ++ chapter_sentences progress n ch.
Proof.
  unfold push_chapter, chapter_sentences. simpl.
  destruct (sentenceChapters progress !! n) as [sentences|].
  - apply processed_closed.
  - change 0 with (Z.of_nat 0). by rewrite paragraphs_closed.
Qed.

Lemma chapters_closed (progress : ReadingProgress) (chapters : list Chapter) :
  foldl (push_chapter progress) [] (imap pair chapters)
  = concat (imap (chapter_sentences progress) chapters).
Proof.
  induction chapters as [|ch chapters IH] using rev_ind; [done|].
  rewrite foldl_imap_pair_snoc, IH, chapter_closed, imap_app, concat_app.
  simpl. by rewrite Nat.add_0_r, app_nil_r.
Qed.

Lemma chapter_sentences_index (progress : ReadingProgress) (n : nat)
    (ch : Chapter) :
  Forall (λ x, chapterIndex x = Z.of_nat n) (chapter_sentences progress n ch).
Proof.
  unfold chapter_sentences. destruct (sentenceChapters progress !! n).
  - apply Forall_fmap, Forall_forall. done.
  - apply Forall_forall. intros x Hx.
    apply list_elem_of_lookup in Hx as [i Hi].
    rewrite list_lookup_imap in Hi.
    destruct (filter _ _ !! i); [|done]. by injection Hi as <-.
Qed.

Lemma filter_all {A} (P : A → Prop) `{!∀ x, Decision (P x)} (l : list A) :
  Forall P l → filter P l = l.
Proof.
  induction 1 as [|x l Hx _ IH]; [done|].
  by rewrite filter_cons_True, IH.
Qed.

Lemma filter_none {A} (P : A → Prop) `{!∀ x, Decision (P x)} (l : list A) :
  Forall (λ x, ¬ P x) l → filter P l = [].
Proof.
  induction 1 as [|x l Hx _ IH]; [done|].
  by rewrite filter_cons_False.
Qed.

Lemma chapter_of_concat (progress : ReadingProgress) (chapters : list Chapter)
    (n : nat) (ch : Chapter) :
  chapters !! n = Some ch →
  filter (λ x, chapterIndex x = Z.of_nat n)
    (concat (imap (chapter_sentences progress) chapters))
  = chapter_sentences progress n ch.
Proof.
  revert n ch. induction chapters as [|c chapters IH] using rev_ind;
    intros n ch Hn; [done|].
  rewrite imap_app, concat_app, filter_app. simpl.
  rewrite Nat.add_0_r, app_nil_r.
  apply lookup_app_Some in Hn as [Hn | [Hge Hn]].
  - rewrite (IH n ch Hn), filter_none, app_nil_r; [done|].
    eapply Forall_impl; [apply chapter_sentences_index|].
    simpl. intros x Hx. apply lookup_lt_Some in Hn. lia.
  - apply list_lookup_singleton_Some in Hn as [Hn <-].
    assert (n = length chapters) as -> by lia.
    rewrite (filter_all _ (chapter_sentences _ _ _))
      by apply chapter_sentences_index.
    rewrite filter_none; [done|].
    apply Forall_concat, Forall_forall. intros l Hl.
    apply list_elem_of_lookup in Hl as [i Hi].
    rewrite list_lookup_imap in Hi.
    destruct (chapters !! i) as [c'|] eqn:Hc; [|done]. injection Hi as <-.
    eapply Forall_impl; [apply chapter_sentences_index|].
    simpl. intros x Hx. apply lookup_lt_Some in Hc. lia.
Qed.

(** *** The chapters of the export *)

Lemma export_same_chapter (book : Book) (translations : gmap jsstring jsstring)
    (xs : list Sentence) :
  ∀ e, Forall (λ x, chapterIndex x = currentChapter e) xs →
    foldl (export_sentence book translations) e xs
    = {| currentChapter := currentChapter e;
         chapterContent :=
           chapterContent e ++ concat (block translations <$> xs);
         added := added e |}.
Proof.
  induction xs as [|x xs IH]; intros e Hxs.
  - simpl. rewrite app_nil_r. by destruct e.
  - apply Forall_cons in Hxs as [Hx Hxs]. cbn [foldl].
    assert (Hstep : export_sentence book translations e x
                    = {| currentChapter := currentChapter e;
                         chapterContent := chapterContent e ++ block translations x;
                         added := added e |}).
    { unfold export_sentence. by rewrite Hx, Z.eqb_refl. }
    rewrite Hstep, IH by done. cbn [currentChapter chapterContent added fmap list_fmap concat].
    by rewrite <- app_assoc.
Qed.

Lemma export_new_chapter (book : Book) (translations : gmap jsstring jsstring)
    (c : Z) (xs : list Sentence) (e : Export) :
  xs ≠ [] → c ≠ currentChapter e → Forall (λ x, chapterIndex x = c) xs →
  foldl (export_sentence book translations) e xs
  = {| currentChapter := c;
       chapterContent :=
         heading (chapter_title book c) ++ concat (block translations <$> xs);
       added := add_chapter book e |}.
Proof.
  intros Hne Hc Hxs. destruct xs as [|x xs]; [done|].
  apply Forall_cons in Hxs as [Hx Hxs]. cbn [foldl].
  assert (Hstep : export_sentence book translations e x
                  = {| currentChapter := c;
                       chapterContent :=
                         heading (chapter_title book c) ++ block translations x;
                       added := add_chapter book e |}).
  { unfold export_sentence. rewrite Hx.
    destruct (Z.eqb_spec c (currentChapter e)); [done|]. done. }
  rewrite Hstep, export_same_chapter by done.
  cbn [currentChapter chapterContent added fmap list_fmap concat].
  by rewrite <- app_assoc.
Qed.

Lemma export_runs (book : Book) (translations : gmap jsstring jsstring)
    (runs : list (Z * list Sentence)) :
  ∀ e,
    Forall chapter_run runs → runs_differ runs →
    match runs with r :: _ => r.1 ≠ currentChapter e | [] => True end →
    add_chapter book
      (foldl (export_sentence book translations) e (concat (snd <$> runs)))
    = add_chapter book e
      ++ ((λ r, (chapter_title book r.1,
                 heading (chapter_title book r.1)
                 ++ concat (block translations <$> r.2))) <$> runs).
Proof.
  induction runs as [|[c xs] runs IH]; intros e Hruns Hdiff Hfirst.
  - simpl. by rewrite app_nil_r.
  - apply Forall_cons in Hruns as [(Hc & Hxs & Hall) Hruns]. simpl in Hc, Hxs, Hall, Hfirst.
    cbn [fmap list_fmap concat snd]. rewrite foldl_app.
    rewrite (export_new_chapter book translations c xs e) by done.
    rewrite IH; [|done|..].
    + unfold add_chapter at 1. cbn [currentChapter chapterContent added].
      destruct (Z.eqb_spec c (-1)); [done|]. simpl negb. cbn [andb].
      unfold heading at 1. simpl truthy. cbn iota. by rewrite <- app_assoc.
    + destruct runs; [done|]. by destruct Hdiff.
    + destruct runs as [|r runs]; [done|]. simpl. destruct Hdiff as [Hd _]. simpl in Hd. congruence.
Qed.

(** *** Collecting, then exporting *)

Lemma concat_filter_nonempty {A} (l : list (Z * list A)) :
  concat (snd <$> filter (λ r, r.2 ≠ []) l) = concat (snd <$> l).
Proof.
  induction l as [|[c xs] l IH]; [done|].
  destruct (decide (xs = [])) as [-> | Hne].
  - rewrite filter_cons_False by (simpl; intros H; by apply H).
    rewrite IH. done.
  - rewrite filter_cons_True by done. rewrite !fmap_cons. simpl concat.
    by rewrite IH.
Qed.

Lemma runs_from (progress : ReadingProgress) (chapters : list Chapter) :
  ∀ k : nat,
    let runs :=
      filter (λ r : Z * list Sentence, r.2 ≠ [])
        (imap (λ n ch, (Z.of_nat (k + n), chapter_sentences progress (k + n) ch))
           chapters) in
    Forall chapter_run runs ∧ runs_differ runs
    ∧ Forall (λ r, Z.of_nat k ≤ r.1) runs.
Proof.
  induction chapters as [|ch chapters IH]; intros k; cbv zeta.
  - by repeat split.
  - rewrite imap_cons.
    assert (Hext : imap ((λ n ch0, (Z.of_nat (k + n),
                                     chapter_sentences progress (k + n) ch0)) ∘ S)
                     chapters
                   = imap (λ n ch0, (Z.of_nat (S k + n),
                                      chapter_sentences progress (S k + n) ch0))
                       chapters).
    { apply imap_ext. intros n x _. simpl.
      by replace (k + S n)%nat with (S (k + n)) by lia. }
    rewrite Hext. destruct (IH (S k)) as (Hruns & Hdiff & Hlow).
    rewrite Nat.add_0_r.
    destruct (decide (chapter_sentences progress k ch = [])) as [He | Hne].
    + rewrite filter_cons_False by (simpl; intros H; by apply H).
      split; [done|]. split; [done|].
      eapply Forall_impl; [exact Hlow|]. simpl. intros r Hr. lia.
    + rewrite filter_cons_True by done. split; [|split].
      * constructor; [|done]. split; [simpl; lia|]. split; [done|].
        apply chapter_sentences_index.
      * destruct (filter _ _) as [|r runs] eqn:Hf; [done|].
        split; [|done]. apply Forall_inv in Hlow. simpl in *. lia.
      * constructor; [simpl; lia|].
        eapply Forall_impl; [exact Hlow|]. simpl. intros r Hr. lia.
Qed.

Lemma chapter_runs_spec (progress : ReadingProgress) (chapters : list Chapter) :
  Forall chapter_run (chapter_runs progress chapters)
  ∧ runs_differ (chapter_runs progress chapters)
  ∧ concat (snd <$> chapter_runs progress chapters)
    = concat (imap (chapter_sentences progress) chapters).
Proof.
  destruct (runs_from progress chapters 0) as (Hruns & Hdiff & _).
  split; [exact Hruns|]. split; [exact Hdiff|].
  unfold chapter_runs. by rewrite concat_filter_nonempty, fmap_imap.
Qed.

End ManagerFacts.

(* ===================================================================== *)
(** ** Further properties *)
(* ===================================================================== *)

Module HashProperties.
Import Js Db HashWords HashFacts.

(** X1.  [generateSentenceHash] computes the hash of Java's
    [String.hashCode]: the polynomial in 31 over the code units wrapped to a
    signed 32-bit integer, whose absolute value it then writes in base 36. *)
Theorem sentence_hash_is_the_polynomial_in_31 :
  ∀ text : jsstring,
    hash32 text = toInt32 (poly31 text)
    ∧ generateSentenceHash text = toString36 (Z.abs (toInt32 (poly31 text)))
    ∧ (∀ c : Z, hash32 (text ++ [c]) = toInt32 (31 * hash32 text + c)).
Proof.
  intros text. split; [apply hash32_poly31|]. split.
  - unfold generateSentenceHash. by rewrite hash32_poly31.
  - intros c. unfold hash32. rewrite foldl_app. simpl. apply hash_step_31.
Qed.

(** X2.  A sentence hash is a string of one to six characters, each a
    digit or a small letter; it stands for the absolute value of the 32-bit
    hash. *)
Theorem sentence_hash_is_a_short_base36_word :
  ∀ text : jsstring,
    (1 ≤ length (generateSentenceHash text) ≤ 6)%nat
    ∧ Forall is_base36 (generateSentenceHash text)
    ∧ value36 (generateSentenceHash text) = Z.abs (hash32 text).
Proof.
  intros text. unfold generateSentenceHash, toString36.
  pose proof (hash32_range text) as Hr.
  split; [|split].
  - apply toString36_go_length; [lia|].
    change (36 ^ Z.of_nat 6) with 2176782336. change (2 ^ 31) with 2147483648 in Hr.
    lia.
  - apply toString36_go_base36.
  - apply toString36_value. lia.
Qed.

(** X3.  Two texts have the same sentence hash exactly when their 32-bit
    hashes agree up to the sign. *)
Theorem sentence_hashes_agree_up_to_sign :
  ∀ a b : jsstring,
    generateSentenceHash a = generateSentenceHash b
    ↔ (hash32 a = hash32 b ∨ hash32 a = - hash32 b).
Proof.
  intros a b. unfold generateSentenceHash. split.
  - intros H. apply (f_equal value36) in H.
    rewrite !toString36_value in H by lia. lia.
  - intros [H | H]; rewrite H; [done|]. by rewrite Z.abs_opp.
Qed.

End HashProperties.

Module TableProperties.
Import Js Db TableWords TableFacts TableFacts2 CacheScenario.

#[local] Arguments generateSentenceHash : simpl never.

(** X4.  After [saveTranslation] went through, [getTranslation] for the same
    book and text finds a row that holds the saved translation, languages
    and time, and whose id is the one the save returned.  If a row was found
    for the book and the hash of the text it is that row, which keeps its
    id, text and creation time; otherwise it is a new last row with the
    counter's id.  A save that fails leaves the table as it was and returns
    nothing. *)
Theorem saved_translation_is_found :
  ∀ (now : Z) (t : Table) (b text tr : jsstring) (src tgt : option jsstring),
    (∃ r,
       getTranslation StorageOk
         (saveTranslation StorageOk now t b text tr src tgt).1 b text = Some r
       ∧ (saveTranslation StorageOk now t b text tr src tgt).2 = Some (id r)
       ∧ bookId r = b
       ∧ sentenceHash r = generateSentenceHash text
       ∧ translatedText r = tr
       ∧ sourceLanguage r = src ∧ targetLanguage r = tgt
       ∧ updatedAt r = now
       ∧ match getTranslation StorageOk t b text with
         | Some e =>
             id r = id e ∧ originalText r = originalText e
             ∧ createdAt r = createdAt e
             ∧ length (rows (saveTranslation StorageOk now t b text tr src tgt).1)
               = length (rows t)
         | None =>
             id r = autoIncrement t ∧ originalText r = text ∧ createdAt r = now
             ∧ rows (saveTranslation StorageOk now t b text tr src tgt).1
               = rows t ++ [r]
         end)
    ∧ saveTranslation StorageError now t b text tr src tgt = (t, None).
Proof. exact save_then_get. Qed.

(** X5.  Whatever sequence of saves, deletions of a book and clearings is
    applied to the empty table, each call running to its end before the
    next and going through or failing, the table stays consistent: ids are
    distinct and below the counter, no two rows share book and hash, and
    every row carries the hash of its own text. *)
Theorem written_tables_are_consistent :
  ∀ ws : list WriteCall, consistent (foldl write empty ws).
Proof. intros ws. apply consistent_writes, consistent_empty. Qed.



(** X7.  In a consistent table, a translation saved for a text is what a
    batch lookup that asks for the text returns for it, unless the book
    already held a row with the same hash for another text: then the
    translation is returned under that row's text, and the saved text stays
    a miss. *)
Theorem batch_lookup_after_save :
  ∀ (now : Z) (t : Table) (b text tr : jsstring) (src tgt : option jsstring)
    (texts : list jsstring),
    consistent t → text ∈ texts →
    let found :=
      getBatchTranslations StorageOk
        (saveTranslation StorageOk now t b text tr src tgt).1 b texts in
    match getTranslation StorageOk t b text with
    | Some e =>
        found !! originalText e = Some tr
        ∧ (originalText e ≠ text → found !! text = None)
    | None => found !! text = Some tr
    end.
Proof. intros. by apply batch_after_save. Qed.

Lemma batch_lookup_after_save_on_empty :
  getBatchTranslations StorageOk
    (saveTranslation StorageOk 7 empty (lit "book"%string) text_Aa
       (lit "aa"%string) None None).1
    (lit "book"%string) [text_BB; text_Aa] !! text_Aa
  = Some (lit "aa"%string).
Proof.
  apply (batch_lookup_after_save 7 empty (lit "book"%string) text_Aa
           (lit "aa"%string) None None [text_BB; text_Aa] consistent_empty).
  apply list_elem_of_further, list_elem_of_here.
Defined.

(** X8.  Two texts of one book whose hashes agree share one row: saving a
    translation of the second after one of the first adds no row, keeps the
    first text in the row and replaces its translation, so that both texts
    are then looked up to the second translation, and a batch lookup holds
    it under the first text and nothing under the second. *)
Theorem colliding_save_replaces_the_translation :
  ∀ (now now' : Z) (t : Table) (b first second tr tr' : jsstring)
    (texts : list jsstring),
    consistent t →
    generateSentenceHash first = generateSentenceHash second →
    first ≠ second →
    getTranslation StorageOk t b first = None →
    first ∈ texts → second ∈ texts →
    let t1 := (saveTranslation StorageOk now t b first tr None None).1 in
    let t2 := (saveTranslation StorageOk now' t1 b second tr' None None).1 in
    length (rows t2) = length (rows t1)
    ∧ (∃ r, getTranslation StorageOk t2 b first = Some r
            ∧ getTranslation StorageOk t2 b second = Some r
            ∧ originalText r = first ∧ translatedText r = tr')
    ∧ getBatchTranslations StorageOk t2 b texts !! first = Some tr'
    ∧ getBatchTranslations StorageOk t2 b texts !! second = None.
Proof.
  intros now now' t b first second tr tr' texts Hc Hh Hne Hnone Hf Hs. cbv zeta.
  set (t1 := (saveTranslation StorageOk now t b first tr None None).1).
  assert (Hc1 : consistent t1) by by apply consistent_save.
  destruct (save_then_get now t b first tr None None)
    as [(r1 & Hg1 & _ & _ & _ & _ & _ & _ & _ & Hcase) _].
  rewrite Hnone in Hcase. destruct Hcase as (_ & Ho1 & _ & _).
  fold t1 in Hg1.
  assert (Hg1' : getTranslation StorageOk t1 b second = Some r1)
    by (unfold getTranslation in *; by rewrite <- Hh).
  destruct (save_then_get now' t1 b second tr' None None)
    as [(r2 & Hg2 & _ & _ & _ & Htr2 & _ & _ & _ & Hcase) _].
  rewrite Hg1' in Hcase. destruct Hcase as (_ & Ho2 & _ & Hlen).
  split; [done|]. split.
  - exists r2. split; [|split; [done|split; [congruence|done]]].
    unfold getTranslation in *. by rewrite Hh.
  - pose proof (batch_after_save now' t1 b second tr' None None texts Hc1 Hs) as Hb.
    cbv zeta in Hb. rewrite Hg1' in Hb. destruct Hb as [Hb1 Hb2].
    rewrite Ho1 in *. split; [done|]. by apply Hb2.
Qed.

Lemma colliding_save_replaces_the_translation_of_Aa :
  getBatchTranslations StorageOk
    (saveTranslation StorageOk 8
       (saveTranslation StorageOk 7 empty (lit "book"%string) text_Aa
          (lit "aa"%string) None None).1
       (lit "book"%string) text_BB (lit "bb"%string) None None).1
    (lit "book"%string) [text_Aa; text_BB] !! text_Aa
  = Some (lit "bb"%string)
  ∧ getBatchTranslations StorageOk
      (saveTranslation StorageOk 8
         (saveTranslation StorageOk 7 empty (lit "book"%string) text_Aa
            (lit "aa"%string) None None).1
         (lit "book"%string) text_BB (lit "bb"%string) None None).1
      (lit "book"%string) [text_Aa; text_BB] !! text_BB
    = None.
Proof.
  refine (proj2 (proj2 (colliding_save_replaces_the_translation 7 8 empty
            (lit "book"%string) text_Aa text_BB (lit "aa"%string)
            (lit "bb"%string) [text_Aa; text_BB] consistent_empty _ _ _ _ _))).
  - by vm_compute.
  - by vm_compute.
  - by vm_compute.
  - apply list_elem_of_here.
  - apply list_elem_of_further, list_elem_of_here.
Defined.

(** X9.  After [deleteBookTranslations] went through, no lookup for the book
    finds anything, and every lookup for another book returns what it
    returned before; [clearAllTranslations] leaves no row at all and keeps
    the counter, so that the ids of later rows are new.  Either leaves the
    table as it was when the request fails. *)
Theorem purges_remove_what_they_name :
  ∀ (t : Table) (b : jsstring),
    (∀ text, getTranslation StorageOk (deleteBookTranslations StorageOk t b) b text
             = None)
    ∧ (∀ texts, getBatchTranslations StorageOk
                  (deleteBookTranslations StorageOk t b) b texts = ∅)
    ∧ (∀ b' text, b' ≠ b →
         getTranslation StorageOk (deleteBookTranslations StorageOk t b) b' text
         = getTranslation StorageOk t b' text)
    ∧ (∀ b' texts, b' ≠ b →
         getBatchTranslations StorageOk (deleteBookTranslations StorageOk t b)
           b' texts
         = getBatchTranslations StorageOk t b' texts)
    ∧ rows (clearAllTranslations StorageOk t) = []
    ∧ autoIncrement (clearAllTranslations StorageOk t) = autoIncrement t
    ∧ getTranslationStats StorageOk (clearAllTranslations StorageOk t) = (0, 0)
    ∧ deleteBookTranslations StorageError t b = t
    ∧ clearAllTranslations StorageError t = t.
Proof.
  intros t b.
  assert (Hgone : ∀ P `{!∀ r, Decision (P r)},
            filter (λ r, bookId r = b ∧ P r) (filter (λ r, bookId r ≠ b) (rows t))
            = []).
  { intros P ?. rewrite list_filter_filter.
    induction (rows t) as [|r rs IH]; [done|].
    rewrite filter_cons_False; [done | tauto]. }
  assert (Hkept : ∀ b' P `{!∀ r, Decision (P r)}, b' ≠ b →
            filter (λ r, bookId r = b' ∧ P r) (filter (λ r, bookId r ≠ b) (rows t))
            = filter (λ r, bookId r = b' ∧ P r) (rows t)).
  { intros b' P ? Hne. apply list_filter_filter_l. intros r [-> _]. done. }
  split; [|split; [|split; [|split]]].
  - intros text. unfold getTranslation, first_by_compound. simpl.
    by rewrite (Hgone (λ r, sentenceHash r = generateSentenceHash text) _).
  - intros texts. unfold getBatchTranslations, batch_records. simpl.
    by rewrite (Hgone (λ r, sentenceHash r ∈ generateSentenceHash <$> texts) _).
  - intros b' text Hne. unfold getTranslation, first_by_compound. simpl.
    by rewrite (Hkept b' (λ r, sentenceHash r = generateSentenceHash text) _ Hne).
  - intros b' texts Hne. unfold getBatchTranslations, batch_records. simpl.
    by rewrite (Hkept b' (λ r, sentenceHash r ∈ generateSentenceHash <$> texts) _ Hne).
  - done.
Qed.

(** X10.  [getTranslationStats] counts the rows and the books that have a
    row: the number of books is at most the number of rows and zero only
    with it.  A save that went through raises the number of rows by one
    exactly when no row was found for the book and the hash of the text,
    and the number of books by one exactly when the book had no row. *)
Theorem stats_count_rows_and_books :
  ∀ (now : Z) (t : Table) (b text tr : jsstring) (src tgt : option jsstring),
    let stats := getTranslationStats StorageOk t in
    let stats' :=
      getTranslationStats StorageOk
        (saveTranslation StorageOk now t b text tr src tgt).1 in
    0 ≤ stats.2 ≤ stats.1
    ∧ (stats.2 = 0 ↔ stats.1 = 0)
    ∧ stats'.1 = stats.1 + match getTranslation StorageOk t b text with
                           | Some _ => 0
                           | None => 1
                           end
    ∧ stats'.2 = stats.2 + (if decide (b ∈ bookId <$> rows t) then 0 else 1)
    ∧ getTranslationStats StorageError t = (0, 0).
Proof.
  intros now t b text tr src tgt. cbv zeta. unfold getTranslationStats, getTranslation.
  cbn [fst snd].
  split; [|split; [|split; [|split; [|done]]]].
  - pose proof (length_remove_dups_le (bookId <$> rows t)) as Hle.
    rewrite length_fmap in Hle. lia.
  - pose proof (remove_dups_empty (bookId <$> rows t)) as Hz.
    rewrite length_fmap in Hz. lia.
  - destruct (first_by_compound t b (generateSentenceHash text)) as [e|] eqn:He.
    + rewrite (saveTranslation_found _ _ _ _ _ _ _ e He). simpl.
      rewrite length_fmap. lia.
    + rewrite (saveTranslation_fresh _ _ _ _ _ _ _ He). simpl.
      rewrite length_app. simpl. lia.
  - destruct (first_by_compound t b (generateSentenceHash text)) as [e|] eqn:He.
    + rewrite (saveTranslation_found _ _ _ _ _ _ _ e He). simpl.
      rewrite fmap_update_row by (intros r; unfold update_row; by destruct (decide _)).
      apply first_by_compound_Some in He as (Hin & Hb & _).
      rewrite decide_True; [lia|].
      apply list_elem_of_fmap. by exists e.
    + rewrite (saveTranslation_fresh _ _ _ _ _ _ _ He). simpl.
      rewrite fmap_app. simpl. rewrite length_remove_dups_snoc.
      destruct (decide (b ∈ bookId <$> rows t)); lia.
Qed.

End TableProperties.

Module ParseProperties.
Import Js Service Prompt PromptWords ParseFacts ParseFacts2 Scenario.

(** X11.  Whatever the translator replied, every entry [translateBatch]
    returns is owed to a line of the reply that begins with a bracketed
    number: the key is the text of the sentence at that position of the batch,
    counted from one, and the value is what follows the bracket on the line,
    trimmed; it is not empty and neither begins nor ends with white
    space. *)
Theorem batch_reply_entries_come_from_numbered_lines :
  ∀ (batch : list Sentence) (response k v : jsstring),
    translations_of batch response !! k = Some v →
    v ≠ []
    ∧ (∀ c, head v = Some c ∨ last v = Some c → is_space c = false)
    ∧ ∃ (i : nat) (s : Sentence) (line digits captured : jsstring),
        batch !! i = Some s ∧ text s = k
        ∧ line ∈ split_lines response
        ∧ match_line line = Some (digits, captured)
        ∧ parseInt digits = Z.of_nat i + 1
        ∧ v = trim captured.
Proof.
  intros batch response k v H. unfold translations_of in H.
  destruct (truthy response); [|by rewrite lookup_empty in H].
  apply collect_sound in H as [H | ([i s] & Hin & Hk & Htm & Hv)];
    [by rewrite lookup_empty in H|].
  apply elem_of_imap_pair in Hin. simpl in *.
  apply read_line_sound in Htm as [Htm | (line & digits & captured & Hl & Hm & Hp & _ & ->)];
    [by rewrite lookup_empty in Htm|].
  split; [by apply truthy_nonempty|]. split; [apply trim_edges|].
  by exists i, s, line, digits, captured.
Qed.

Lemma batch_reply_entries_come_from_numbered_lines_for_two :
  ∃ (i : nat) (s : Sentence) (line digits captured : jsstring),
    [unit_of "A." 0; unit_of "B." 1] !! i = Some s
    ∧ text s = lit "B."%string
    ∧ line ∈ split_lines (lit "[1] a"%string ++ 10 :: lit "[2]  b "%string)
    ∧ match_line line = Some (digits, captured)
    ∧ parseInt digits = Z.of_nat i + 1
    ∧ lit "b"%string = trim captured.
Proof.
  apply (batch_reply_entries_come_from_numbered_lines
           [unit_of "A." 0; unit_of "B." 1]
           (lit "[1] a"%string ++ 10 :: lit "[2]  b "%string)
           (lit "B."%string) (lit "b"%string)).
  by vm_compute.
Defined.

(** X12.  The numbering of the request is the numbering of the reply.  A
    reply made of one line for each sentence, the translations numbered
    from one as the prompt asks and none of them broken over lines, is read
    back in full: each sentence's text is given its translation, trimmed,
    unless that is blank (sentences with the same text being given the same
    translation).  In particular the user message of the request itself is
    read back to every sentence's own trimmed text. *)
Theorem numbered_reply_is_read_back :
  (∀ (batch : list Sentence) (translations : list jsstring),
     length translations = length batch →
     Forall one_line translations →
     (∀ i j s s', batch !! i = Some s → batch !! j = Some s' →
                  text s = text s' → translations !! i = translations !! j) →
     ∀ (i : nat) (s : Sentence) (t : jsstring),
       batch !! i = Some s → translations !! i = Some t →
       translations_of batch (reply_in_format translations) !! text s
       = if truthy (trim t) then Some (trim t) else None)
  ∧ (∀ batch : list Sentence,
       Forall (λ s, one_line (text s)) batch →
       batchText batch = reply_in_format (text <$> batch)
       ∧ ∀ s, s ∈ batch →
           translations_of batch (batchText batch) !! text s
           = if truthy (trim (text s)) then Some (trim (text s)) else None).
Proof.
  split.
  - intros batch ts Hlen Hall Hsame i s t Hi Ht.
    apply (translations_of_reply batch ts i s t); [done | done | | done | done].
    intros j s' Hj Hk. by rewrite <- (Hsame i j s s' Hi Hj (eq_sym Hk)), Ht.
  - intros batch Hall.
    assert (Heq : batchText batch = reply_in_format (text <$> batch)).
    { unfold batchText, reply_in_format. f_equal. by rewrite imap_fmap. }
    split; [done|]. intros s [i Hi]%list_elem_of_lookup. rewrite Heq.
    apply (translations_of_reply batch (text <$> batch) i s (text s)).
    + by rewrite length_fmap.
    + by apply Forall_fmap.
    + intros j s' Hj Hk. by rewrite list_lookup_fmap, Hj, <- Hk.
    + done.
    + by rewrite list_lookup_fmap, Hi.
Qed.

Lemma numbered_reply_is_read_back_for_two :
  translations_of [unit_of "A." 0; unit_of "B." 1]
    (reply_in_format [lit "a"%string; lit " b "%string]) !! lit "B."%string
  = Some (lit "b"%string)
  ∧ translations_of [unit_of "A." 0; unit_of "B." 1]
      (batchText [unit_of "A." 0; unit_of "B." 1]) !! lit "A."%string
    = Some (lit "A."%string).
Proof.
  assert (H1 : Forall one_line [lit "a"%string; lit " b "%string])
    by (repeat constructor).
  assert (H2 : Forall (λ s, one_line (text s)) [unit_of "A." 0; unit_of "B." 1])
    by (repeat constructor).
  assert (H3 : ∀ (i j : nat) (s s' : Sentence),
            [unit_of "A." 0; unit_of "B." 1] !! i = Some s →
            [unit_of "A." 0; unit_of "B." 1] !! j = Some s' →
            text s = text s' →
            [lit "a"%string; lit " b "%string] !! i
            = [lit "a"%string; lit " b "%string] !! j).
  { intros [|[|i]] [|[|j]] s s' Hi Hj Hk; try done;
      injection Hi as <-; injection Hj as <-; by vm_compute in Hk. }
  split.
  - exact (proj1 numbered_reply_is_read_back [unit_of "A." 0; unit_of "B." 1]
             [lit "a"%string; lit " b "%string] eq_refl H1 H3
             1%nat (unit_of "B." 1) (lit " b "%string) eq_refl eq_refl).
  - exact (proj2 (proj2 numbered_reply_is_read_back
                    [unit_of "A." 0; unit_of "B." 1] H2)
             (unit_of "A." 0) (list_elem_of_here _ _)).
Defined.

End ParseProperties.

Module ConductProperties.
Import Js Service Runs Conduct ConductFacts.

(** X13.  The service never reports a failure.  Whatever is called and
    whatever the translator and the storage answer, no task it holds or
    hands to its listeners has the status [error] or an error message, and
    the pop-up of a failed task is never shown: a call that is rejected is
    caught inside the loop, and the only exception that reaches the outer
    [catch] is raised when there is no task left to mark.  (Listeners and
    pop-ups return, as the state setters the two components subscribe
    do.) *)
Theorem no_failure_is_ever_reported :
  ∀ (t : Db.Table) (model : bool) (evs : list Event),
    let s := shared (run (initial t model) evs) in
    (∀ task, currentTask s = Some task →
       status task ≠ error ∧ error_message task = None)
    ∧ (∀ task, Some task ∈ notified s →
         status task ≠ error ∧ error_message task = None)
    ∧ (∀ msg, error_failed msg ∉ toasts s).
Proof.
  intros t model evs. cbv zeta.
  destruct (never_failed_run evs (initial t model)) as (Hc & Hn & Hm).
  { split; [apply not_failed_None|]. split; [apply Forall_nil_2|].
    intros msg H. by apply elem_of_nil in H. }
  split; [done|]. split; [|done].
  intros task Hin. rewrite Forall_forall in Hn. by apply (Hn (Some task)).
Qed.

End ConductProperties.

Module RunProperties.
Import Js Service Runs Scenario Conduct ConductFacts QuietFacts Order OrderFacts
  OrderWords OrderFacts2 OrderWords2 CompletionFacts ConductScenario JobFacts.

#[local] Arguments progress_expr : simpl never.
#[local] Arguments Db.saveTranslation : simpl never.
#[local] Arguments translations_of : simpl never.
#[local] Arguments slice : simpl never.
#[local] Arguments slice_from : simpl never.
#[local] Arguments Db.getBatchTranslations : simpl never.

(** X14.  While no task is running (there is none, or it is paused,
    completed or failed) and no start is under way, the translator is not
    called until [startTranslation] or [resumeTranslation] is: whatever
    promises are settled and whichever of the other methods are called, the
    list of requests stays as it is and no task runs.  When there is no
    task at all, none appears, and the listeners are told nothing and no
    pop-up is shown; only the table may still be written.  After
    [stopTranslation] and after [pauseTranslation] no task is running. *)
Theorem nothing_is_asked_while_no_task_runs :
  (∀ (sys : System) (evs : list Event),
     at_rest sys → Forall (λ ev, ¬ launches ev) evs →
     requests (shared (run sys evs)) = requests (shared sys)
     ∧ idle (shared (run sys evs))
     ∧ (currentTask (shared sys) = None →
        currentTask (shared (run sys evs)) = None
        ∧ notified (shared (run sys evs)) = notified (shared sys)
        ∧ toasts (shared (run sys evs)) = toasts (shared sys)))
  ∧ (∀ s : State, idle (stopTranslation s) ∧ idle (pauseTranslation s)).
Proof.
  split.
  - intros sys evs Hrest Hevs.
    destruct (at_rest_run evs sys Hrest Hevs) as ([Hi _] & Hr & Hn). done.
  - intros s. split; [apply idle_stop|].
    unfold pauseTranslation. destruct (currentTask s) as [t|] eqn:Ht.
    + destruct (decide (status t = running)).
      * intros t' [= <-]. by simpl.
      * intros t' Ht'. rewrite Ht in Ht'. by injection Ht' as <-.
    + intros t' Ht'. by rewrite Ht in Ht'.
Qed.

Lemma nothing_is_asked_while_no_task_runs_after_a_stop :
  requests (shared (run stopped_in_flight late_answers))
  = requests (shared stopped_in_flight)
  ∧ currentTask (shared (run stopped_in_flight late_answers)) = None
  ∧ length (Db.rows (table (shared (run stopped_in_flight late_answers)))) = 2%nat.
Proof.
  assert (Hrest : at_rest stopped_in_flight).
  { split.
    - intros t Ht. vm_compute in Ht. discriminate.
    - intros [|[|pid]] p Hp; vm_compute in Hp; [| |discriminate];
        injection Hp as <-; by intros []. }
  assert (Hevs : Forall (λ ev, ¬ launches ev) late_answers)
    by (repeat constructor; by intros []).
  destruct (proj1 nothing_is_asked_while_no_task_runs stopped_in_flight
              late_answers Hrest Hevs) as (Hr & _ & Hn).
  split; [exact Hr|]. split; [|by vm_compute].
  apply Hn. by vm_compute.
Defined.

(** X15.  In a run of the service in which [startTranslation] and
    [resumeTranslation] are called only when no activation is under way, with
    windows of at least one sentence, every task the service holds or has
    handed to its listeners has its count between zero and its total, and its
    percentage is the one computed from the two, or the 100 of a completed
    task whose count is the total; and no further event of such a run lowers
    the count of a task that is running. *)
Theorem orderly_runs_keep_the_counts :
  ∀ (table : Db.Table) (model : bool) (evs : list Event),
    orderly (initial table model) evs →
    let sys := run (initial table model) evs in
    (∀ t, currentTask (shared sys) = Some t ∨ Some t ∈ notified (shared sys) →
       0 ≤ completedSentences t ≤ totalSentences t ∧ progress_ok t)
    ∧ (∀ ev t t',
         allowed sys ev →
         currentTask (shared sys) = Some t → status t = running →
         currentTask (shared (step sys ev)) = Some t' →
         completedSentences t ≤ completedSentences t').
Proof.
  intros table model evs Hor. cbv zeta.
  pose proof (in_order_run evs _ (in_order_initial table model) Hor) as Hin.
  split.
  - intros t Ht. destruct Hin as [[Hn Hc] _].
    assert (Hok : task_ok t).
    { destruct Ht as [Ht | Ht]; [by apply Hc|].
      rewrite Forall_forall in Hn. by apply (Hn (Some t)). }
    destruct Hok as (_ & H0 & Hhits & Hle & Hp). split; [lia | done].
  - intros ev t t' Hev Ht Hr Ht'.
    destruct (in_order_step _ ev Hin Hev) as [_ Hrise]. by apply (Hrise t t').
Qed.

Lemma orderly_runs_keep_the_counts_when_resumed :
  ∃ t, currentTask (shared (run (initial Db.empty true) paused_and_resumed))
       = Some t
       ∧ completedSentences t = 2 ∧ totalSentences t = 4
       ∧ status t = running ∧ progress_ok t.
Proof.
  assert (Hor : orderly (initial Db.empty true) paused_and_resumed).
  { unfold paused_and_resumed. cbn [orderly allowed].
    repeat split.
    - unfold at_ease. vm_compute. constructor.
    - by vm_compute.
    - unfold at_ease. vm_compute. repeat constructor. }
  pose proof (orderly_runs_keep_the_counts Db.empty true paused_and_resumed Hor)
    as [Hc _].
  let o := eval vm_compute in
    (currentTask (shared (run (initial Db.empty true) paused_and_resumed))) in
  match o with Some ?t => exists t end.
  assert (Ht : currentTask (shared (run (initial Db.empty true) paused_and_resumed))
               = Some _) by (vm_compute; reflexivity).
  split; [exact Ht|]. split; [reflexivity|]. split; [reflexivity|].
  split; [reflexivity|]. exact (proj2 (Hc _ (or_introl Ht))).
Defined.

(** X16.  A loop that is left alone completes its task.  When the loop
    works on the task in place, which is running and not cancelled, then
    whatever the translator and the storage answer, after at most
    [steps_left] settled promises the loop has ended, the task is completed
    with its count at the total and its percentage at 100, the listeners
    were told and the pop-up shown; and the batch requests made on the way
    hold every sentence of the list after the window under way, each once
    and in order. *)
Theorem an_undisturbed_loop_completes_the_task :
  ∀ (sys : System) (pid : nat) (l : Loop) (t : TranslationTask)
    (answers : list Reply),
    under_way sys pid l t →
    (steps_left l ≤ length answers)%nat →
    ∃ k, (k ≤ steps_left l)%nat
         ∧ completed_from sys (run sys (settle pid <$> take k answers)) pid l
             (window_end l).
Proof.
  intros sys pid l t answers Hu Hlen.
  by apply (loop_completes pid (steps_left l) sys l t answers).
Qed.

Lemma an_undisturbed_loop_completes_the_task_of_scenario_A :
  ∃ k, (k ≤ 14)%nat
       ∧ completed_from first_window_in_flight
           (run first_window_in_flight
              (settle 1 <$> take k (replicate 14 Rejected))) 1
           (first_window
              (created_task start_four four_units 5)) 2.
Proof.
  assert (Hu : under_way first_window_in_flight 1
                 (first_window (created_task start_four four_units 5))
                 (created_task start_four four_units 5)).
  { split; [by vm_compute|]. split.
    - unfold loop_ok, window_end. repeat split; by vm_compute.
    - split; [by vm_compute|]. split; [|split; [done | by vm_compute]].
      unfold task_of_loop. repeat split; auto. }
  apply (an_undisturbed_loop_completes_the_task first_window_in_flight 1
           (first_window (created_task start_four four_units 5))
           (created_task start_four four_units 5) (replicate 14 Rejected) Hu).
  by vm_compute.
Defined.



End RunProperties.

Module ManagerProperties.
Import Js Service Prompt Manager ManagerWords ManagerFacts.

(** X18.  [getAllSentences] throws without a book; with one it returns a
    list in which no sentence is blank, every chapter index is that of a
    chapter of the book, no sentence index is negative, and a sentence that
    comes earlier in the list lies earlier in the book: in a chapter before,
    or in the same chapter at a smaller sentence index. *)
Theorem collected_sentences_are_visible_and_in_order
    (book : Book) (progress : ReadingProgress) :
  getAllSentences None progress = None
  ∧ ∃ all, getAllSentences (Some book) progress = Some all
    ∧ (∀ x, x ∈ all →
         trim (text x) ≠ []
         ∧ 0 ≤ chapterIndex x < Z.of_nat (length (chapterList book))
         ∧ 0 ≤ sentenceIndex x)
    ∧ ∀ i j x y, all !! i = Some x → all !! j = Some y → (i < j)%nat →
        before x y.
Proof.
  split; [done|]. eexists. split; [reflexivity|].
  destruct (chapters_collected progress (chapterList book)) as [Hall Hord].
  split; [|done]. intros x Hx.
  destruct (Hall x Hx) as (Ht & Hc & Hs & Hb).
  unfold below in Hb. repeat split; [done | lia | lia | lia].
Qed.

(** X19.  The sentences [getAllSentences] returns for one chapter of the
    book are, in this order: for a processed chapter, the stored sentences
    that are not blank, as they are stored and each with its position in
    the stored list, so that blank entries leave gaps in the numbering; for
    a chapter that was not processed, the pieces of its paragraphs that are
    not blank, trimmed and numbered from zero without gaps.  The whole list
    is made of these, chapter after chapter. *)
Theorem collected_sentences_chapter_by_chapter
    (book : Book) (progress : ReadingProgress) (n : nat) (ch : Chapter) :
  chapterList book !! n = Some ch →
  ∃ all, getAllSentences (Some book) progress = Some all
    ∧ all = concat (imap (chapter_sentences progress) (chapterList book))
    ∧ filter (λ x, chapterIndex x = Z.of_nat n) all
      = match sentenceChapters progress !! n with
        | Some sentences =>
            stored_sentence n
              <$> filter (λ p, visible p.2 = true) (imap pair sentences)
        | None =>
            imap (split_sentence n)
              (filter (λ s, visible s = true)
                 (paragraphs ch ≫= sentences_of_paragraph))
        end.
Proof.
  intros Hn. eexists. split; [reflexivity|].
  rewrite chapters_closed. split; [done|].
  by rewrite (chapter_of_concat progress (chapterList book) n ch Hn).
Qed.

Lemma collected_sentences_chapter_by_chapter_of_a_stored_chapter :
  ∃ all,
    getAllSentences (Some two_chapters)
      {| sentenceChapters := {[ 1%nat := [lit " The end. "; lit " "; lit "Fin"] ]} |}
    = Some all
    ∧ filter (λ x, chapterIndex x = 1) all
      = [ {| text := lit " The end. "; chapterIndex := 1; sentenceIndex := 0 |};
          {| text := lit "Fin"; chapterIndex := 1; sentenceIndex := 2 |} ]
    ∧ filter (λ x, chapterIndex x = 0) all
      = [ {| text := lit "Hi."; chapterIndex := 0; sentenceIndex := 0 |};
          {| text := lit "Go on!"; chapterIndex := 0; sentenceIndex := 1 |} ].
Proof.
  destruct (collected_sentences_chapter_by_chapter two_chapters
              {| sentenceChapters := {[ 1%nat := [lit " The end. "; lit " "; lit "Fin"] ]} |}
              1 {| paragraphs := [lit "The end."] |} eq_refl)
    as (all & Hall & Hcat & Hone).
  exists all. split; [done|]. split.
  - etrans; [exact Hone | by vm_compute].
  - rewrite Hcat. by vm_compute.
Defined.

(** X20.  In a paragraph in which the regular expression of
    [getAllSentences] finds a sentence, the text after the last terminator
    is dropped: the paragraph followed by any text without a terminator
    splits as the paragraph itself, into the matches, each of them a
    non-empty run of other characters closed by one terminator.  A
    paragraph with no terminator at all is kept whole. *)
Theorem text_after_the_last_terminator_is_dropped (p tail : jsstring) :
  match_sentences p ≠ [] →
  Forall (λ c, is_terminator c = false) tail →
  sentences_of_paragraph (p ++ tail) = match_sentences p
  ∧ (∀ m, m ∈ sentences_of_paragraph (p ++ tail) →
       ∃ body c, m = body ++ [c] ∧ body ≠ []
                 ∧ Forall (λ c, is_terminator c = false) body
                 ∧ is_terminator c = true)
  ∧ sentences_of_paragraph tail = [tail].
Proof.
  intros Hp Htail.
  assert (Hsame : sentences_of_paragraph (p ++ tail) = match_sentences p).
  { unfold sentences_of_paragraph, match_sentences.
    rewrite match_sentences_go_app by done.
    unfold match_sentences in Hp. by destruct (match_sentences_go [] p). }
  split; [done|]. split.
  - rewrite Hsame. intros m Hm.
    by apply (match_sentences_go_shape p [] m).
  - unfold sentences_of_paragraph, match_sentences.
    by rewrite match_sentences_go_tail.
Qed.

Lemma text_after_the_last_terminator_is_dropped_in_a_line :
  sentences_of_paragraph (lit "Hi. Go on" ++ lit "!" ++ lit " and more")
  = [lit "Hi."; lit " Go on!"].
Proof.
  pose proof (text_after_the_last_terminator_is_dropped
                (lit "Hi. Go on" ++ lit "!") (lit " and more")) as H.
  destruct H as [H _]; [by vm_compute | repeat constructor |].
  rewrite <- app_assoc in H. rewrite H. by vm_compute.
Defined.

(** X21.  When the list handed to the export is made of runs of sentences,
    each run of one chapter index other than -1 and not empty, and runs that
    follow each other of different chapters, the export adds one chapter
    per run, in the order of the runs: its title is the title of the table
    of contents or the numbered one, its content the heading with that
    title followed by the paragraphs of the sentences of the run. *)
Theorem export_adds_one_chapter_per_run
    (book : Book) (translations : gmap jsstring jsstring)
    (runs : list (Z * list Sentence)) :
  Forall chapter_run runs → runs_differ runs →
  export_chapters book translations (concat (snd <$> runs))
  = (λ r, (chapter_title book r.1,
           heading (chapter_title book r.1)
           ++ concat (block translations <$> r.2))) <$> runs.
Proof.
  intros Hruns Hdiff. unfold export_chapters.
  rewrite export_runs; [done | done | done |].
  destruct runs as [|r runs]; [done|].
  apply Forall_cons in Hruns as [(Hc & _) _]. done.
Qed.

Lemma export_adds_one_chapter_per_run_for_two_chapters :
  getAllSentences (Some two_chapters) {| sentenceChapters := ∅ |}
  = Some (concat (snd <$> two_chapter_runs))
  ∧ (export_chapters two_chapters one_translation
       (concat (snd <$> two_chapter_runs))).*1
    = [lit "One"; [31532; 32; 50; 32; 31456]].
Proof.
  split; [by vm_compute|].
  rewrite (export_adds_one_chapter_per_run two_chapters one_translation
             two_chapter_runs).
  - by vm_compute.
  - repeat constructor; done.
  - by vm_compute.
Defined.

(** X22.  Exporting what [getAllSentences] collected gives one chapter for
    each chapter of the book that has a sentence that is not blank, in the
    order of the book, and none for the others: its title is the one of the
    table of contents at the chapter's index, or the numbered one, and its
    content the heading and the paragraphs of the chapter's sentences.  A
    book with no such sentence is exported without a chapter. *)
Theorem collected_book_exports_its_chapters
    (book : Book) (progress : ReadingProgress)
    (translations : gmap jsstring jsstring) :
  ∃ all, getAllSentences (Some book) progress = Some all
    ∧ export_chapters book translations all
      = exported_chapter book translations
          <$> chapter_runs progress (chapterList book)
    ∧ (all = [] → export_chapters book translations all = []).
Proof.
  eexists. split; [reflexivity|].
  destruct (chapter_runs_spec progress (chapterList book))
    as (Hruns & Hdiff & Hcat).
  rewrite chapters_closed. split.
  - rewrite <- Hcat. unfold export_chapters.
    rewrite export_runs; [done | done | done |].
    destruct (chapter_runs progress (chapterList book)) as [|r runs]; [done|].
    apply Forall_inv in Hruns. by destruct Hruns.
  - by intros ->.
Qed.

End ManagerProperties.
